(** * Scene-graph update pipeline of the renderer: node registry, CoreNode
    recomputation and CoreAnimation, embedded from the TypeScript sources
    (core/Tree.ts, core/CoreNode.ts, core/animations/CoreAnimation.ts). *)

From Stdlib Require Import ZArith QArith Qround String List Lia.
From stdpp Require Import base option list gmap strings.
Import ListNotations.

Local Open Scope Z_scope.

(** ** Numbers

    Every numeric property of the engine is a JavaScript [number].  The
    development is parametric in the number type: only the operations the
    sources use appear in the interface, and the two laws below hold of IEEE
    doubles ([NaN] is falsy, and [0 === 0]). *)

Class JsNumber := {
  num : Type;
  zero : num;
  one : num;
  nadd : num -> num -> num;
  nsub : num -> num -> num;
  nmul : num -> num -> num;
  ndiv : num -> num -> num;
  nneg : num -> num;
  (** [a < b] *)
  nlt : num -> num -> bool;
  (** [a === b] *)
  strict_eq : num -> num -> bool;
  (** ToBoolean: [false] exactly on [0], [-0] and [NaN] *)
  truthy : num -> bool;
  strict_eq_zero : strict_eq zero zero = true;
  truthy_strict_eq : forall a, truthy a = true -> strict_eq a a = true
}.

(** [a || b] on numbers. *)
Definition num_or `{JsNumber} (a b : num) : num := if truthy a then a else b.

(** [a <= b], which on numbers is [a < b || a === b]. *)
Definition nle `{JsNumber} (a b : num) : bool := nlt a b || strict_eq a b.

(** ** Modules of the repository that are not part of the sources at hand

    [lib/Matrix3d.ts], [lib/utils.ts] (intersectRect), [utils.ts]
    (mergeColorProgress), [core/utils.ts] (getTimingFunction) and the texture
    and shader handles are taken as parameters.  A matrix is used as a value:
    the static constructors [Matrix3d.translate(x, y, out)],
    [Matrix3d.rotate(angle, out)] and [Matrix3d.copy(src, dst)] write into
    their last argument (or into a new matrix when it is undefined) and return
    it, the instance methods [multiply], [scale] and [translate] update the
    receiver and return it. *)

Class Lib `{JsNumber} := {
  Matrix3d : Type;
  Matrix3d_translate : num -> num -> Matrix3d;
  Matrix3d_rotate : num -> Matrix3d;
  m_multiply : Matrix3d -> Matrix3d -> Matrix3d;
  m_scale : Matrix3d -> num -> num -> Matrix3d;
  m_translate : Matrix3d -> num -> num -> Matrix3d;
  tx : Matrix3d -> num;
  ty : Matrix3d -> num;
  ta : Matrix3d -> num;
  tb : Matrix3d -> num;
  tc : Matrix3d -> num;
  td : Matrix3d -> num;
  (** [intersectRect(a, b)] on the four fields x, y, width, height *)
  intersectRect : num * num * num * num -> num * num * num * num -> num * num * num * num;
  mergeColorProgress : num -> num -> num -> num;
  (** a timing function returns [number | undefined] *)
  getTimingFunction : string -> num -> option num;
  Texture : Type;
  TextureOptions : Type;
  CoreShader : Type;
  ShaderProps : Type
}.

(** Modelled from the spec: Matrix3d.copy (lib/Matrix3d.ts is not among the
    sources); a direct copy of the coefficients of [src] into [dst]. *)
Definition Matrix3d_copy `{Lib} (src : Matrix3d) (dst : option Matrix3d) : Matrix3d := src.

(** ** Bit masks *)

Definition has_bit (mask bit : Z) : bool := negb (Z.land mask bit =? 0).

(** ** The JavaScript [Map<number, V>]: iteration follows insertion order,
    [set] on a present key keeps its position. *)

Fixpoint map_get {V : Type} (k : Z) (m : list (Z * V)) : option V :=
  match m with
  | [] => None
  | (k', v) :: r => if k =? k' then Some v else map_get k r
  end.

Fixpoint map_set {V : Type} (k : Z) (v : V) (m : list (Z * V)) : list (Z * V) :=
  match m with
  | [] => [(k, v)]
  | (k', v') :: r => if k =? k' then (k, v) :: r else (k', v') :: map_set k v r
  end.

Definition map_delete {V : Type} (k : Z) (m : list (Z * V)) : list (Z * V) :=
  filter (fun e => fst e <> k) m.

Definition map_values {V : Type} (m : list (Z * V)) : list V := map snd m.

(** ** Data model *)

(** Object identity of nodes and of clipping rectangles. *)
Definition loc := positive.

(** The numeric fields of [CoreNodeProps]. *)
Inductive NumProp :=
  | P_x | P_y | P_width | P_height | P_alpha
  | P_color | P_colorTop | P_colorBottom | P_colorLeft | P_colorRight
  | P_colorTl | P_colorTr | P_colorBl | P_colorBr
  | P_zIndex | P_zIndexLocked
  | P_scaleX | P_scaleY
  | P_mount | P_mountX | P_mountY
  | P_pivot | P_pivotX | P_pivotY
  | P_rotation.

Global Instance NumProp_eq_dec : EqDecision NumProp.
Proof. solve_decision. Defined.

(** Modelled from the spec: INodeAnimatableProps (main-api/INode.ts is not
    among the sources): the numeric and colour properties of a node that an
    animation may target. *)
Inductive AnimProp :=
  | A_x | A_y | A_width | A_height | A_alpha
  | A_color | A_colorTop | A_colorBottom | A_colorLeft | A_colorRight
  | A_colorTl | A_colorTr | A_colorBl | A_colorBr
  | A_scale | A_scaleX | A_scaleY
  | A_mount | A_mountX | A_mountY
  | A_pivot | A_pivotX | A_pivotY
  | A_rotation.

Global Instance AnimProp_eq_dec : EqDecision AnimProp.
Proof. solve_decision. Defined.

(** Faults raised by [assertTruthy] and the two ways the model itself can
    stop: a reference to an object that was never allocated, and a missing
    entry behind an [as number] cast. *)
Inductive Error :=
  | NodeNotFound (id : Z)
  | AssertionFailed
  | DanglingReference (l : loc)
  | UndefinedValue.

Inductive Result (A : Type) :=
  | Ok (a : A)
  | Fault (e : Error)
  | OutOfFuel.
Arguments Ok {A} a.
Arguments Fault {A} e.
Arguments OutOfFuel {A}.

Section Model.
Context {JN : JsNumber} {LB : Lib}.

Record Rect := {
  rect_ref : loc;
  rect_x : num;
  rect_y : num;
  rect_width : num;
  rect_height : num
}.

Record CoreNodeProps := {
  id : Z;
  nprop : NumProp -> num;
  clipping : bool;
  texture : option Texture;
  textureOptions : option TextureOptions;
  shader : option CoreShader;
  shaderProps : option ShaderProps
}.

Record CoreNode := {
  props : CoreNodeProps;
  recalculationType : Z;
  hasUpdates : bool;
  globalTransform : option Matrix3d;
  scaleRotateTransform : option Matrix3d;
  localTransform : option Matrix3d;
  clippingRect : option Rect;
  parentClippingRect : option Rect;
  parentId : option Z;
  childrenIds : list Z;
  isComplex : bool;
  updateMask : Z;
  children : list loc;
  parentNode : option loc
}.

(** The heap of node objects, the two module-level maps of Tree.ts and the
    allocation counter. *)
Record World := {
  heap : gmap loc CoreNode;
  _tree : list (Z * loc);
  _dirtyNodes : list (Z * loc);
  next_loc : loc
}.

(** *** Field updates *)

Definition with_nprop (k : NumProp) (v : num) (p : CoreNodeProps) : CoreNodeProps :=
  {| id := id p;
     nprop := fun k' => if decide (k' = k) then v else nprop p k';
     clipping := clipping p; texture := texture p;
     textureOptions := textureOptions p; shader := shader p;
     shaderProps := shaderProps p |}.

Definition with_clipping (v : bool) (p : CoreNodeProps) : CoreNodeProps :=
  {| id := id p; nprop := nprop p; clipping := v; texture := texture p;
     textureOptions := textureOptions p; shader := shader p;
     shaderProps := shaderProps p |}.

Definition with_props (f : CoreNodeProps -> CoreNodeProps) (n : CoreNode) : CoreNode :=
  {| props := f (props n); recalculationType := recalculationType n;
     hasUpdates := hasUpdates n; globalTransform := globalTransform n;
     scaleRotateTransform := scaleRotateTransform n;
     localTransform := localTransform n; clippingRect := clippingRect n;
     parentClippingRect := parentClippingRect n; parentId := parentId n;
     childrenIds := childrenIds n; isComplex := isComplex n;
     updateMask := updateMask n; children := children n;
     parentNode := parentNode n |}.

Definition with_recalculationType (v : Z) (n : CoreNode) : CoreNode :=
  {| props := props n; recalculationType := v;
     hasUpdates := hasUpdates n; globalTransform := globalTransform n;
     scaleRotateTransform := scaleRotateTransform n;
     localTransform := localTransform n; clippingRect := clippingRect n;
     parentClippingRect := parentClippingRect n; parentId := parentId n;
     childrenIds := childrenIds n; isComplex := isComplex n;
     updateMask := updateMask n; children := children n;
     parentNode := parentNode n |}.

Definition with_hasUpdates (v : bool) (n : CoreNode) : CoreNode :=
  {| props := props n; recalculationType := recalculationType n;
     hasUpdates := v; globalTransform := globalTransform n;
     scaleRotateTransform := scaleRotateTransform n;
     localTransform := localTransform n; clippingRect := clippingRect n;
     parentClippingRect := parentClippingRect n; parentId := parentId n;
     childrenIds := childrenIds n; isComplex := isComplex n;
     updateMask := updateMask n; children := children n;
     parentNode := parentNode n |}.

Definition with_globalTransform (v : option Matrix3d) (n : CoreNode) : CoreNode :=
  {| props := props n; recalculationType := recalculationType n;
     hasUpdates := hasUpdates n; globalTransform := v;
     scaleRotateTransform := scaleRotateTransform n;
     localTransform := localTransform n; clippingRect := clippingRect n;
     parentClippingRect := parentClippingRect n; parentId := parentId n;
     childrenIds := childrenIds n; isComplex := isComplex n;
     updateMask := updateMask n; children := children n;
     parentNode := parentNode n |}.

Definition with_scaleRotateTransform (v : option Matrix3d) (n : CoreNode) : CoreNode :=
  {| props := props n; recalculationType := recalculationType n;
     hasUpdates := hasUpdates n; globalTransform := globalTransform n;
     scaleRotateTransform := v;
     localTransform := localTransform n; clippingRect := clippingRect n;
     parentClippingRect := parentClippingRect n; parentId := parentId n;
     childrenIds := childrenIds n; isComplex := isComplex n;
     updateMask := updateMask n; children := children n;
     parentNode := parentNode n |}.

Definition with_localTransform (v : option Matrix3d) (n : CoreNode) : CoreNode :=
  {| props := props n; recalculationType := recalculationType n;
     hasUpdates := hasUpdates n; globalTransform := globalTransform n;
     scaleRotateTransform := scaleRotateTransform n;
     localTransform := v; clippingRect := clippingRect n;
     parentClippingRect := parentClippingRect n; parentId := parentId n;
     childrenIds := childrenIds n; isComplex := isComplex n;
     updateMask := updateMask n; children := children n;
     parentNode := parentNode n |}.

Definition with_clippingRect (v : option Rect) (n : CoreNode) : CoreNode :=
  {| props := props n; recalculationType := recalculationType n;
     hasUpdates := hasUpdates n; globalTransform := globalTransform n;
     scaleRotateTransform := scaleRotateTransform n;
     localTransform := localTransform n; clippingRect := v;
     parentClippingRect := parentClippingRect n; parentId := parentId n;
     childrenIds := childrenIds n; isComplex := isComplex n;
     updateMask := updateMask n; children := children n;
     parentNode := parentNode n |}.

Definition with_parentClippingRect (v : option Rect) (n : CoreNode) : CoreNode :=
  {| props := props n; recalculationType := recalculationType n;
     hasUpdates := hasUpdates n; globalTransform := globalTransform n;
     scaleRotateTransform := scaleRotateTransform n;
     localTransform := localTransform n; clippingRect := clippingRect n;
     parentClippingRect := v; parentId := parentId n;
     childrenIds := childrenIds n; isComplex := isComplex n;
     updateMask := updateMask n; children := children n;
     parentNode := parentNode n |}.

Definition with_parentId (v : option Z) (n : CoreNode) : CoreNode :=
  {| props := props n; recalculationType := recalculationType n;
     hasUpdates := hasUpdates n; globalTransform := globalTransform n;
     scaleRotateTransform := scaleRotateTransform n;
     localTransform := localTransform n; clippingRect := clippingRect n;
     parentClippingRect := parentClippingRect n; parentId := v;
     childrenIds := childrenIds n; isComplex := isComplex n;
     updateMask := updateMask n; children := children n;
     parentNode := parentNode n |}.

Definition with_childrenIds (v : list Z) (n : CoreNode) : CoreNode :=
  {| props := props n; recalculationType := recalculationType n;
     hasUpdates := hasUpdates n; globalTransform := globalTransform n;
     scaleRotateTransform := scaleRotateTransform n;
     localTransform := localTransform n; clippingRect := clippingRect n;
     parentClippingRect := parentClippingRect n; parentId := parentId n;
     childrenIds := v; isComplex := isComplex n;
     updateMask := updateMask n; children := children n;
     parentNode := parentNode n |}.

Definition with_updateMask (v : Z) (n : CoreNode) : CoreNode :=
  {| props := props n; recalculationType := recalculationType n;
     hasUpdates := hasUpdates n; globalTransform := globalTransform n;
     scaleRotateTransform := scaleRotateTransform n;
     localTransform := localTransform n; clippingRect := clippingRect n;
     parentClippingRect := parentClippingRect n; parentId := parentId n;
     childrenIds := childrenIds n; isComplex := isComplex n;
     updateMask := v; children := children n;
     parentNode := parentNode n |}.

Definition with_children (v : list loc) (n : CoreNode) : CoreNode :=
  {| props := props n; recalculationType := recalculationType n;
     hasUpdates := hasUpdates n; globalTransform := globalTransform n;
     scaleRotateTransform := scaleRotateTransform n;
     localTransform := localTransform n; clippingRect := clippingRect n;
     parentClippingRect := parentClippingRect n; parentId := parentId n;
     childrenIds := childrenIds n; isComplex := isComplex n;
     updateMask := updateMask n; children := v;
     parentNode := parentNode n |}.

Definition with_parentNode (v : option loc) (n : CoreNode) : CoreNode :=
  {| props := props n; recalculationType := recalculationType n;
     hasUpdates := hasUpdates n; globalTransform := globalTransform n;
     scaleRotateTransform := scaleRotateTransform n;
     localTransform := localTransform n; clippingRect := clippingRect n;
     parentClippingRect := parentClippingRect n; parentId := parentId n;
     childrenIds := childrenIds n; isComplex := isComplex n;
     updateMask := updateMask n; children := children n;
     parentNode := v |}.

Definition with_heap (h : gmap loc CoreNode) (w : World) : World :=
  {| heap := h; _tree := _tree w; _dirtyNodes := _dirtyNodes w; next_loc := next_loc w |}.

Definition with_tree (t : list (Z * loc)) (w : World) : World :=
  {| heap := heap w; _tree := t; _dirtyNodes := _dirtyNodes w; next_loc := next_loc w |}.

Definition with_dirtyNodes (d : list (Z * loc)) (w : World) : World :=
  {| heap := heap w; _tree := _tree w; _dirtyNodes := d; next_loc := next_loc w |}.

Definition with_next_loc (l : loc) (w : World) : World :=
  {| heap := heap w; _tree := _tree w; _dirtyNodes := _dirtyNodes w; next_loc := l |}.

(** *** The state-and-fault monad of the engine's methods *)

Definition St (A : Type) : Type := World -> Result (A * World).

Definition ret {A : Type} (a : A) : St A := fun w => Ok (a, w).

Definition bind {A B : Type} (m : St A) (k : A -> St B) : St B :=
  fun w =>
    match m w with
    | Ok (a, w') => k a w'
    | Fault e => Fault e
    | OutOfFuel => OutOfFuel
    end.

Definition throw {A : Type} (e : Error) : St A := fun _ => Fault e.

Definition out_of_fuel {A : Type} : St A := fun _ => OutOfFuel.

Definition read (l : loc) : St CoreNode :=
  fun w =>
    match heap w !! l with
    | Some n => Ok (n, w)
    | None => Fault (DanglingReference l)
    end.

Definition modify (l : loc) (f : CoreNode -> CoreNode) : St unit :=
  fun w =>
    match heap w !! l with
    | Some n => Ok (tt, with_heap (<[l := f n]> (heap w)) w)
    | None => Fault (DanglingReference l)
    end.

Definition fresh : St loc :=
  fun w => Ok (next_loc w, with_next_loc (Pos.succ (next_loc w)) w).

Definition when (b : bool) (m : St unit) : St unit := if b then m else ret tt.

Fixpoint mapM {A B : Type} (f : A -> St B) (l : list A) : St (list B) :=
  match l with
  | [] => ret []
  | a :: r => bind (f a) (fun b => bind (mapM f r) (fun bs => ret (b :: bs)))
  end.

End Model.

Notation "'let*' x ':=' m 'in' k" := (bind m (fun x => k))
  (at level 10, x name, m at level 100, k at level 200).
Notation "m ';;' k" := (bind m (fun _ => k))
  (at level 100, k at level 200, right associativity).

Section Engine.
Context {JN : JsNumber} {LB : Lib}.

(** ** Tree.ts: the node registry *)

(** Modelled from the spec: assertTruthy (utils.ts is not among the sources);
    a falsy condition is a programming error and aborts with a fault. *)
Definition assertTruthy {A : Type} (o : option A) (e : Error) : St A :=
  match o with
  | Some a => ret a
  | None => throw e
  end.

Definition tree_add (l : loc) : St unit :=
  let* n := read l in
  fun w => Ok (tt, with_tree (map_set (id (props n)) l (_tree w)) w).

Definition tree_get (i : option Z) : St (option loc) :=
  match i with
  | None => ret None
  | Some k =>
      fun w =>
        (let* resp := assertTruthy (map_get k (_tree w)) (NodeNotFound k) in
         ret (Some resp)) w
  end.

Definition tree_remove (k : Z) : St unit :=
  fun w => Ok (tt, with_tree (map_delete k (_tree w)) w).

Definition tree_getAllNodes : St (list loc) :=
  fun w => Ok (map_values (_tree w), w).

(** [idList.map(id => this.get(id)).filter(Boolean)] when the list is defined
    and not empty, every registered node otherwise. *)
Definition tree_getNodes (idList : option (list Z)) : St (list loc) :=
  match idList with
  | Some (i :: r) =>
      let* nodes := mapM (fun k => tree_get (Some k)) (i :: r) in
      ret (omap (fun o => o) nodes)
  | _ => fun w => Ok (map_values (_tree w), w)
  end.

Definition tree_markDirty (l : loc) : St unit :=
  let* n := read l in
  fun w => Ok (tt, with_dirtyNodes (map_set (id (props n)) l (_dirtyNodes w)) w).

Definition tree_getDirtyNodes : St (list loc) :=
  fun w => Ok (map_values (_dirtyNodes w), w).

Definition tree_clearDirtyNodes : St unit :=
  fun w => Ok (tt, with_dirtyNodes [] w).

Definition tree_hasDirtyNodes : St bool :=
  fun w => Ok (negb (Nat.eqb (length (_dirtyNodes w)) 0), w).

(** [sort()]: the comparator [(a, b) => a.id - b.id] puts [a] before [b]
    when [a.id < b.id], and the sort is stable; [insert_by_id e s] puts the
    entry [e], which stood to the left of the entries of [s], behind those
    with a smaller id and in front of the others. *)
Fixpoint insert_by_id (e : Z * loc) (s : list (Z * loc)) : list (Z * loc) :=
  match s with
  | [] => [e]
  | e' :: r => if fst e' <? fst e then e' :: insert_by_id e r else e :: e' :: r
  end.

Definition sort_by_id (l : list (Z * loc)) : list (Z * loc) :=
  fold_right insert_by_id [] l.

(** [new Map(entries)]: the entries are set one after the other. *)
Definition map_of_entries {V : Type} (entries : list (Z * V)) : list (Z * V) :=
  fold_left (fun m e => map_set (fst e) (snd e) m) entries [].

(** [sort()]: the registry is rebuilt from its nodes, each under its own id,
    in the order of the ids. *)
Definition tree_sort : St unit :=
  fun w =>
    (let* entries :=
       mapM (fun l => let* n := read l in ret (id (props n), l))
            (map_values (_tree w)) in
     fun w' => Ok (tt, with_tree (map_of_entries (sort_by_id entries)) w')) w.

(** [findParent(n)]: asserts [n.parentId], which fails on [null] and on 0,
    and looks the id up without the assertion of [get]: the result is
    undefined for an id that is not registered. *)
Definition tree_findParent (l : loc) : St (option loc) :=
  let* n := read l in
  match parentId n with
  | Some k =>
      if k =? 0 then throw AssertionFailed
      else fun w => Ok (map_get k (_tree w), w)
  | None => throw AssertionFailed
  end.

(** [findChildren(n)]: the assertion on [n.childrenIds] holds of every
    array, the empty one included; each id goes through [get]. *)
Definition tree_findChildren (l : loc) : St (list loc) :=
  let* n := read l in
  let* nodes := mapM (fun k => tree_get (Some k)) (childrenIds n) in
  ret (omap (fun o => o) nodes).

(** ** CoreNode.ts *)

Definition setHasUpdates (l : loc) : St unit :=
  modify l (with_hasUpdates true) ;;
  tree_markDirty l.

Definition setChildrenHasUpdates (l : loc) : St unit :=
  let* n := read l in
  if Nat.eqb (length (childrenIds n)) 0 then ret tt
  else modify l (fun n => with_updateMask (Z.lor (updateMask n) 1) n).

(** [!this.parentId] holds of [null] and of [0]. *)
Definition id_truthy (i : option Z) : bool :=
  match i with
  | Some k => negb (k =? 0)
  | None => false
  end.

Definition setParentHasUpdates (l : loc) : St unit :=
  let* n := read l in
  if negb (id_truthy (parentId n)) then ret tt
  else modify l (fun n => with_updateMask (Z.lor (updateMask n) 2) n).

Definition setRecalculationType (l : loc) (type : Z) : St unit :=
  modify l (fun n => with_recalculationType (Z.lor (recalculationType n) type) n) ;;
  setHasUpdates l ;;
  when (has_bit type 1) (setParentHasUpdates l) ;;
  when (has_bit type 4) (setChildrenHasUpdates l).

Definition updateLocalTransform (l : loc) : St unit :=
  let* n := read l in
  let* sr := assertTruthy (scaleRotateTransform n) AssertionFailed in
  let p := nprop (props n) in
  let pivotTranslateX := nmul (p P_pivotX) (p P_width) in
  let pivotTranslateY := nmul (p P_pivotY) (p P_height) in
  let mountTranslateX := nmul (p P_mountX) (p P_width) in
  let mountTranslateY := nmul (p P_mountY) (p P_height) in
  modify l (with_localTransform (Some
    (m_translate
       (m_multiply
          (Matrix3d_translate
             (nadd (nsub pivotTranslateX mountTranslateX) (p P_x))
             (nadd (nsub pivotTranslateY mountTranslateY) (p P_y)))
          sr)
       (nneg pivotTranslateX) (nneg pivotTranslateY)))).

Definition updateScaleRotateTransform (l : loc) : St unit :=
  let* n := read l in
  let p := nprop (props n) in
  modify l (with_scaleRotateTransform (Some
    (m_scale (Matrix3d_rotate (p P_rotation)) (p P_scaleX) (p P_scaleY)))) ;;
  updateLocalTransform l.

(** [get parent()] *)
Definition get_parent (l : loc) : St (option loc) :=
  let* n := read l in
  if has_bit (updateMask n) 2 then
    let* r := tree_get (parentId n) in
    modify l (with_parentNode r) ;;
    let* n' := read l in
    ret (parentNode n')
  else ret (parentNode n).

(** [get zIndexLocked()] *)
Definition get_zIndexLocked (l : loc) : St num :=
  let* n := read l in
  ret (num_or (nprop (props n) P_zIndexLocked) zero).

(** [get zIndex()]; the getter calls itself on the parent, [fuel] bounds the
    depth of that recursion. With [parent] null, [parent?.zIndex] is
    undefined and [p] is 0. *)
Fixpoint get_zIndex (fuel : nat) (l : loc) : St num :=
  match fuel with
  | O => out_of_fuel
  | S fuel' =>
      let* n := read l in
      let* parent := get_parent l in
      let z := num_or (nprop (props n) P_zIndex) zero in
      let* p :=
        match parent with
        | Some lp => let* pz := get_zIndex fuel' lp in ret (num_or pz zero)
        | None => ret zero
        end in
      let* locked :=
        match parent with
        | Some lp => let* k := get_zIndexLocked lp in ret (truthy k)
        | None => ret false
        end in
      if locked then ret (if nlt z p then z else p) else ret z
  end.

(** [get worldAlpha()] *)
Fixpoint get_worldAlpha (fuel : nat) (l : loc) : St num :=
  match fuel with
  | O => out_of_fuel
  | S fuel' =>
      let* n := read l in
      let* parent := get_parent l in
      let* pa :=
        match parent with
        | Some lp => let* a := get_worldAlpha fuel' lp in ret (num_or a one)
        | None => ret one
        end in
      ret (nmul (nprop (props n) P_alpha) pa)
  end.

(** [children.sort((a, b) => a.zIndex - b.zIndex)]: the comparator puts [a]
    before [b] when the difference is negative; Array.prototype.sort is
    stable, and never calls the comparator on fewer than two elements.
    [insert_sorted e s] puts [e], which stood to the left of the elements of
    [s], behind those that the comparator puts before it and in front of the
    others, so elements that compare equal keep their order. *)
Definition zIndex_before (a b : num) : bool := nlt (nsub a b) zero.

Fixpoint insert_sorted (e : num * loc) (s : list (num * loc)) : list (num * loc) :=
  match s with
  | [] => [e]
  | e' :: r =>
      if zIndex_before (fst e') (fst e) then e' :: insert_sorted e r
      else e :: e' :: r
  end.

Definition stable_sort (l : list (num * loc)) : list (num * loc) :=
  fold_right insert_sorted [] l.

Definition sortChildren (fuel : nat) (l : loc) : St unit :=
  let* n := read l in
  if (length (children n) <? 2)%nat then ret tt
  else
    let* keyed := mapM (fun c => let* z := get_zIndex fuel c in ret (z, c)) (children n) in
    modify l (with_children (map snd (stable_sort keyed))).


(** Reference identity of two [Rect | null] values. *)
Definition same_rect (a b : option Rect) : bool :=
  match a, b with
  | None, None => true
  | Some r, Some r' => Pos.eqb (rect_ref r) (rect_ref r')
  | _, _ => false
  end.

Definition new_rect (x y width height : num) : St Rect :=
  let* r := fresh in
  ret {| rect_ref := r; rect_x := x; rect_y := y;
         rect_width := width; rect_height := height |}.

Definition rect_fields (r : Rect) : num * num * num * num :=
  (rect_x r, rect_y r, rect_width r, rect_height r).

Definition calculateClippingRect (l : loc) (parentClippingRect' : option Rect) : St unit :=
  let* n := read l in
  match globalTransform n with
  | None => ret tt
  | Some gt =>
      if negb (clipping (props n)) && negb (bool_decide (is_Some parentClippingRect')) then
        modify l (with_clippingRect None)
      else if same_rect (parentClippingRect n) parentClippingRect'
                && bool_decide (is_Some (clippingRect n)) then
        ret tt
      else
        let isRotated :=
          negb (strict_eq (tb gt) zero) || negb (strict_eq (tc gt) zero) in
        let* own :=
          if clipping (props n) && negb isRotated then
            let* r := new_rect (tx gt) (ty gt)
                        (nmul (nprop (props n) P_width) (ta gt))
                        (nmul (nprop (props n) P_height) (td gt)) in
            ret (Some r)
          else ret None in
        let* clippingRect' :=
          match parentClippingRect', own with
          | Some pr, Some r =>
              let '(x, y, w, h) := intersectRect (rect_fields pr) (rect_fields r) in
              let* i := new_rect x y w h in
              ret (Some i)
          | Some pr, None => ret (Some pr)
          | None, _ => ret own
          end in
        modify l (with_parentClippingRect parentClippingRect') ;;
        modify l (with_clippingRect clippingRect')
  end.

(** [update(delta, parentClippingRect)]; [delta] is not used by the body. *)
Definition update (fuel : nat) (l : loc) (parentClippingRect' : option Rect) : St unit :=
  let* n := read l in
  let* _ := assertTruthy (localTransform n) AssertionFailed in
  (let* n := read l in
   when (has_bit (updateMask n) 1)
     (let* cs := tree_getNodes (Some (childrenIds n)) in
      modify l (with_children cs))) ;;
  (let* n := read l in
   when (has_bit (recalculationType n) 2) (updateLocalTransform l)) ;;
  (let* n := read l in
   when (has_bit (recalculationType n) 4) (updateScaleRotateTransform l)) ;;
  let* parent := get_parent l in
  let* parentGlobalTransform :=
    match parent with
    | Some lp => let* pn := read lp in ret (globalTransform pn)
    | None => ret None
    end in
  let* n := read l in
  let* lt := assertTruthy (localTransform n) AssertionFailed in
  match parentGlobalTransform with
  | Some pgt =>
      modify l (with_globalTransform
        (Some (m_multiply (Matrix3d_copy pgt (globalTransform n)) lt)))
  | None =>
      modify l (with_globalTransform (Some (Matrix3d_copy lt (globalTransform n))))
  end ;;
  calculateClippingRect l parentClippingRect' ;;
  (let* n := read l in
   when (has_bit (recalculationType n) 8) (sortChildren fuel l)) ;;
  modify l (with_hasUpdates false) ;;
  modify l (with_updateMask 0) ;;
  modify l (with_recalculationType 0).

(** The quad handed to [renderer.addQuad]. *)
Record Quad := {
  q_width : num; q_height : num;
  q_colorTl : num; q_colorTr : num; q_colorBl : num; q_colorBr : num;
  q_texture : option Texture; q_textureOptions : option TextureOptions;
  q_zIndex : num;
  q_shader : option CoreShader; q_shaderProps : option ShaderProps;
  q_alpha : num;
  q_clippingRect : option Rect;
  q_tx : num; q_ty : num; q_ta : num; q_tb : num; q_tc : num; q_td : num
}.

Definition renderQuads (fuel : nat) (l : loc) : St Quad :=
  let* n := read l in
  let p := props n in
  let* zIndex := get_zIndex fuel l in
  let* worldAlpha := get_worldAlpha fuel l in
  let* n' := read l in
  let* gt := assertTruthy (globalTransform n') AssertionFailed in
  ret {| q_width := nprop p P_width; q_height := nprop p P_height;
         q_colorTl := nprop p P_colorTl; q_colorTr := nprop p P_colorTr;
         q_colorBl := nprop p P_colorBl; q_colorBr := nprop p P_colorBr;
         q_texture := texture p; q_textureOptions := textureOptions p;
         q_zIndex := zIndex;
         q_shader := shader p; q_shaderProps := shaderProps p;
         q_alpha := worldAlpha;
         q_clippingRect := clippingRect n';
         q_tx := tx gt; q_ty := ty gt; q_ta := ta gt;
         q_tb := tb gt; q_tc := tc gt; q_td := td gt |}.

(** *** Property setters *)

Definition store_prop (l : loc) (k : NumProp) (v : num) : St unit :=
  modify l (with_props (with_nprop k v)).

(** [if (this.props.k !== value) { this.props.k = value; this.setRecalculationType(type); }] *)
Definition guarded_setter (k : NumProp) (type : Z) (l : loc) (value : num) : St unit :=
  let* n := read l in
  when (negb (strict_eq (nprop (props n) k) value))
    (store_prop l k value ;; setRecalculationType l type).

(** [this.props.k = value; this.setRecalculationType(type);] *)
Definition plain_setter (k : NumProp) (type : Z) (l : loc) (value : num) : St unit :=
  store_prop l k value ;; setRecalculationType l type.

Definition set_x := guarded_setter P_x 2.
Definition set_y := guarded_setter P_y 2.
Definition set_width := guarded_setter P_width 2.
Definition set_height := guarded_setter P_height 2.
Definition set_scaleX := guarded_setter P_scaleX 4.
Definition set_scaleY := guarded_setter P_scaleY 4.
Definition set_rotation := guarded_setter P_rotation 2.

Definition set_scale (l : loc) (value : num) : St unit :=
  set_scaleX l value ;; set_scaleY l value.

Definition set_mount (l : loc) (value : num) : St unit :=
  store_prop l P_mountX value ;;
  store_prop l P_mountY value ;;
  store_prop l P_mount value ;;
  setRecalculationType l 2.

Definition set_mountX := plain_setter P_mountX 2.
Definition set_mountY := plain_setter P_mountY 2.

Definition set_pivot (l : loc) (value : num) : St unit :=
  let* n := read l in
  when (negb (strict_eq (nprop (props n) P_pivotX) value)
        || negb (strict_eq (nprop (props n) P_pivotY) value))
    (store_prop l P_pivotX value ;;
     store_prop l P_pivotY value ;;
     setRecalculationType l 2).

Definition set_pivotX := plain_setter P_pivotX 2.
Definition set_pivotY := plain_setter P_pivotY 2.
Definition set_alpha := plain_setter P_alpha 4.

Definition set_clipping (l : loc) (value : bool) : St unit :=
  modify l (with_props (with_clipping value)) ;;
  modify l (with_clippingRect None) ;;
  setRecalculationType l 4.

Definition set_colorTl := plain_setter P_colorTl 2.
Definition set_colorTr := plain_setter P_colorTr 2.
Definition set_colorBl := plain_setter P_colorBl 2.
Definition set_colorBr := plain_setter P_colorBr 2.

Definition differs (n : CoreNode) (k : NumProp) (value : num) : bool :=
  negb (strict_eq (nprop (props n) k) value).

Definition set_color (l : loc) (value : num) : St unit :=
  (let* n := read l in
   when (differs n P_colorTl value || differs n P_colorTr value
         || differs n P_colorBl value || differs n P_colorBr value)
     (set_colorTl l value ;; set_colorTr l value ;;
      set_colorBl l value ;; set_colorBr l value)) ;;
  store_prop l P_color value ;;
  setRecalculationType l 2.

Definition set_colorTop (l : loc) (value : num) : St unit :=
  (let* n := read l in
   when (differs n P_colorTl value || differs n P_colorTr value)
     (set_colorTl l value ;; set_colorTr l value)) ;;
  store_prop l P_colorTop value ;;
  setRecalculationType l 2.

Definition set_colorBottom (l : loc) (value : num) : St unit :=
  (let* n := read l in
   when (differs n P_colorBl value || differs n P_colorBr value)
     (set_colorBl l value ;; set_colorBr l value)) ;;
  store_prop l P_colorBottom value ;;
  setRecalculationType l 2.

Definition set_colorLeft (l : loc) (value : num) : St unit :=
  (let* n := read l in
   when (differs n P_colorTl value || differs n P_colorBl value)
     (set_colorTl l value ;; set_colorBl l value)) ;;
  store_prop l P_colorLeft value ;;
  setRecalculationType l 2.

Definition set_colorRight (l : loc) (value : num) : St unit :=
  (let* n := read l in
   when (differs n P_colorTr value || differs n P_colorBr value)
     (set_colorTr l value ;; set_colorBr l value)) ;;
  store_prop l P_colorRight value ;;
  setRecalculationType l 2.

Definition set_zIndexLocked (l : loc) (value : num) : St unit :=
  store_prop l P_zIndexLocked value.

Definition set_zIndex := plain_setter P_zIndex 8.

(** [set parent(newParent)]; [newParent?.id] is undefined for a null
    [newParent], and [null === undefined] is false. *)
Definition set_parent (l : loc) (newParent : option loc) : St unit :=
  let* n := read l in
  let* newId :=
    match newParent with
    | Some ln => let* np := read ln in ret (Some (id (props np)))
    | None => ret None
    end in
  if match parentId n, newId with
     | Some a, Some b => a =? b
     | _, _ => false
     end
  then ret tt
  else
    when (id_truthy (parentId n))
      (let* o := tree_get (parentId n) in
       let* oldParent := assertTruthy o AssertionFailed in
       modify oldParent (fun op =>
         with_childrenIds
           (List.filter (fun i => negb (i =? id (props n))) (childrenIds op)) op) ;;
       setHasUpdates oldParent ;;
       setChildrenHasUpdates oldParent) ;;
    modify l (with_parentId newId) ;;
    match newParent with
    | Some ln =>
        modify ln (fun np => with_childrenIds (childrenIds np ++ [id (props n)]) np) ;;
        setHasUpdates ln ;;
        setChildrenHasUpdates ln
    | None => ret tt
    end ;;
    modify l (with_parentNode newParent) ;;
    setRecalculationType l 8.

(** The field initialisers of the class. *)
Definition initial_node (p : CoreNodeProps) : CoreNode :=
  {| props := p; recalculationType := 6; hasUpdates := false;
     globalTransform := None; scaleRotateTransform := None;
     localTransform := None; clippingRect := None;
     parentClippingRect := None; parentId := None; childrenIds := [];
     isComplex := false; updateMask := 0; children := [];
     parentNode := None |}.

(** [new CoreNode(stage, props)] *)
Definition new_CoreNode (p : CoreNodeProps) : St loc :=
  let* l := fresh in
  (fun w => Ok (tt, with_heap (<[l := initial_node p]> (heap w)) w)) ;;
  updateScaleRotateTransform l ;;
  tree_add l ;;
  ret l.

(** Reading and writing [node[propName]] for an animatable property. *)
Definition node_get (l : loc) (k : AnimProp) : St num :=
  let* n := read l in
  let p := nprop (props n) in
  ret match k with
      | A_x => p P_x | A_y => p P_y | A_width => p P_width
      | A_height => p P_height | A_alpha => p P_alpha
      | A_color => p P_color | A_colorTop => p P_colorTop
      | A_colorBottom => p P_colorBottom | A_colorLeft => p P_colorLeft
      | A_colorRight => p P_colorRight | A_colorTl => p P_colorTl
      | A_colorTr => p P_colorTr | A_colorBl => p P_colorBl
      | A_colorBr => p P_colorBr
      | A_scale => p P_scaleX | A_scaleX => p P_scaleX | A_scaleY => p P_scaleY
      | A_mount => p P_mount | A_mountX => p P_mountX | A_mountY => p P_mountY
      | A_pivot => p P_pivot | A_pivotX => p P_pivotX | A_pivotY => p P_pivotY
      | A_rotation => p P_rotation
      end.

Definition node_set (l : loc) (k : AnimProp) : num -> St unit :=
  match k with
  | A_x => set_x l | A_y => set_y l | A_width => set_width l
  | A_height => set_height l | A_alpha => set_alpha l
  | A_color => set_color l | A_colorTop => set_colorTop l
  | A_colorBottom => set_colorBottom l | A_colorLeft => set_colorLeft l
  | A_colorRight => set_colorRight l | A_colorTl => set_colorTl l
  | A_colorTr => set_colorTr l | A_colorBl => set_colorBl l
  | A_colorBr => set_colorBr l
  | A_scale => set_scale l | A_scaleX => set_scaleX l | A_scaleY => set_scaleY l
  | A_mount => set_mount l | A_mountX => set_mountX l | A_mountY => set_mountY l
  | A_pivot => set_pivot l | A_pivotX => set_pivotX l | A_pivotY => set_pivotY l
  | A_rotation => set_rotation l
  end.


(** ** CoreAnimation.ts *)

Inductive StopMethod := SM_reverse | SM_reset | SM_false.

(** [Partial<AnimationSettings>]: every field may be undefined. *)
Record AnimationSettings := {
  duration : option num;
  delay : option num;
  easing : option string;
  loop : option bool;
  repeat : option num;
  repeatDelay : option num;
  stopMethod : option StopMethod
}.

(** A [Partial<INodeAnimatableProps>] object: its keys in insertion order. *)
Definition PropObject : Type := list (AnimProp * num).

Fixpoint obj_get (k : AnimProp) (o : PropObject) : option num :=
  match o with
  | [] => None
  | (k', v) :: r => if decide (k = k') then Some v else obj_get k r
  end.

Fixpoint obj_set (k : AnimProp) (v : num) (o : PropObject) : PropObject :=
  match o with
  | [] => [(k, v)]
  | (k', v') :: r =>
      if decide (k = k') then (k, v) :: r else (k', v') :: obj_set k v r
  end.

Definition obj_keys (o : PropObject) : list AnimProp := map fst o.

(** The animation object; [emitted] records the events passed to [emit],
    oldest first. *)
Record CoreAnimation := {
  a_node : loc;
  a_props : PropObject;
  propStartValues : PropObject;
  restoreValues : PropObject;
  progress : num;
  timingFunction : num -> option num;
  propsList : list AnimProp;
  settings : AnimationSettings;
  emitted : list string
}.

Definition with_progress (v : num) (a : CoreAnimation) : CoreAnimation :=
  {| a_node := a_node a; a_props := a_props a;
     propStartValues := propStartValues a; restoreValues := restoreValues a;
     progress := v; timingFunction := timingFunction a;
     propsList := propsList a; settings := settings a; emitted := emitted a |}.

Definition with_values (p s : PropObject) (a : CoreAnimation) : CoreAnimation :=
  {| a_node := a_node a; a_props := p;
     propStartValues := s; restoreValues := restoreValues a;
     progress := progress a; timingFunction := timingFunction a;
     propsList := propsList a; settings := settings a; emitted := emitted a |}.

Definition with_stopMethod (v : option StopMethod) (a : CoreAnimation) : CoreAnimation :=
  {| a_node := a_node a; a_props := a_props a;
     propStartValues := propStartValues a; restoreValues := restoreValues a;
     progress := progress a; timingFunction := timingFunction a;
     propsList := propsList a;
     settings := {| duration := duration (settings a); delay := delay (settings a);
                    easing := easing (settings a); loop := loop (settings a);
                    repeat := repeat (settings a);
                    repeatDelay := repeatDelay (settings a); stopMethod := v |};
     emitted := emitted a |}.

Definition emit (e : string) (a : CoreAnimation) : CoreAnimation :=
  {| a_node := a_node a; a_props := a_props a;
     propStartValues := propStartValues a; restoreValues := restoreValues a;
     progress := progress a; timingFunction := timingFunction a;
     propsList := propsList a; settings := settings a;
     emitted := emitted a ++ [e] |}.

(** Truthiness of the optional settings. *)
Definition duration_truthy (s : AnimationSettings) : option num :=
  match duration s with
  | Some d => if truthy d then Some d else None
  | None => None
  end.

Definition loop_truthy (s : AnimationSettings) : bool :=
  match loop s with Some b => b | None => false end.

Definition easing_truthy (s : AnimationSettings) : option string :=
  match easing s with
  | Some e => if String.eqb e "" then None else Some e
  | None => None
  end.

(** [propName.indexOf('color') !== -1] *)
Definition is_color (k : AnimProp) : bool :=
  match k with
  | A_color | A_colorTop | A_colorBottom | A_colorLeft | A_colorRight
  | A_colorTl | A_colorTr | A_colorBl | A_colorBr => true
  | _ => false
  end.

(** [new CoreAnimation(node, props, settings)] *)
Definition new_CoreAnimation (node : loc) (p : PropObject) (s : AnimationSettings)
  : St CoreAnimation :=
  let* starts :=
    mapM (fun k => let* v := node_get node k in ret (k, v)) (obj_keys p) in
  ret {| a_node := node; a_props := p;
         propStartValues := fold_left (fun o e => obj_set (fst e) (snd e) o) starts [];
         restoreValues := []; progress := zero;
         timingFunction :=
           match easing_truthy s with
           | Some e => getTimingFunction e
           | None => fun t => Some t
           end;
         propsList := obj_keys p; settings := s; emitted := [] |}.

(** [this.timingFunction(p) || p] *)
Definition eased (a : CoreAnimation) (p : num) : num :=
  match timingFunction a p with
  | Some v => num_or v p
  | None => p
  end.

Definition applyEasing (a : CoreAnimation) (p s e : num) : num :=
  nadd (nmul (eased a p) (nsub e s)) s.

(** One turn of the loop over [propsList] in [update]. *)
Definition update_prop (a : CoreAnimation) (propName : AnimProp) : St unit :=
  let* endValue := assertTruthy (obj_get propName (a_props a)) UndefinedValue in
  let* startValue := assertTruthy (obj_get propName (propStartValues a)) UndefinedValue in
  if is_color propName then
    if strict_eq startValue endValue then node_set (a_node a) propName startValue
    else
      match easing_truthy (settings a) with
      | Some _ =>
          node_set (a_node a) propName
            (mergeColorProgress startValue endValue (eased a (progress a)))
      | None =>
          node_set (a_node a) propName
            (mergeColorProgress startValue endValue (progress a))
      end
  else
    match easing_truthy (settings a) with
    | Some _ =>
        node_set (a_node a) propName (applyEasing a (progress a) startValue endValue)
    | None =>
        node_set (a_node a) propName
          (nadd startValue (nmul (nsub endValue startValue) (progress a)))
    end.

Fixpoint forEach {A : Type} (f : A -> St unit) (l : list A) : St unit :=
  match l with
  | [] => ret tt
  | x :: r => f x ;; forEach f r
  end.

(** [update(dt)] *)
Definition anim_update (a : CoreAnimation) (dt : num) : St CoreAnimation :=
  match duration_truthy (settings a) with
  | None => ret (emit "finished" a)
  | Some d =>
      let a1 := with_progress (nadd (progress a) (ndiv dt d)) a in
      if nlt one (progress a1) then
        ret (emit "finished"
               (with_progress (if loop_truthy (settings a) then zero else one) a1))
      else
        forEach (update_prop a1) (propsList a1) ;;
        ret a1
  end.

(** [reset()] *)
Definition anim_reset (a : CoreAnimation) : St CoreAnimation :=
  anim_update (with_progress zero a) zero.

(** [restore()] *)
Definition anim_restore (a : CoreAnimation) : St CoreAnimation :=
  let* a1 := anim_reset a in
  forEach (fun propName =>
             let* v := assertTruthy (obj_get propName (propStartValues a1)) UndefinedValue in
             node_set (a_node a1) propName v)
          (obj_keys (a_props a1)) ;;
  ret a1.

(** One turn of the loop of [reverse]: swap the start and end values. *)
Definition swap_prop (a : CoreAnimation) (propName : AnimProp) : St CoreAnimation :=
  let* startValue := assertTruthy (obj_get propName (a_props a)) UndefinedValue in
  let* endValue := assertTruthy (obj_get propName (propStartValues a)) UndefinedValue in
  ret (with_values (obj_set propName endValue (a_props a))
                   (obj_set propName startValue (propStartValues a)) a).

Fixpoint foldM {A B : Type} (f : B -> A -> St B) (l : list A) (b : B) : St B :=
  match l with
  | [] => ret b
  | x :: r => let* b' := f b x in foldM f r b'
  end.

(** [reverse()] *)
Definition anim_reverse (a : CoreAnimation) : St CoreAnimation :=
  let a0 := with_progress zero a in
  let* a1 := foldM swap_prop (obj_keys (a_props a0)) a0 in
  if negb (loop_truthy (settings a1)) then ret (with_stopMethod (Some SM_false) a1)
  else ret a1.

End Engine.

(** The world after a program, or the world before it if it faults. *)
Definition run {JN : JsNumber} {LB : Lib} {A : Type} (m : St A) (w : World) : World :=
  match m w with
  | Ok (_, w') => w'
  | _ => w
  end.

(** The value a program returns, if it returns. *)
Definition value_of {JN : JsNumber} {LB : Lib} {A : Type} (m : St A) (w : World) : option A :=
  match m w with
  | Ok (a, _) => Some a
  | _ => None
  end.

(** ** A rational instance, used to run the engine on concrete scenes

    Numbers are rationals in lowest terms, so that equal numbers are equal
    terms; on the dyadic values of the scenes below the operations agree
    with IEEE double arithmetic. *)

Lemma Qeq_bool_self (a : Q) : negb (Qeq_bool a 0%Q) = true -> Qeq_bool a a = true.
Proof. intros _. apply Qeq_bool_iff. reflexivity. Qed.

Definition Q_JsNumber : JsNumber :=
  {| num := Q;
     zero := 0%Q;
     one := 1%Q;
     nadd := fun a b => Qred (a + b)%Q;
     nsub := fun a b => Qred (a - b)%Q;
     nmul := fun a b => Qred (a * b)%Q;
     ndiv := fun a b => Qred (a / b)%Q;
     nneg := fun a => Qred (- a)%Q;
     nlt := fun a b => negb (Qle_bool b a);
     strict_eq := Qeq_bool;
     truthy := fun a => negb (Qeq_bool a 0%Q);
     strict_eq_zero := eq_refl;
     truthy_strict_eq := Qeq_bool_self |}.

(** Modelled from the spec: Matrix3d (lib/Matrix3d.ts is not among the
    sources), a 2D affine transform supporting translate/scale/rotate
    composition, with the coefficients named as CoreNode reads them. *)
Record Affine := {
  af_ta : Q; af_tb : Q; af_tx : Q;
  af_tc : Q; af_td : Q; af_ty : Q
}.

(** Truncated series standing in for cosine and sine, exact at 0. *)
Definition cos_series (a : Q) : Q := Qred (1 - a * a / 2 + a * a * a * a / 24)%Q.
Definition sin_series (a : Q) : Q := Qred (a - a * a * a / 6 + a * a * a * a * a / 120)%Q.

Definition affine_translate (x y : Q) : Affine :=
  {| af_ta := 1; af_tb := 0; af_tx := x; af_tc := 0; af_td := 1; af_ty := y |}.

Definition affine_rotate (a : Q) : Affine :=
  {| af_ta := cos_series a; af_tb := Qred (- sin_series a)%Q; af_tx := 0;
     af_tc := sin_series a; af_td := cos_series a; af_ty := 0 |}.

Definition affine_multiply (a b : Affine) : Affine :=
  {| af_ta := Qred (af_ta a * af_ta b + af_tb a * af_tc b)%Q;
     af_tb := Qred (af_ta a * af_tb b + af_tb a * af_td b)%Q;
     af_tx := Qred (af_ta a * af_tx b + af_tb a * af_ty b + af_tx a)%Q;
     af_tc := Qred (af_tc a * af_ta b + af_td a * af_tc b)%Q;
     af_td := Qred (af_tc a * af_tb b + af_td a * af_td b)%Q;
     af_ty := Qred (af_tc a * af_tx b + af_td a * af_ty b + af_ty a)%Q |}.

Definition affine_scale (m : Affine) (sx sy : Q) : Affine :=
  {| af_ta := Qred (af_ta m * sx)%Q; af_tb := Qred (af_tb m * sy)%Q; af_tx := af_tx m;
     af_tc := Qred (af_tc m * sx)%Q; af_td := Qred (af_td m * sy)%Q; af_ty := af_ty m |}.

Definition affine_translate_by (m : Affine) (x y : Q) : Affine :=
  {| af_ta := af_ta m; af_tb := af_tb m;
     af_tx := Qred (af_ta m * x + af_tb m * y + af_tx m)%Q;
     af_tc := af_tc m; af_td := af_td m;
     af_ty := Qred (af_tc m * x + af_td m * y + af_ty m)%Q |}.

Definition Qmax (a b : Q) : Q := if Qle_bool a b then b else a.
Definition Qmin (a b : Q) : Q := if Qle_bool a b then a else b.

(** Modelled from the spec: intersectRect (lib/utils.ts is not among the
    sources), the intersection of two axis-aligned rectangles. *)
Definition intersect_rationals (a b : Q * Q * Q * Q) : Q * Q * Q * Q :=
  let '(ax, ay, aw, ah) := a in
  let '(bx, by', bw, bh) := b in
  let x := Qmax ax bx in
  let y := Qmax ay by' in
  let w := Qred (Qmin (ax + aw) (bx + bw) - x)%Q in
  let h := Qred (Qmin (ay + ah) (by' + bh) - y)%Q in
  if negb (Qle_bool w 0) && negb (Qle_bool h 0) then (x, y, w, h)
  else (0%Q, 0%Q, 0%Q, 0%Q).

(** Modelled from the spec: mergeColorProgress (utils.ts is not among the
    sources); the four 8-bit components of the packed colours are
    interpolated separately and rounded down. *)
Definition merge_channel (c1 c2 : Z) (p : Q) : Z :=
  Qfloor (inject_Z c1 + (inject_Z c2 - inject_Z c1) * p)%Q.

Definition merge_colors (c1 c2 p : Q) : Q :=
  let a := Qfloor c1 in
  let b := Qfloor c2 in
  let ch (s : Z) := merge_channel (Z.land (Z.shiftr a s) 255) (Z.land (Z.shiftr b s) 255) p in
  inject_Z (Z.lor (Z.lor (Z.shiftl (ch 24) 24) (Z.shiftl (ch 16) 16))
                  (Z.lor (Z.shiftl (ch 8) 8) (ch 0))).

(** Modelled from the spec: getTimingFunction (core/utils.ts is not among
    the sources), an easing function maps the elapsed fraction to the eased
    fraction; only the piecewise-constant and linear easings are given. *)
Definition timing_by_name (name : string) (t : Q) : option Q :=
  if String.eqb name "step-start" then Some 1%Q
  else if String.eqb name "step-end" then Some (if Qle_bool 1 t then 1%Q else 0%Q)
  else Some t.

Definition Q_Lib : @Lib Q_JsNumber :=
  @Build_Lib Q_JsNumber Affine
    affine_translate affine_rotate affine_multiply affine_scale affine_translate_by
    af_tx af_ty af_ta af_tb af_tc af_td
    intersect_rationals merge_colors timing_by_name
    unit unit unit unit.

(** *** Scenes *)

Section Scenes.
#[local] Existing Instance Q_JsNumber.
#[local] Existing Instance Q_Lib.

(** The defaults of a node: unit scale and alpha, everything else 0. *)
Definition default_props (i : Z) : CoreNodeProps :=
  {| id := i;
     nprop := fun k =>
       match k with
       | P_alpha | P_scaleX | P_scaleY => 1%Q
       | _ => 0%Q
       end;
     clipping := false; texture := None; textureOptions := None;
     shader := None; shaderProps := None |}.

Definition empty_world : World :=
  {| heap := ∅; _tree := []; _dirtyNodes := []; next_loc := 1%positive |}.

(** The node object at [l]. *)
Definition node_at (w : World) (l : loc) : CoreNode :=
  default (initial_node (default_props 0)) (heap w !! l).

(** Two nodes with ids 1 and 2 (objects 1 and 2), node 2 a child of node 1;
    one frame has passed: each was updated, parent first, and the dirty set
    was cleared. *)
Definition scene_parent_child : World :=
  run (let* a := new_CoreNode (default_props 1) in
       let* b := new_CoreNode (default_props 2) in
       set_parent b (Some a) ;;
       update 8 a None ;;
       update 8 b None ;;
       tree_clearDirtyNodes) empty_world.

(** The same with a third node, id 3 (object 3), that has no parent. *)
Definition scene_three : World :=
  run (let* c := new_CoreNode (default_props 3) in
       update 8 c None ;;
       tree_clearDirtyNodes) scene_parent_child.

(** The scene of two nodes with the parent made transparent and the child
    half transparent. *)
Definition scene_alpha : World :=
  run (set_alpha 1%positive 0%Q ;; set_alpha 2%positive (1 # 2)%Q) scene_parent_child.

(** An animation of [x] to 100 over a duration of 4, without easing and
    without loop, as the constructor builds it for node 2 of the scene of two
    nodes, whose [x] is 0. *)
Definition settings_of (d : option Q) : AnimationSettings :=
  {| duration := d; delay := None; easing := None; loop := None;
     repeat := None; repeatDelay := None; stopMethod := None |}.

Definition animation_x (d : option Q) : CoreAnimation :=
  {| a_node := 2%positive; a_props := [(A_x, 100%Q)];
     propStartValues := [(A_x, 0%Q)]; restoreValues := [];
     progress := 0%Q; timingFunction := fun t => Some t;
     propsList := [A_x]; settings := settings_of d; emitted := [] |}.

(** The same animation with [loop] set. *)
Definition animation_x_looping (d : option Q) : CoreAnimation :=
  {| a_node := 2%positive; a_props := [(A_x, 100%Q)];
     propStartValues := [(A_x, 0%Q)]; restoreValues := [];
     progress := 0%Q; timingFunction := fun t => Some t;
     propsList := [A_x];
     settings :=
       {| duration := d; delay := None; easing := None; loop := Some true;
          repeat := None; repeatDelay := None; stopMethod := None |};
     emitted := [] |}.

(** The animation of duration 4 once its run has completed: its progress is 1
    and it has emitted "finished" once. *)
Definition animation_x_completed : CoreAnimation :=
  {| a_node := 2%positive; a_props := [(A_x, 100%Q)];
     propStartValues := [(A_x, 0%Q)]; restoreValues := [];
     progress := 1%Q; timingFunction := fun t => Some t;
     propsList := [A_x]; settings := settings_of (Some 4%Q);
     emitted := ["finished"] |}.

(** The animation runs to completion in two steps of 3, is reversed, and
    runs to completion again in two steps of 3. *)
Definition round_trip : St CoreAnimation :=
  let* a := new_CoreAnimation 2%positive [(A_x, 100%Q)] (settings_of (Some 4%Q)) in
  let* a := anim_update a 3%Q in
  let* a := anim_update a 3%Q in
  let* a := anim_reverse a in
  let* a := anim_update a 3%Q in
  anim_update a 3%Q.

(** The rotation of node 2 is set to 1 and the node is updated. *)
Definition scene_rotated : World :=
  run (set_rotation 2%positive 1%Q ;; update 8 2%positive None) scene_parent_child.

(** Node 1 gets zIndex 5 and locks the zIndex of its children, node 2 gets
    zIndex 9. *)
Definition scene_locked : World :=
  run (set_zIndex 1%positive 5%Q ;; set_zIndexLocked 1%positive 1%Q ;;
       set_zIndex 2%positive 9%Q) scene_parent_child.

(** The horizontal scale of node 2 is set to 2 and the node is updated. *)
Definition scene_scaled : World :=
  run (set_scaleX 2%positive 2%Q ;; update 8 2%positive None) scene_parent_child.

(** Node 1 is moved to x = 10 and updated; then node 2 is moved to x = 5
    and waits for its update. *)
Definition scene_nested : World :=
  run (set_x 1%positive 10%Q ;; update 8 1%positive None ;; set_x 2%positive 5%Q)
      scene_parent_child.

(** Node 1 is rescaled, which marks its children as stale, and then loses
    its only child. *)
Definition scene_orphaned : World :=
  run (set_scaleX 1%positive 2%Q ;; set_parent 2%positive None) scene_parent_child.

(** Node 1 is rescaled, and its child is removed from the registry without
    being detached. *)
Definition scene_removed : World :=
  run (set_scaleX 1%positive 2%Q ;; tree_remove 2) scene_parent_child.

(** Node 2 gets the size 30 by 20 and is made clipping. *)
Definition scene_clipping : World :=
  run (set_width 2%positive 30%Q ;; set_height 2%positive 20%Q ;;
       set_clipping 2%positive true) scene_parent_child.

(** The clipping node 2 is updated, which gives it its rectangle, and then
    moved to x = 5. *)
Definition scene_clipped : World :=
  run (update 8 2%positive None ;; set_x 2%positive 5%Q) scene_clipping.

(** Node 3 of the scene of three becomes the second child of node 1, and
    node 1 is updated. *)
Definition scene_siblings : World :=
  run (set_parent 3%positive (Some 1%positive) ;; update 8 1%positive None) scene_three.

(** In the scene of the two siblings node 2 gets zIndex 5: the children of
    node 1, nodes 2 and 3 in this order, are out of order. *)
Definition scene_stacked : World :=
  run (set_zIndex 2%positive 5%Q) scene_siblings.

(** Two more nodes, with the ids 7 and 4, constructed in this order. *)
Definition scene_unsorted : World :=
  run (new_CoreNode (default_props 7) ;; new_CoreNode (default_props 4) ;; ret tt)
      scene_parent_child.

(** A clipping rectangle handed down by a parent. *)
Definition parent_rect : Rect :=
  {| rect_ref := 100%positive; rect_x := 0%Q; rect_y := 0%Q;
     rect_width := 50%Q; rect_height := 50%Q |}.

End Scenes.

(** * Properties *)

Section Properties.
Context {JN : JsNumber} {LB : Lib}.

(** ** The monad *)

Lemma bind_Ok {A B : Type} (m : St A) (k : A -> St B) (w w' : World) (a : A) :
  m w = Ok (a, w') -> bind m k w = k a w'.
Proof. intros E. unfold bind. now rewrite E. Qed.

Lemma bind_inv {A B : Type} (m : St A) (k : A -> St B) (w : World) (r : B * World) :
  bind m k w = Ok r -> exists a w', m w = Ok (a, w') /\ k a w' = Ok r.
Proof.
  unfold bind. destruct (m w) as [[a w']| |]; try discriminate.
  intros E. now exists a, w'.
Qed.

Lemma run_Ok {A : Type} (m : St A) (w w' : World) (a : A) :
  m w = Ok (a, w') -> run m w = w'.
Proof. intros E. unfold run. now rewrite E. Qed.

Lemma value_of_Ok {A : Type} (m : St A) (w w' : World) (a : A) :
  m w = Ok (a, w') -> value_of m w = Some a.
Proof. intros E. unfold value_of. now rewrite E. Qed.

Lemma lookup_unique (w : World) (l : loc) (a b : CoreNode) :
  heap w !! l = Some a -> heap w !! l = Some b -> a = b.
Proof. congruence. Qed.

Lemma read_inv (l : loc) (w w' : World) (n : CoreNode) :
  read l w = Ok (n, w') -> heap w !! l = Some n /\ w' = w.
Proof.
  unfold read. destruct (heap w !! l); try discriminate.
  now intros [= <- <-].
Qed.

(** ** Running the primitives

    [put] and [put_dirty] name the worlds the node methods produce. *)

Definition put (l : loc) (n : CoreNode) (w : World) : World :=
  with_heap (<[l := n]> (heap w)) w.

Lemma heap_put l n w : heap (put l n w) !! l = Some n.
Proof. unfold put. cbn. apply lookup_insert_eq. Qed.

Lemma heap_put_ne l l' n w : l <> l' -> heap (put l n w) !! l' = heap w !! l'.
Proof. intros. unfold put. cbn. now apply lookup_insert_ne. Qed.

Lemma put_put l n n' w : put l n' (put l n w) = put l n' w.
Proof. unfold put, with_heap. cbn. now rewrite insert_insert_eq. Qed.

Lemma modify_run l f n w : heap w !! l = Some n -> modify l f w = Ok (tt, put l (f n) w).
Proof. intros E. unfold modify. now rewrite E. Qed.

Lemma read_run l n w : heap w !! l = Some n -> read l w = Ok (n, w).
Proof. intros E. unfold read. now rewrite E. Qed.

(** The world in which the node at [l] is replaced by [n'] and registered
    as dirty under the id [i]. *)
Definition put_dirty (l : loc) (i : Z) (n' : CoreNode) (w : World) : World :=
  {| heap := <[l := n']> (heap w); _tree := _tree w;
     _dirtyNodes := map_set i l (_dirtyNodes w);
     next_loc := next_loc w |}.

Lemma markDirty_run l n w : heap w !! l = Some n ->
  tree_markDirty l w = Ok (tt, with_dirtyNodes (map_set (id (props n)) l (_dirtyNodes w)) w).
Proof. intros E. unfold tree_markDirty, bind. now rewrite (read_run _ _ _ E). Qed.

Lemma setHasUpdates_run l n w : heap w !! l = Some n ->
  setHasUpdates l w = Ok (tt, put_dirty l (id (props n)) (with_hasUpdates true n) w).
Proof.
  intros E. unfold setHasUpdates.
  rewrite (bind_Ok _ _ _ _ _ (modify_run _ _ _ _ E)).
  rewrite (markDirty_run l (with_hasUpdates true n)) by apply heap_put.
  reflexivity.
Qed.

Definition children_flag (n : CoreNode) : CoreNode :=
  if Nat.eqb (length (childrenIds n)) 0 then n
  else with_updateMask (Z.lor (updateMask n) 1) n.

Definition parent_flag (n : CoreNode) : CoreNode :=
  if negb (id_truthy (parentId n)) then n
  else with_updateMask (Z.lor (updateMask n) 2) n.

Lemma put_same l n w : heap w !! l = Some n -> put l n w = w.
Proof. intros E. unfold put, with_heap. rewrite insert_id by exact E. now destruct w. Qed.

Lemma setChildrenHasUpdates_run l n w : heap w !! l = Some n ->
  setChildrenHasUpdates l w = Ok (tt, put l (children_flag n) w).
Proof.
  intros E. unfold setChildrenHasUpdates, children_flag.
  rewrite (bind_Ok _ _ _ _ _ (read_run _ _ _ E)).
  destruct (Nat.eqb _ _).
  - unfold ret. now rewrite put_same.
  - now rewrite (modify_run _ _ _ _ E).
Qed.

Lemma setParentHasUpdates_run l n w : heap w !! l = Some n ->
  setParentHasUpdates l w = Ok (tt, put l (parent_flag n) w).
Proof.
  intros E. unfold setParentHasUpdates, parent_flag.
  rewrite (bind_Ok _ _ _ _ _ (read_run _ _ _ E)).
  destruct (negb _).
  - unfold ret. now rewrite put_same.
  - now rewrite (modify_run _ _ _ _ E).
Qed.

Definition flagged (type : Z) (n : CoreNode) : CoreNode :=
  let n1 := with_hasUpdates true
              (with_recalculationType (Z.lor (recalculationType n) type) n) in
  let n2 := if has_bit type 1 then parent_flag n1 else n1 in
  if has_bit type 4 then children_flag n2 else n2.

Lemma put_put_dirty l i n n' w : put l n' (put_dirty l i n w) = put_dirty l i n' w.
Proof. unfold put, put_dirty, with_heap. cbn. now rewrite insert_insert_eq. Qed.

Lemma put_dirty_put l i n n' w : put_dirty l i n' (put l n w) = put_dirty l i n' w.
Proof. unfold put, put_dirty, with_heap. cbn. now rewrite insert_insert_eq. Qed.

Lemma heap_put_dirty l i n w : heap (put_dirty l i n w) !! l = Some n.
Proof. cbn. apply lookup_insert_eq. Qed.

Lemma setRecalculationType_run l type n w : heap w !! l = Some n ->
  setRecalculationType l type w = Ok (tt, put_dirty l (id (props n)) (flagged type n) w).
Proof.
  intros E. unfold setRecalculationType.
  rewrite (bind_Ok _ _ _ _ _ (modify_run _ _ _ _ E)).
  rewrite (bind_Ok _ _ _ _ _ (setHasUpdates_run _ _ _ (heap_put _ _ _))).
  rewrite put_dirty_put. cbn [id props with_recalculationType].
  unfold flagged. cbv zeta.
  set (n1 := with_hasUpdates true _).
  unfold when.
  destruct (has_bit type 1).
  - rewrite (bind_Ok _ _ _ _ _ (setParentHasUpdates_run _ _ _ (heap_put_dirty _ _ _ _))).
    rewrite put_put_dirty.
    destruct (has_bit type 4).
    + rewrite (setChildrenHasUpdates_run _ _ _ (heap_put_dirty _ _ _ _)).
      now rewrite put_put_dirty.
    + reflexivity.
  - unfold bind at 1. unfold ret at 1.
    destruct (has_bit type 4).
    + rewrite (setChildrenHasUpdates_run _ _ _ (heap_put_dirty _ _ _ _)).
      now rewrite put_put_dirty.
    + reflexivity.
Qed.

(** ** Tree.getNodes *)

(** The reading of the specification: the nodes of the ids that resolve, in
    the order of the list, the other ids dropped. *)
Definition resolveChildren_spec (w : World) (ids : list Z) : list loc :=
  omap (fun i => map_get i (_tree w)) ids.

Lemma tree_get_registered (w : World) (k : Z) (l : loc) :
  map_get k (_tree w) = Some l -> tree_get (Some k) w = Ok (Some l, w).
Proof. intros E. unfold tree_get, bind. simpl. now rewrite E. Qed.

Lemma tree_get_unregistered (w : World) (k : Z) :
  map_get k (_tree w) = None -> tree_get (Some k) w = Fault (NodeNotFound k).
Proof. intros E. unfold tree_get, bind. simpl. now rewrite E. Qed.

Lemma mapM_tree_get_registered (w : World) (ids : list Z) (ls : list loc) :
  Forall2 (fun i l => map_get i (_tree w) = Some l) ids ls ->
  mapM (fun k => tree_get (Some k)) ids w = Ok (map Some ls, w).
Proof.
  induction 1 as [|i l ids ls Hi _ IH]; cbn [mapM map]; [reflexivity|].
  rewrite (bind_Ok _ _ _ _ _ (tree_get_registered _ _ _ Hi)).
  now rewrite (bind_Ok _ _ _ _ _ IH).
Qed.

Lemma mapM_tree_get_unregistered (w : World) (pre post : list Z) (k : Z) (ls : list loc) :
  Forall2 (fun i l => map_get i (_tree w) = Some l) pre ls ->
  map_get k (_tree w) = None ->
  mapM (fun k => tree_get (Some k)) (pre ++ k :: post) w = Fault (NodeNotFound k).
Proof.
  induction 1 as [|i l ids ls Hi _ IH]; intros Hk; cbn [mapM app].
  - unfold bind at 1. now rewrite (tree_get_unregistered _ _ Hk).
  - rewrite (bind_Ok _ _ _ _ _ (tree_get_registered _ _ _ Hi)).
    unfold bind at 1. now rewrite (IH Hk).
Qed.

Lemma omap_Some {A : Type} (ls : list A) : omap (fun o : option A => o) (map Some ls) = ls.
Proof. induction ls as [|a ls IH]; [reflexivity|]. cbn. f_equal. exact IH. Qed.

(** C4 (as amended). On a non-empty list of registered ids, tree.getNodes
    returns their nodes in the order of the list and leaves the registry as it
    is; an id of a non-empty list that is not registered makes the call fault
    with "Node <id> not found" rather than being dropped; on an empty or
    undefined list the call returns every registered node in registration
    order. *)
Theorem getNodes_resolves (w : World) :
  (forall ids ls,
      ids <> [] ->
      Forall2 (fun i l => map_get i (_tree w) = Some l) ids ls ->
      tree_getNodes (Some ids) w = Ok (ls, w)) /\
  (forall pre k post ls,
      Forall2 (fun i l => map_get i (_tree w) = Some l) pre ls ->
      map_get k (_tree w) = None ->
      tree_getNodes (Some (pre ++ k :: post)) w = Fault (NodeNotFound k)) /\
  tree_getNodes (Some []) w = Ok (map_values (_tree w), w) /\
  tree_getNodes None w = Ok (map_values (_tree w), w).
Proof.
  repeat split.
  - intros ids ls Hne Hall. destruct ids as [|i r]; [congruence|].
    unfold tree_getNodes.
    rewrite (bind_Ok _ _ _ _ _ (mapM_tree_get_registered _ _ _ Hall)).
    unfold ret. now rewrite omap_Some.
  - intros pre k post ls Hpre Hk.
    pose proof (mapM_tree_get_unregistered w pre post k ls Hpre Hk) as E.
    unfold tree_getNodes. destruct (pre ++ k :: post) as [|i r] eqn:El.
    + destruct pre; discriminate.
    + unfold bind. now rewrite E.
Qed.

(** ** Frames: what a step leaves as it is *)

(** [keeps proj w w']: every node of [w'] has the [proj] it had in [w], and
    the two heaps hold the same objects. *)
Definition keeps {X : Type} (proj : CoreNode -> X) (w w' : World) : Prop :=
  forall l, proj <$> heap w' !! l = proj <$> heap w !! l.

Lemma keeps_refl {X : Type} (proj : CoreNode -> X) w : keeps proj w w.
Proof. intros l. reflexivity. Qed.

Lemma keeps_trans {X : Type} (proj : CoreNode -> X) w1 w2 w3 :
  keeps proj w1 w2 -> keeps proj w2 w3 -> keeps proj w1 w3.
Proof. intros H1 H2 l. now rewrite H2, H1. Qed.

Lemma keeps_lookup {X : Type} (proj : CoreNode -> X) w w' l n :
  keeps proj w w' -> heap w !! l = Some n ->
  exists n', heap w' !! l = Some n' /\ proj n' = proj n.
Proof.
  intros K E. specialize (K l). rewrite E in K.
  destruct (heap w' !! l) as [n'|]; [|discriminate].
  exists n'. split; [reflexivity|]. now injection K.
Qed.

Lemma keeps_put {X : Type} (proj : CoreNode -> X) w l n n' :
  heap w !! l = Some n -> proj n' = proj n -> keeps proj w (put l n' w).
Proof.
  intros E P l'. destruct (decide (l = l')) as [<-|Hne].
  - rewrite heap_put, E. cbn. now rewrite P.
  - now rewrite heap_put_ne.
Qed.

Lemma keeps_put_dirty {X : Type} (proj : CoreNode -> X) w l i n n' :
  heap w !! l = Some n -> proj n' = proj n -> keeps proj w (put_dirty l i n' w).
Proof. intros E P. exact (keeps_put proj w l n n' E P). Qed.

Lemma proj_children_flag {X : Type} (proj : CoreNode -> X) n :
  (forall m k, proj (with_updateMask m k) = proj k) -> proj (children_flag n) = proj n.
Proof. intros H. unfold children_flag. destruct (Nat.eqb _ _); [reflexivity|apply H]. Qed.

Lemma proj_parent_flag {X : Type} (proj : CoreNode -> X) n :
  (forall m k, proj (with_updateMask m k) = proj k) -> proj (parent_flag n) = proj n.
Proof. intros H. unfold parent_flag. destruct (negb _); [reflexivity|apply H]. Qed.

Lemma proj_flagged {X : Type} (proj : CoreNode -> X) type n :
  (forall m k, proj (with_updateMask m k) = proj k) ->
  (forall m k, proj (with_recalculationType m k) = proj k) ->
  (forall m k, proj (with_hasUpdates m k) = proj k) ->
  proj (flagged type n) = proj n.
Proof.
  intros H1 H2 H3. unfold flagged. cbv zeta.
  destruct (has_bit type 4), (has_bit type 1);
    rewrite ?proj_children_flag, ?proj_parent_flag, ?H3, ?H2 by assumption; reflexivity.
Qed.

(** ** The parent setter *)

Lemma bind_bind {A B C : Type} (m : St A) (f : A -> St B) (k : B -> St C) (w : World) :
  bind (bind m f) k w = bind m (fun a => bind (f a) k) w.
Proof. unfold bind. destruct (m w) as [[a w']| |]; reflexivity. Qed.

Lemma ret_bind {A B : Type} (a : A) (k : A -> St B) (w : World) :
  bind (ret a) k w = k a w.
Proof. reflexivity. Qed.

Ltac norm := repeat (rewrite bind_bind || rewrite ret_bind).
Tactic Notation "step" uconstr(E) := norm; rewrite (bind_Ok _ _ _ _ _ E); norm.
Tactic Notation "norm_in" hyp(H) :=
  repeat (rewrite bind_bind in H || rewrite ret_bind in H).

Lemma filter_not_In (i : Z) (l : list Z) :
  ~ In i (List.filter (fun j => negb (j =? i)) l).
Proof.
  intros H. apply filter_In in H as [_ H]. now rewrite Z.eqb_refl in H.
Qed.

(** C5. Assigning [node.parent = newParent], where the node has a parent
    with a non-zero id that is registered under that id and [newParent] is a
    node with another id, succeeds, and in the resulting world the old
    parent's [childrenIds] no longer holds the node's id while the new
    parent's [childrenIds] is its former list with the node's id appended:
    one call of the setter does both. *)
Theorem set_parent_moves_child (w : World) (l lo ln : loc) (n o np : CoreNode) (pid : Z) :
  heap w !! l = Some n ->
  parentId n = Some pid ->
  pid <> 0 ->
  map_get pid (_tree w) = Some lo ->
  heap w !! lo = Some o ->
  id (props o) = pid ->
  heap w !! ln = Some np ->
  id (props np) <> pid ->
  exists w' o' np',
    set_parent l (Some ln) w = Ok (tt, w') /\
    heap w' !! lo = Some o' /\
    heap w' !! ln = Some np' /\
    ~ In (id (props n)) (childrenIds o') /\
    childrenIds np' = childrenIds np ++ [id (props n)].
Proof.
  intros El Hpid Hnz Hreg Eo Hoid En Hne.
  assert (Hlo : ln <> lo) by (intros ->; congruence).
  unfold set_parent.
  step (read_run _ _ _ El).
  step (read_run _ _ _ En).
  rewrite Hpid.
  destruct (pid =? id (props np)) eqn:Ecmp; [apply Z.eqb_eq in Ecmp; congruence|].
  unfold id_truthy, when.
  destruct (pid =? 0) eqn:Ez; [apply Z.eqb_eq in Ez; congruence|]. cbn [negb].
  (* the old parent loses the id *)
  step (tree_get_registered _ _ _ Hreg).
  cbn [assertTruthy]. norm.
  step (modify_run _ _ _ _ Eo).
  set (o1 := with_childrenIds _ o).
  set (w1 := put lo o1 w).
  assert (K1 : keeps (fun _ : CoreNode => tt) w w1) by (apply (keeps_put _ _ _ _ _ Eo); reflexivity).
  step (setHasUpdates_run lo o1 w1 (heap_put lo o1 w)).
  set (w2 := put_dirty _ _ _ w1).
  step (setChildrenHasUpdates_run lo _ w2 (heap_put_dirty _ _ _ _)).
  set (w3 := put _ _ w2).
  assert (C3 : childrenIds <$> heap w3 !! lo = Some (childrenIds o1)).
  { subst w3. rewrite heap_put. cbn. f_equal.
    now rewrite (proj_children_flag childrenIds) by reflexivity. }
  assert (N3 : forall l', l' <> lo -> heap w3 !! l' = heap w !! l').
  { intros l' H. subst w3 w2 w1. rewrite heap_put_ne by congruence.
    cbn. rewrite !lookup_insert_ne by congruence. reflexivity. }
  (* the node takes the new parent id *)
  assert (exists n3, heap w3 !! l = Some n3) as [n3 E3].
  { destruct (decide (l = lo)) as [->|H]; [|rewrite (N3 _ H); eauto].
    destruct (heap w3 !! lo); [eauto|discriminate]. }
  step (modify_run _ _ _ _ E3).
  set (w4 := put l _ w3).
  assert (K4 : keeps childrenIds w3 w4) by (apply (keeps_put _ _ _ _ _ E3); reflexivity).
  (* the new parent gains it *)
  destruct (keeps_lookup _ _ _ ln np K4) as (np4 & E4 & C4).
  { rewrite N3 by exact Hlo. exact En. }
  step (modify_run _ _ _ _ E4).
  set (np5 := with_childrenIds _ np4).
  set (w5 := put ln np5 w4).
  step (setHasUpdates_run ln np5 w5 (heap_put ln np5 w4)).
  set (w6 := put_dirty _ _ _ w5).
  step (setChildrenHasUpdates_run ln _ w6 (heap_put_dirty _ _ _ _)).
  set (w7 := put _ _ w6).
  assert (C7 : childrenIds <$> heap w7 !! ln = Some (childrenIds np ++ [id (props n)])).
  { subst w7. rewrite heap_put. cbn. f_equal.
    rewrite (proj_children_flag childrenIds) by reflexivity. cbn. now rewrite C4. }
  assert (N7 : forall l', l' <> ln -> heap w7 !! l' = heap w4 !! l').
  { intros l' H. subst w7 w6 w5. rewrite heap_put_ne by congruence.
    cbn. rewrite !lookup_insert_ne by congruence. reflexivity. }
  (* the node is flagged *)
  assert (exists n7, heap w7 !! l = Some n7) as [n7 E7].
  { destruct (decide (l = ln)) as [->|H].
    - destruct (heap w7 !! ln); [eauto|discriminate].
    - rewrite (N7 _ H). subst w4. rewrite heap_put. eauto. }
  step (modify_run _ _ _ _ E7).
  set (w8 := put l _ w7).
  assert (K8 : keeps childrenIds w7 w8) by (apply (keeps_put _ _ _ _ _ E7); reflexivity).
  rewrite (setRecalculationType_run l 8 _ w8 (heap_put _ _ _)).
  set (w9 := put_dirty _ _ _ w8).
  assert (K9 : keeps childrenIds w8 w9).
  { apply (keeps_put_dirty _ _ _ _ _ _ (heap_put _ _ _)).
    apply (proj_flagged childrenIds); reflexivity. }
  pose proof (keeps_trans _ _ _ _ K8 K9) as K79.
  assert (Co : childrenIds <$> heap w9 !! lo = Some (childrenIds o1)).
  { rewrite K79, (N7 _ (not_eq_sym Hlo)), K4. exact C3. }
  assert (Cn : childrenIds <$> heap w9 !! ln = Some (childrenIds np ++ [id (props n)])).
  { rewrite K79. exact C7. }
  destruct (heap w9 !! lo) as [o'|] eqn:Eo'; [|discriminate].
  destruct (heap w9 !! ln) as [np'|] eqn:En'; [|discriminate].
  exists w9, o', np'. repeat split; try assumption.
  - injection Co as ->. subst o1. cbn. apply filter_not_In.
  - now injection Cn.
Qed.

(** ** Property setters *)

Lemma land_lor_same (a t : Z) : Z.land (Z.lor a t) t = t.
Proof.
  apply Z.bits_inj'. intros i _.
  rewrite Z.land_spec, Z.lor_spec.
  destruct (Z.testbit a i), (Z.testbit t i); reflexivity.
Qed.

Lemma has_bit_lor (a t : Z) : t <> 0 -> has_bit (Z.lor a t) t = true.
Proof.
  intros H. unfold has_bit. rewrite land_lor_same.
  now destruct (Z.eqb_spec t 0).
Qed.

Lemma map_get_set {V : Type} (k : Z) (v : V) (m : list (Z * V)) :
  map_get k (map_set k v m) = Some v.
Proof.
  induction m as [|[k' v'] m IH]; cbn.
  - now rewrite Z.eqb_refl.
  - destruct (k =? k') eqn:E; cbn; [now rewrite Z.eqb_refl|now rewrite E].
Qed.

Lemma guarded_setter_equal (k : NumProp) (type : Z) (w : World) (l : loc)
      (n : CoreNode) (v : num) :
  heap w !! l = Some n ->
  strict_eq (nprop (props n) k) v = true ->
  guarded_setter k type l v w = Ok (tt, w).
Proof.
  intros E H. unfold guarded_setter.
  rewrite (bind_Ok _ _ _ _ _ (read_run _ _ _ E)). now rewrite H.
Qed.

Lemma flagged_fields (type : Z) (n : CoreNode) :
  hasUpdates (flagged type n) = true /\
  recalculationType (flagged type n) = Z.lor (recalculationType n) type /\
  props (flagged type n) = props n.
Proof.
  unfold flagged, children_flag, parent_flag. cbv zeta.
  destruct (has_bit type 4), (has_bit type 1); cbn;
    repeat match goal with |- context [if ?b then _ else _] => destruct b; cbn end;
    auto.
Qed.

(** [marked_with l type n w' P]: in [w'] the object [l] is a node that
    satisfies [P], whose recalculation type is that of [n] with the bits of
    [type] added, pending bits kept, that has [hasUpdates] set and that is in
    the dirty set under the id of [n]. *)
Definition marked_with (l : loc) (type : Z) (n : CoreNode) (w' : World)
           (P : CoreNode -> Prop) : Prop :=
  exists n', heap w' !! l = Some n' /\ P n' /\
             recalculationType n' = Z.lor (recalculationType n) type /\
             hasUpdates n' = true /\
             map_get (id (props n)) (_dirtyNodes w') = Some l.

(** [assigned l k type v n w']: the node at [l] holds [v] in its property
    [k], has every other numeric property as [n] had it, and is marked. *)
Definition assigned (l : loc) (k : NumProp) (type : Z) (v : num) (n : CoreNode)
           (w' : World) : Prop :=
  marked_with l type n w'
    (fun n' => nprop (props n') k = v /\
               forall k', k' <> k -> nprop (props n') k' = nprop (props n) k').

Lemma nprop_with_nprop (k : NumProp) (v : num) (p : CoreNodeProps) :
  nprop (with_nprop k v p) k = v.
Proof. cbn. now destruct (decide (k = k)). Qed.

Lemma nprop_with_nprop_ne (k k' : NumProp) (v : num) (p : CoreNodeProps) :
  k' <> k -> nprop (with_nprop k v p) k' = nprop p k'.
Proof. intros H. cbn. now destruct (decide (k' = k)). Qed.

Lemma plain_setter_assigned (k : NumProp) (type : Z) (w : World) (l : loc)
      (n : CoreNode) (v : num) :
  heap w !! l = Some n ->
  exists w', plain_setter k type l v w = Ok (tt, w') /\ assigned l k type v n w'.
Proof.
  intros E. unfold plain_setter, store_prop.
  rewrite (bind_Ok _ _ _ _ _ (modify_run _ _ _ _ E)).
  rewrite (setRecalculationType_run l type _ _ (heap_put _ _ _)).
  eexists. split; [reflexivity|].
  eexists. split; [apply heap_put_dirty|].
  destruct (flagged_fields type (with_props (with_nprop k v) n)) as (H1 & H2 & H3).
  rewrite H1, H2, H3. cbn [props with_props recalculationType id with_nprop].
  split; [|split; [reflexivity|split; [reflexivity|apply map_get_set]]].
  split; [apply nprop_with_nprop|]. intros k' Hk. now apply nprop_with_nprop_ne.
Qed.

Lemma lor_twice (a t : Z) : Z.lor (Z.lor a t) t = Z.lor a t.
Proof. now rewrite <- Z.lor_assoc, Z.lor_diag. Qed.

(** [prelude l m]: [m] returns on every world with a node at [l] and leaves
    a node there with the same id, whose recalculation type differs from the
    one before at most in bit 2. *)
Definition prelude (l : loc) (m : St unit) : Prop :=
  forall w n, heap w !! l = Some n ->
    exists w' n', m w = Ok (tt, w') /\ heap w' !! l = Some n' /\
                  id (props n') = id (props n) /\
                  Z.lor (recalculationType n') 2 = Z.lor (recalculationType n) 2.

Lemma prelude_ret l : prelude l (ret tt).
Proof. intros w n E. now exists w, n. Qed.

Lemma prelude_seq l (m k : St unit) : prelude l m -> prelude l k -> prelude l (m ;; k).
Proof.
  intros Hm Hk w n E. destruct (Hm w n E) as (w1 & n1 & R1 & E1 & I1 & B1).
  destruct (Hk w1 n1 E1) as (w2 & n2 & R2 & E2 & I2 & B2).
  exists w2, n2. rewrite (bind_Ok _ _ _ _ _ R1).
  split; [exact R2|]. split; [exact E2|]. split; congruence.
Qed.

Lemma prelude_plain l k v : prelude l (plain_setter k 2 l v).
Proof.
  intros w n E. destruct (plain_setter_assigned k 2 w l n v E) as (w' & R & n' & E' & _ & B & _ & D).
  exists w', n'. split; [exact R|]. split; [exact E'|]. split.
  - unfold plain_setter, store_prop in R.
    rewrite (bind_Ok _ _ _ _ _ (modify_run _ _ _ _ E)) in R.
    rewrite (setRecalculationType_run l 2 _ _ (heap_put _ _ _)) in R.
    injection R as <-. rewrite heap_put_dirty in E'. injection E' as <-.
    now destruct (flagged_fields 2 (with_props (with_nprop k v) n)) as (_ & _ & ->).
  - rewrite B. apply lor_twice.
Qed.

Lemma prelude_guard l (c : CoreNode -> bool) (m : St unit) :
  prelude l m -> prelude l (let* n0 := read l in when (c n0) m).
Proof.
  intros Hm w n E. rewrite (bind_Ok _ _ _ _ _ (read_run _ _ _ E)).
  destruct (c n); cbn [when]; [now apply Hm|now exists w, n].
Qed.

(** A setter that, after a prelude, stores its own property and flags the
    node for recalculation 2. *)
Lemma prelude_then_store (m : St unit) (k : NumProp) (w : World) (l : loc)
      (n : CoreNode) (v : num) :
  prelude l m -> heap w !! l = Some n ->
  exists w',
    (m ;; store_prop l k v ;; setRecalculationType l 2) w = Ok (tt, w') /\
    marked_with l 2 n w' (fun n' => nprop (props n') k = v).
Proof.
  intros Hm E. destruct (Hm w n E) as (w1 & n1 & R1 & E1 & I1 & B1).
  rewrite (bind_Ok _ _ _ _ _ R1). unfold store_prop.
  rewrite (bind_Ok _ _ _ _ _ (modify_run _ _ _ _ E1)).
  rewrite (setRecalculationType_run l 2 _ _ (heap_put _ _ _)).
  eexists. split; [reflexivity|].
  eexists. split; [apply heap_put_dirty|].
  destruct (flagged_fields 2 (with_props (with_nprop k v) n1)) as (H1 & H2 & H3).
  rewrite H1, H2, H3. cbn [props with_props recalculationType id with_nprop].
  split; [apply nprop_with_nprop|]. split; [exact B1|]. split; [reflexivity|].
  rewrite I1. apply map_get_set.
Qed.

Ltac prelude_tac :=
  repeat first
    [ apply prelude_plain | apply prelude_ret
    | apply prelude_seq | apply prelude_guard ].

(** C3 (as amended). Which assignments are no-ops, for every setter of the
    node.  Assigning to x, y, width, height, scaleX, scaleY or rotation a
    value strictly equal to the current one changes nothing: the world, with
    the node's state, its bitmask and the dirty set, is the one before the
    call; so does assigning to scale a value equal to both scaleX and scaleY,
    to pivot a value equal to both pivotX and pivotY, and to parent the node
    whose id is the current parent id.  The other setters do not compare.
    Those of alpha, mountX, mountY, pivotX, pivotY, zIndex and of the four
    corner colours store the value, whatever it is, leave the other numeric
    properties alone, OR their recalculation bit into the bitmask (4 for
    alpha, 8 for zIndex, 2 for the others) and mark the node dirty; mount
    stores mountX, mountY and mount, the colour setters color, colorTop,
    colorBottom, colorLeft and colorRight store their own property, clipping
    stores the flag and clears the clipping rectangle, and all of them OR
    their bit (4 for clipping, 2 for the others) and mark the node dirty.
    zIndexLocked stores the value without touching the bitmask, the
    [hasUpdates] flag or the dirty set.  Assigning [null] to the parent of a
    node without parent ORs bit 8 and marks the node dirty. *)
Theorem setters_on_equal_value (w : World) (l : loc) (n : CoreNode) (v : num) :
  heap w !! l = Some n ->
  (strict_eq (nprop (props n) P_x) v = true -> set_x l v w = Ok (tt, w)) /\
  (strict_eq (nprop (props n) P_y) v = true -> set_y l v w = Ok (tt, w)) /\
  (strict_eq (nprop (props n) P_width) v = true -> set_width l v w = Ok (tt, w)) /\
  (strict_eq (nprop (props n) P_height) v = true -> set_height l v w = Ok (tt, w)) /\
  (strict_eq (nprop (props n) P_scaleX) v = true -> set_scaleX l v w = Ok (tt, w)) /\
  (strict_eq (nprop (props n) P_scaleY) v = true -> set_scaleY l v w = Ok (tt, w)) /\
  (strict_eq (nprop (props n) P_rotation) v = true -> set_rotation l v w = Ok (tt, w)) /\
  (strict_eq (nprop (props n) P_scaleX) v = true ->
   strict_eq (nprop (props n) P_scaleY) v = true -> set_scale l v w = Ok (tt, w)) /\
  (strict_eq (nprop (props n) P_pivotX) v = true ->
   strict_eq (nprop (props n) P_pivotY) v = true -> set_pivot l v w = Ok (tt, w)) /\
  (forall ln np, heap w !! ln = Some np -> parentId n = Some (id (props np)) ->
                 set_parent l (Some ln) w = Ok (tt, w)) /\
  (exists w', set_alpha l v w = Ok (tt, w') /\ assigned l P_alpha 4 v n w') /\
  (exists w', set_mountX l v w = Ok (tt, w') /\ assigned l P_mountX 2 v n w') /\
  (exists w', set_mountY l v w = Ok (tt, w') /\ assigned l P_mountY 2 v n w') /\
  (exists w', set_pivotX l v w = Ok (tt, w') /\ assigned l P_pivotX 2 v n w') /\
  (exists w', set_pivotY l v w = Ok (tt, w') /\ assigned l P_pivotY 2 v n w') /\
  (exists w', set_zIndex l v w = Ok (tt, w') /\ assigned l P_zIndex 8 v n w') /\
  (exists w', set_colorTl l v w = Ok (tt, w') /\ assigned l P_colorTl 2 v n w') /\
  (exists w', set_colorTr l v w = Ok (tt, w') /\ assigned l P_colorTr 2 v n w') /\
  (exists w', set_colorBl l v w = Ok (tt, w') /\ assigned l P_colorBl 2 v n w') /\
  (exists w', set_colorBr l v w = Ok (tt, w') /\ assigned l P_colorBr 2 v n w') /\
  (exists w', set_mount l v w = Ok (tt, w') /\
              marked_with l 2 n w'
                (fun n' => nprop (props n') P_mountX = v /\
                           nprop (props n') P_mountY = v /\
                           nprop (props n') P_mount = v)) /\
  (exists w', set_color l v w = Ok (tt, w') /\
              marked_with l 2 n w' (fun n' => nprop (props n') P_color = v)) /\
  (exists w', set_colorTop l v w = Ok (tt, w') /\
              marked_with l 2 n w' (fun n' => nprop (props n') P_colorTop = v)) /\
  (exists w', set_colorBottom l v w = Ok (tt, w') /\
              marked_with l 2 n w' (fun n' => nprop (props n') P_colorBottom = v)) /\
  (exists w', set_colorLeft l v w = Ok (tt, w') /\
              marked_with l 2 n w' (fun n' => nprop (props n') P_colorLeft = v)) /\
  (exists w', set_colorRight l v w = Ok (tt, w') /\
              marked_with l 2 n w' (fun n' => nprop (props n') P_colorRight = v)) /\
  (forall b, exists w',
      set_clipping l b w = Ok (tt, w') /\
      marked_with l 4 n w'
        (fun n' => clipping (props n') = b /\ clippingRect n' = None /\
                   nprop (props n') = nprop (props n))) /\
  (exists w' n',
      set_zIndexLocked l v w = Ok (tt, w') /\ heap w' !! l = Some n' /\
      nprop (props n') P_zIndexLocked = v /\
      (forall k', k' <> P_zIndexLocked -> nprop (props n') k' = nprop (props n) k') /\
      recalculationType n' = recalculationType n /\
      hasUpdates n' = hasUpdates n /\ _dirtyNodes w' = _dirtyNodes w) /\
  (parentId n = None ->
   exists w', set_parent l None w = Ok (tt, w') /\
              marked_with l 8 n w' (fun n' => parentId n' = None)).
Proof.
  intros E.
  repeat match goal with
         | |- (strict_eq _ _ = true -> _ = Ok (tt, w)) /\ _ =>
             split; [intros H; exact (guarded_setter_equal _ _ _ _ _ _ E H)|]
         end.
  split.
  { intros H1 H2. unfold set_scale.
    rewrite (bind_Ok _ _ _ _ _ (guarded_setter_equal P_scaleX 4 w l n v E H1)).
    exact (guarded_setter_equal P_scaleY 4 w l n v E H2). }
  split.
  { intros H1 H2. unfold set_pivot. rewrite (bind_Ok _ _ _ _ _ (read_run _ _ _ E)).
    now rewrite H1, H2. }
  split.
  { intros ln np En Hp. unfold set_parent.
    step (read_run _ _ _ E). step (read_run _ _ _ En).
    now rewrite Hp, Z.eqb_refl. }
  repeat match goal with
         | |- (exists w', _ /\ assigned _ _ _ _ _ _) /\ _ =>
             split; [exact (plain_setter_assigned _ _ w l n v E)|]
         end.
  split.
  { unfold set_mount, store_prop.
    step (modify_run _ _ _ _ E). step (modify_run _ _ _ _ (heap_put _ _ _)).
    rewrite put_put. step (modify_run _ _ _ _ (heap_put _ _ _)). rewrite put_put.
    rewrite (setRecalculationType_run l 2 _ _ (heap_put _ _ _)).
    eexists. split; [reflexivity|]. eexists. split; [apply heap_put_dirty|].
    match goal with |- context [flagged 2 ?x] =>
      destruct (flagged_fields 2 x) as (H1 & H2 & H3) end.
    rewrite H1, H2, H3. cbn [props with_props recalculationType id with_nprop].
    split; [repeat split|]. split; [reflexivity|]. split; [reflexivity|apply map_get_set]. }
  split; [unfold set_color; apply prelude_then_store; [prelude_tac|exact E]|].
  split; [unfold set_colorTop; apply prelude_then_store; [prelude_tac|exact E]|].
  split; [unfold set_colorBottom; apply prelude_then_store; [prelude_tac|exact E]|].
  split; [unfold set_colorLeft; apply prelude_then_store; [prelude_tac|exact E]|].
  split; [unfold set_colorRight; apply prelude_then_store; [prelude_tac|exact E]|].
  split.
  { intros b. unfold set_clipping.
    step (modify_run _ _ _ _ E). step (modify_run _ _ _ _ (heap_put _ _ _)).
    rewrite put_put.
    rewrite (setRecalculationType_run l 4 _ _ (heap_put _ _ _)).
    eexists. split; [reflexivity|]. eexists. split; [apply heap_put_dirty|].
    match goal with |- context [flagged 4 ?x] =>
      destruct (flagged_fields 4 x) as (H1 & H2 & H3);
      pose proof (proj_flagged clippingRect 4 x (fun _ _ => eq_refl) (fun _ _ => eq_refl)
                    (fun _ _ => eq_refl)) as H4
    end.
    rewrite H1, H2, H3, H4. cbn.
    split; [repeat split|]. split; [reflexivity|]. split; [reflexivity|apply map_get_set]. }
  split.
  { unfold set_zIndexLocked, store_prop. rewrite (modify_run _ _ _ _ E).
    eexists _, _. split; [reflexivity|]. split; [apply heap_put|].
    cbn [props with_props recalculationType hasUpdates].
    split; [apply nprop_with_nprop|].
    split; [intros k' Hk; now apply nprop_with_nprop_ne|]. repeat split. }
  intros Hp. unfold set_parent.
  step (read_run _ _ _ E). rewrite Hp. cbn [id_truthy when]. norm.
  step (modify_run _ _ _ _ E).
  step (modify_run _ _ _ _ (heap_put _ _ _)).
  rewrite put_put.
  set (n5 := with_parentNode None (with_parentId None n)).
  rewrite (setRecalculationType_run l 8 n5 _ (heap_put _ _ _)).
  destruct (flagged_fields 8 n5) as (H1 & H2 & H3).
  eexists. split; [reflexivity|]. eexists. split; [apply heap_put_dirty|].
  split; [now rewrite (proj_flagged parentId)|].
  split; [exact H2|]. split; [exact H1|]. cbn. apply map_get_set.
Qed.

(** ** Setters always return *)

(** [returns l m]: on every world that holds the object [l], [m] returns
    and the world it leaves still holds [l]. *)
Definition returns (l : loc) (m : St unit) : Prop :=
  forall w, is_Some (heap w !! l) ->
            exists w', m w = Ok (tt, w') /\ is_Some (heap w' !! l).

Lemma returns_ret l : returns l (ret tt).
Proof. intros w H. now exists w. Qed.

Lemma returns_seq l (m k : St unit) :
  returns l m -> returns l k -> returns l (m ;; k).
Proof.
  intros Hm Hk w H. destruct (Hm w H) as (w1 & E1 & H1).
  destruct (Hk w1 H1) as (w2 & E2 & H2).
  exists w2. split; [|exact H2]. now rewrite (bind_Ok _ _ _ _ _ E1).
Qed.

Lemma returns_when l (b : bool) (m : St unit) : returns l m -> returns l (when b m).
Proof. intros H. destruct b; [exact H|apply returns_ret]. Qed.

Lemma returns_read l (k : CoreNode -> St unit) :
  (forall n, returns l (k n)) -> returns l (let* n := read l in k n).
Proof.
  intros Hk w [n E]. destruct (Hk n w (ex_intro _ n E)) as (w' & E' & H').
  exists w'. split; [|exact H']. now rewrite (bind_Ok _ _ _ _ _ (read_run _ _ _ E)).
Qed.

Lemma returns_modify l f : returns l (modify l f).
Proof.
  intros w [n E]. exists (put l (f n) w). split; [exact (modify_run _ _ _ _ E)|].
  rewrite heap_put. eauto.
Qed.

Lemma returns_setRecalculationType l type : returns l (setRecalculationType l type).
Proof.
  intros w [n E]. eexists. split; [exact (setRecalculationType_run _ _ _ _ E)|].
  rewrite heap_put_dirty. eauto.
Qed.

Lemma returns_guarded l k type v : returns l (guarded_setter k type l v).
Proof.
  unfold guarded_setter. apply returns_read. intros n. apply returns_when.
  apply returns_seq; [apply returns_modify|apply returns_setRecalculationType].
Qed.

Lemma returns_plain l k type v : returns l (plain_setter k type l v).
Proof.
  unfold plain_setter.
  apply returns_seq; [apply returns_modify|apply returns_setRecalculationType].
Qed.

Ltac returns_tac :=
  repeat first
    [ apply returns_guarded | apply returns_plain
    | apply returns_setRecalculationType | apply returns_modify
    | apply returns_ret
    | apply returns_seq | apply returns_when
    | apply returns_read; intros ? ].

Lemma returns_node_set l k v : returns l (node_set l k v).
Proof.
  destruct k; cbn [node_set];
    unfold set_x, set_y, set_width, set_height, set_alpha, set_color,
      set_colorTop, set_colorBottom, set_colorLeft, set_colorRight,
      set_colorTl, set_colorTr, set_colorBl, set_colorBr, set_scale,
      set_scaleX, set_scaleY, set_mount, set_mountX, set_mountY, set_pivot,
      set_pivotX, set_pivotY, set_rotation, store_prop;
    returns_tac.
Qed.

(** ** CoreAnimation.update *)

(** Every animated property has its target and its start value. *)
Definition values_defined (a : CoreAnimation) : Prop :=
  forall k, In k (propsList a) ->
            is_Some (obj_get k (a_props a)) /\ is_Some (obj_get k (propStartValues a)).

Lemma returns_update_prop (a : CoreAnimation) (k : AnimProp) :
  is_Some (obj_get k (a_props a)) ->
  is_Some (obj_get k (propStartValues a)) ->
  returns (a_node a) (update_prop a k).
Proof.
  intros [e He] [s Hs]. unfold update_prop. rewrite He, Hs. cbn [assertTruthy].
  intros w H. norm.
  destruct (is_color k); [destruct (strict_eq s e)|];
    destruct (easing_truthy (settings a)); exact (returns_node_set _ _ _ w H).
Qed.

Lemma returns_forEach {A : Type} l (f : A -> St unit) (xs : list A) :
  (forall x, In x xs -> returns l (f x)) -> returns l (forEach f xs).
Proof.
  induction xs as [|x xs IH]; intros H; cbn [forEach].
  - apply returns_ret.
  - apply returns_seq; [apply H; now left|apply IH; intros y Hy; apply H; now right].
Qed.

(** [same_animation a a']: [a'] animates the same node as [a] towards the
    same targets, from the same start values, with the same timing function
    and settings. *)
Definition same_animation (a a' : CoreAnimation) : Prop :=
  a_node a' = a_node a /\ a_props a' = a_props a /\
  propStartValues a' = propStartValues a /\ restoreValues a' = restoreValues a /\
  timingFunction a' = timingFunction a /\ propsList a' = propsList a /\
  settings a' = settings a.

(** C8 (as amended). In every state of the animation, completed or not:
    with a duration that is unset or falsy [update] emits "finished" at once
    and changes neither the progress nor the world; so it does with the
    duration 0, which is falsy on JavaScript numbers.  With any other
    duration [d] the progress grows by [dt / d]; when it then exceeds 1 it is
    set to 0 if [loop] is true and to 1 otherwise, "finished" is emitted in
    both cases and the world is not written; when it does not exceed 1 the
    call returns with the grown progress and without an event.  Nothing else
    of the animation changes, and [update] keeps no record of a completion. *)
Theorem anim_update_advances (a : CoreAnimation) (dt : num) (w : World) :
  ((duration (settings a) = None \/
    exists d, duration (settings a) = Some d /\ truthy d = false) ->
   exists a',
     anim_update a dt w = Ok (a', w) /\ same_animation a a' /\
     progress a' = progress a /\ emitted a' = emitted a ++ ["finished"]) /\
  (truthy zero = false -> duration (settings a) = Some zero ->
   exists a',
     anim_update a dt w = Ok (a', w) /\ same_animation a a' /\
     progress a' = progress a /\ emitted a' = emitted a ++ ["finished"]) /\
  (forall d, duration (settings a) = Some d -> truthy d = true ->
     let p := nadd (progress a) (ndiv dt d) in
     (nlt one p = true -> loop (settings a) = Some true ->
      exists a',
        anim_update a dt w = Ok (a', w) /\ same_animation a a' /\
        progress a' = zero /\ emitted a' = emitted a ++ ["finished"]) /\
     (nlt one p = true -> ~ (loop (settings a) = Some true) ->
      exists a',
        anim_update a dt w = Ok (a', w) /\ same_animation a a' /\
        progress a' = one /\ emitted a' = emitted a ++ ["finished"]) /\
     (nlt one p = false ->
      is_Some (heap w !! a_node a) ->
      values_defined a ->
      exists a' w',
        anim_update a dt w = Ok (a', w') /\ same_animation a a' /\
        progress a' = p /\ emitted a' = emitted a)).
Proof.
  assert (S : forall a', a_node a' = a_node a -> a_props a' = a_props a ->
                         propStartValues a' = propStartValues a ->
                         restoreValues a' = restoreValues a ->
                         timingFunction a' = timingFunction a ->
                         propsList a' = propsList a -> settings a' = settings a ->
                         same_animation a a').
  { intros a' H1 H2 H3 H4 H5 H6 H7. repeat split; assumption. }
  assert (N : (duration (settings a) = None \/
               exists d, duration (settings a) = Some d /\ truthy d = false) ->
              exists a',
                anim_update a dt w = Ok (a', w) /\ same_animation a a' /\
                progress a' = progress a /\ emitted a' = emitted a ++ ["finished"]).
  { intros H. unfold anim_update, duration_truthy.
    assert (D : match duration (settings a) with
                | Some d => if truthy d then Some d else None
                | None => None
                end = None).
    { destruct H as [->|(d & -> & ->)]; reflexivity. }
    rewrite D. eexists. split; [reflexivity|].
    split; [now apply S|]. now split. }
  split; [exact N|]. split.
  - intros Z E. apply N. right. exists zero. now split.
  - intros d E T p. unfold anim_update, duration_truthy. rewrite E, T.
    cbn [progress with_progress settings]. fold p.
    split; [|split].
    + intros Hp L. rewrite Hp. unfold loop_truthy. rewrite L.
      eexists. split; [reflexivity|]. split; [now apply S|]. now split.
    + intros Hp L. rewrite Hp.
      assert (F : loop_truthy (settings a) = false).
      { unfold loop_truthy. destruct (loop (settings a)) as [[|]|]; congruence. }
      rewrite F. eexists. split; [reflexivity|]. split; [now apply S|]. now split.
    + intros Hp Hn Hv. rewrite Hp.
      destruct (returns_forEach (a_node a) (update_prop (with_progress p a)) (propsList a))
        with (w := w) as (w' & E' & _).
      * intros k Hk. destruct (Hv k Hk) as [H1 H2].
        now apply (returns_update_prop (with_progress p a) k).
      * exact Hn.
      * exists (with_progress p a), w'. cbn [propsList with_progress].
        rewrite (bind_Ok _ _ _ _ _ E'). split; [reflexivity|].
        split; [now apply S|]. now split.
Qed.

(** ** The parent getter and its cache *)

(** What [get parent()] returns for a node, given the registry: the
    registered node of [parentId] when bit 2 of the update mask is set, the
    cached [parentNode] otherwise; [None] when the lookup faults. *)
Definition parent_in (t : list (Z * loc)) (n : CoreNode) : option (option loc) :=
  if has_bit (updateMask n) 2 then
    match parentId n with
    | None => Some None
    | Some k =>
        match map_get k t with
        | Some l => Some (Some l)
        | None => None
        end
    end
  else Some (parentNode n).

(** A projection of nodes that the refresh of the cache cannot change. *)
Definition cache_blind {X : Type} (t : list (Z * loc)) (proj : CoreNode -> X) : Prop :=
  forall n r, has_bit (updateMask n) 2 = true -> parent_in t n = Some r ->
              proj (with_parentNode r n) = proj n.

(** [cache_step w w']: the registry is the same and the heaps differ at most
    by refreshed caches: every cache-blind projection is kept, and a cache
    that holds what the getter returns still holds it. *)
Definition cache_step (w w' : World) : Prop :=
  _tree w' = _tree w /\ _dirtyNodes w' = _dirtyNodes w /\
  next_loc w' = next_loc w /\
  (forall (X : Type) (proj : CoreNode -> X),
      cache_blind (_tree w) proj -> keeps proj w w') /\
  (forall l n r, heap w !! l = Some n -> parent_in (_tree w) n = Some r ->
                 parentNode n = r ->
                 exists n', heap w' !! l = Some n' /\ parentNode n' = r).

Lemma parent_in_cache_blind t : cache_blind t (parent_in t).
Proof.
  intros n r Hb Hr. unfold parent_in in *. cbn [updateMask parentId with_parentNode].
  now rewrite Hb in *.
Qed.

Lemma blind_cache_blind {X : Type} t (proj : CoreNode -> X) :
  (forall r n, proj (with_parentNode r n) = proj n) -> cache_blind t proj.
Proof. intros H n r _ _. apply H. Qed.

Lemma cache_step_keeps {X : Type} (proj : CoreNode -> X) w w' :
  cache_step w w' -> cache_blind (_tree w) proj -> keeps proj w w'.
Proof. intros (_ & _ & _ & K & _). apply K. Qed.

Lemma cache_step_refl w : cache_step w w.
Proof.
  split; [reflexivity|]. split; [reflexivity|]. split; [reflexivity|]. split.
  - intros X proj B. apply keeps_refl.
  - intros l n r E Hp Hn. now exists n.
Qed.

Lemma cache_step_trans w1 w2 w3 :
  cache_step w1 w2 -> cache_step w2 w3 -> cache_step w1 w3.
Proof.
  intros (T1 & D1 & N1 & K1 & F1) (T2 & D2 & N2 & K2 & F2).
  split; [congruence|]. split; [congruence|]. split; [congruence|]. split.
  - intros X proj B. apply (keeps_trans _ _ w2); [now apply K1|].
    apply K2. now rewrite T1.
  - intros l n r E P Hn.
    destruct (F1 l n r E P Hn) as (n2 & E2 & Hn2).
    apply (F2 l n2 r E2); [|exact Hn2].
    destruct (keeps_lookup _ _ _ _ _ (K1 _ _ (parent_in_cache_blind (_tree w1))) E)
      as (n2' & E2' & P2).
    rewrite T1. congruence.
Qed.

Lemma tree_get_run (w : World) (i : option Z) (r : option loc) :
  match i with
  | None => Some None
  | Some k => match map_get k (_tree w) with Some l => Some (Some l) | None => None end
  end = Some r ->
  tree_get i w = Ok (r, w).
Proof.
  destruct i as [k|]; cbn.
  - destruct (map_get k (_tree w)) eqn:E; [|discriminate].
    intros [= <-]. reflexivity.
  - now intros [= <-].
Qed.

Lemma tree_get_inv (w : World) (i : option Z) (r : option loc) (w' : World) :
  tree_get i w = Ok (r, w') ->
  w' = w /\
  match i with
  | None => Some None
  | Some k => match map_get k (_tree w) with Some l => Some (Some l) | None => None end
  end = Some r.
Proof.
  destruct i as [k|]; cbn.
  - unfold bind. destruct (map_get k (_tree w)) eqn:E; cbn; [|discriminate].
    now intros [= <- <-].
  - now intros [= <- <-].
Qed.

(** The getter returns [parent_in] and leaves a world one cache refresh
    away. *)
Lemma get_parent_run (w : World) (l : loc) (n : CoreNode) (r : option loc) :
  heap w !! l = Some n ->
  parent_in (_tree w) n = Some r ->
  exists w', get_parent l w = Ok (r, w') /\ cache_step w w' /\
             exists n', heap w' !! l = Some n' /\ parentNode n' = r.
Proof.
  intros E Hr. unfold get_parent. step (read_run _ _ _ E).
  unfold parent_in in Hr. destruct (has_bit (updateMask n) 2) eqn:Hb.
  - step (tree_get_run w (parentId n) r Hr).
    step (modify_run _ _ _ _ E).
    rewrite (bind_Ok _ _ _ _ _ (read_run _ _ _ (heap_put _ _ _))).
    eexists. split; [reflexivity|]. split.
    + split; [reflexivity|]. split; [reflexivity|]. split; [reflexivity|]. split.
      * intros X proj B.
        apply (keeps_put _ _ _ _ _ E). apply B; [exact Hb|].
        unfold parent_in. now rewrite Hb.
      * intros l' n' r' E' P' Hn'. destruct (decide (l = l')) as [<-|Hne].
        -- rewrite heap_put. eexists. split; [reflexivity|]. cbn.
           assert (n' = n) as -> by congruence.
           unfold parent_in in P'. rewrite Hb in P'. congruence.
        -- rewrite heap_put_ne by exact Hne. eauto.
    + eexists. split; [apply heap_put|reflexivity].
  - injection Hr as <-. exists w. split; [reflexivity|].
    split; [apply cache_step_refl|]. now exists n.
Qed.

Lemma get_parent_inv (w w' : World) (l : loc) (r : option loc) :
  get_parent l w = Ok (r, w') ->
  exists n, heap w !! l = Some n /\ parent_in (_tree w) n = Some r.
Proof.
  unfold get_parent. intros H.
  apply bind_inv in H as (n & w1 & H1 & H).
  apply read_inv in H1 as [E ->].
  exists n. split; [exact E|]. unfold parent_in.
  destruct (has_bit (updateMask n) 2).
  - apply bind_inv in H as (r' & w2 & H2 & H).
    apply tree_get_inv in H2 as [-> H2].
    apply bind_inv in H as ([] & w3 & H3 & H).
    rewrite (modify_run _ _ _ _ E) in H3. injection H3 as <-.
    rewrite (bind_Ok _ _ _ _ _ (read_run _ _ _ (heap_put _ _ _))) in H.
    cbn in H. injection H as <- _. exact H2.
  - now injection H as <- _.
Qed.

(** ** The zIndex getter *)

(** [rooted w l d]: following [get parent()] from [l] reaches a node without
    parent after [d] steps, without a fault. *)
Inductive rooted (w : World) : loc -> nat -> Prop :=
  | rooted_top l n :
      heap w !! l = Some n -> parent_in (_tree w) n = Some None ->
      rooted w l 0
  | rooted_step l n lp d :
      heap w !! l = Some n -> parent_in (_tree w) n = Some (Some lp) ->
      rooted w lp d -> rooted w l (S d).

(** The value of [get zIndex()], as a relation on the world. *)
Inductive zIndex_is (w : World) : loc -> num -> Prop :=
  | zIndex_top l n :
      heap w !! l = Some n -> parent_in (_tree w) n = Some None ->
      zIndex_is w l (num_or (nprop (props n) P_zIndex) zero)
  | zIndex_child l n lp pn pz :
      heap w !! l = Some n -> parent_in (_tree w) n = Some (Some lp) ->
      heap w !! lp = Some pn -> zIndex_is w lp pz ->
      zIndex_is w l
        (let z := num_or (nprop (props n) P_zIndex) zero in
         let p := num_or pz zero in
         if truthy (num_or (nprop (props pn) P_zIndexLocked) zero)
         then (if nlt z p then z else p) else z).

(** What the getters read of a node. *)
Definition getter_view (t : list (Z * loc)) (n : CoreNode) :
  CoreNodeProps * option (option loc) := (props n, parent_in t n).

Lemma getter_view_blind t : cache_blind t (getter_view t).
Proof.
  intros n r Hb Hr. unfold getter_view. f_equal.
  now apply parent_in_cache_blind.
Qed.

Lemma cache_step_view w w' l n :
  cache_step w w' -> heap w !! l = Some n ->
  exists n', heap w' !! l = Some n' /\ props n' = props n /\
             parent_in (_tree w') n' = parent_in (_tree w) n.
Proof.
  intros C E. pose proof C as (T & _).
  destruct (keeps_lookup _ _ _ _ _ (cache_step_keeps _ _ _ C (getter_view_blind (_tree w))) E)
    as (n' & E' & V).
  exists n'. split; [exact E'|]. unfold getter_view in V.
  injection V as V1 V2. rewrite T. auto.
Qed.

Lemma cache_step_view_rev w w' l n' :
  cache_step w w' -> heap w' !! l = Some n' ->
  exists n, heap w !! l = Some n /\ props n' = props n /\
            parent_in (_tree w') n' = parent_in (_tree w) n.
Proof.
  intros C E'. pose proof C as (T & _).
  pose proof (cache_step_keeps _ _ _ C (getter_view_blind (_tree w)) l) as V.
  rewrite E' in V. destruct (heap w !! l) as [n|]; [|discriminate].
  exists n. split; [reflexivity|]. unfold getter_view in V. cbn in V.
  injection V as V1 V2. rewrite T. auto.
Qed.

Lemma rooted_cache_step w w' l d :
  cache_step w w' -> rooted w l d -> rooted w' l d.
Proof.
  intros C R. induction R as [l n E P|l n lp d E P _ IH].
  - destruct (cache_step_view _ _ _ _ C E) as (n' & E' & _ & P').
    apply (rooted_top _ l n'); congruence.
  - destruct (cache_step_view _ _ _ _ C E) as (n' & E' & _ & P').
    apply (rooted_step _ l n' lp); congruence.
Qed.

Lemma zIndex_is_cache_step w w' l v :
  cache_step w w' -> zIndex_is w l v -> zIndex_is w' l v.
Proof.
  intros C R. induction R as [l n E P|l n lp pn pz E P Ep _ IH].
  - destruct (cache_step_view _ _ _ _ C E) as (n' & E' & <- & P').
    apply (zIndex_top _ l n'); congruence.
  - destruct (cache_step_view _ _ _ _ C E) as (n' & E' & <- & P').
    destruct (cache_step_view _ _ _ _ C Ep) as (pn' & Ep' & <- & _).
    apply (zIndex_child _ l n' lp pn' pz); congruence.
Qed.

Lemma zIndex_is_cache_step_rev w w' l v :
  cache_step w w' -> zIndex_is w' l v -> zIndex_is w l v.
Proof.
  intros C R. induction R as [l n' E' P'|l n' lp pn' pz E' P' Ep' _ IH].
  - destruct (cache_step_view_rev _ _ _ _ C E') as (n & E & -> & P).
    apply (zIndex_top _ l n); congruence.
  - destruct (cache_step_view_rev _ _ _ _ C E') as (n & E & -> & P).
    destruct (cache_step_view_rev _ _ _ _ C Ep') as (pn & Ep & -> & _).
    apply (zIndex_child _ l n lp pn pz); congruence.
Qed.

Lemma zIndex_is_unique w l v v' :
  zIndex_is w l v -> zIndex_is w l v' -> v = v'.
Proof.
  intros R. revert v'. induction R as [l n E P|l n lp pn pz E P Ep _ IH];
    intros v' R'; inversion R' as [l' n' E' P'|l' n' lp' pn' pz' E' P' Ep' R'']; subst.
  - congruence.
  - congruence.
  - congruence.
  - assert (n' = n) as -> by congruence.
    assert (lp' = lp) as -> by congruence.
    assert (pn' = pn) as -> by congruence.
    now rewrite (IH _ R'').
Qed.

(** A value of the getter is its own [|| 0]. *)
Lemma num_or_zero_idem (a : num) : num_or (num_or a zero) zero = num_or a zero.
Proof. unfold num_or. destruct (truthy a) eqn:E; [now rewrite E|]. now destruct (truthy zero). Qed.

Lemma zIndex_is_normal w l v : zIndex_is w l v -> num_or v zero = v.
Proof.
  intros R. destruct R as [l n E P|l n lp pn pz E P Ep R]; cbv zeta.
  - apply num_or_zero_idem.
  - destruct (truthy _); [destruct (nlt _ _)|]; apply num_or_zero_idem.
Qed.

Lemma get_zIndexLocked_run w l n :
  heap w !! l = Some n ->
  get_zIndexLocked l w = Ok (num_or (nprop (props n) P_zIndexLocked) zero, w).
Proof. intros E. unfold get_zIndexLocked. now step (read_run _ _ _ E). Qed.

(** The getter computes [zIndex_is] and only refreshes caches. *)
Lemma get_zIndex_sound (fuel : nat) :
  forall w l v w', get_zIndex fuel l w = Ok (v, w') ->
                   zIndex_is w l v /\ cache_step w w'.
Proof.
  induction fuel as [|fuel IH]; intros w l v w' H; [discriminate|].
  cbn [get_zIndex] in H.
  apply bind_inv in H as (n & w0 & H0 & H). apply read_inv in H0 as [E ->].
  apply bind_inv in H as (parent & w1 & H1 & H).
  destruct (get_parent_inv _ _ _ _ H1) as (n0 & E0 & P).
  assert (n0 = n) as -> by congruence.
  destruct (get_parent_run _ _ _ _ E P) as (w1' & H1' & C1 & _).
  assert (w1' = w1) as -> by congruence.
  destruct parent as [lp|].
  - norm_in H.
    apply bind_inv in H as (pz & w2 & H2 & H).
    destruct (IH _ _ _ _ H2) as [Rp C2].
    norm_in H.
    apply bind_inv in H as (k & w3 & H3 & H).
    assert (exists pn2, heap w2 !! lp = Some pn2) as [pn2 Ep2].
    { unfold get_zIndexLocked in H3. apply bind_inv in H3 as (pn2 & ? & H3 & _).
      apply read_inv in H3 as [? _]. eauto. }
    rewrite (get_zIndexLocked_run _ _ _ Ep2) in H3. injection H3 as <- <-.
    norm_in H.
    pose proof (cache_step_trans _ _ _ C1 C2) as C.
    destruct (cache_step_view_rev _ _ _ _ C Ep2) as (pn & Ep & Hp & _).
    rewrite Hp in H.
    split.
    + assert (Rp0 : zIndex_is w lp pz) by now apply (zIndex_is_cache_step_rev _ _ _ _ C1).
      pose proof (zIndex_child w l n lp pn pz E P Ep Rp0) as R. cbv zeta in R.
      destruct (truthy (num_or (nprop (props pn) P_zIndexLocked) zero));
        injection H as <- <-; exact R.
    + destruct (truthy (num_or (nprop (props pn) P_zIndexLocked) zero));
        injection H as <- <-; exact C.
  - norm_in H. cbn in H. injection H as <- <-.
    split; [now apply (zIndex_top w l n)|exact C1].
Qed.

(** With enough fuel the getter returns, on every world one cache refresh
    away. *)
Lemma get_zIndex_returns w l d :
  rooted w l d ->
  forall fuel w1, (d < fuel)%nat -> cache_step w w1 ->
                  exists v w2, get_zIndex fuel l w1 = Ok (v, w2).
Proof.
  induction 1 as [l n E P|l n lp d E P R IH]; intros fuel w1 Hf C;
    (destruct fuel as [|fuel]; [lia|]); cbn [get_zIndex];
    destruct (cache_step_view _ _ _ _ C E) as (n1 & E1 & Hp1 & P1);
    rewrite P in P1;
    destruct (get_parent_run _ _ _ _ E1 P1) as (w2 & H2 & C2 & _);
    step (read_run _ _ _ E1); step H2.
  - cbn. eauto.
  - destruct (IH fuel w2) as (pz & w3 & H3); [lia|now apply (cache_step_trans _ w1)|].
    step H3.
    assert (exists pn, heap w3 !! lp = Some pn) as [pn Ep].
    { destruct (get_zIndex_sound _ _ _ _ _ H3) as [Rz _].
      inversion R; subst;
        match goal with H : heap w !! lp = Some ?x |- _ =>
          destruct (cache_step_view _ _ _ _ C H) as (x1 & Hx1 & _);
          destruct (cache_step_view _ _ _ _ C2 Hx1) as (x2 & Hx2 & _);
          destruct (cache_step_view _ _ _ _ (proj2 (get_zIndex_sound _ _ _ _ _ H3)) Hx2)
            as (x3 & Hx3 & _)
        end; eauto. }
    step (get_zIndexLocked_run _ _ _ Ep).
    destruct (truthy _); cbn; eauto.
Qed.

Lemma nle_min_self (z p : num) :
  num_or p zero = p -> nle (if nlt z p then z else p) p = true.
Proof.
  intros Hp. unfold nle. destruct (nlt z p) eqn:E; [now rewrite E|].
  assert (S : strict_eq p p = true).
  { unfold num_or in Hp. destruct (truthy p) eqn:T.
    - now apply truthy_strict_eq.
    - rewrite <- Hp. apply strict_eq_zero. }
  rewrite S. now destruct (nlt p p).
Qed.

(** X13 (CoreNode.zIndex getter, CoreNode.zIndexLocked getter): when the
    parent of a node has [zIndexLocked] set, the node's [zIndex]
    getter returns at most what the parent's getter returns, whatever value
    the node's own zIndex property holds; both getters return when the parent
    is at depth [d] below a parentless node and the fuel exceeds [d + 1]. *)
Theorem zIndex_capped_by_locked_parent
        (w : World) (l lp : loc) (n pn : CoreNode) (d fuel : nat) :
  heap w !! l = Some n ->
  parent_in (_tree w) n = Some (Some lp) ->
  heap w !! lp = Some pn ->
  truthy (num_or (nprop (props pn) P_zIndexLocked) zero) = true ->
  rooted w lp d ->
  (S d < fuel)%nat ->
  exists vN vP w1 w2,
    get_zIndex fuel l w = Ok (vN, w1) /\
    get_zIndex fuel lp w1 = Ok (vP, w2) /\
    nle vN vP = true.
Proof.
  intros E P Ep Hl R Hf.
  destruct (get_zIndex_returns w l (S d) (rooted_step _ _ _ _ _ E P R) fuel w Hf
              (cache_step_refl w)) as (vN & w1 & H1).
  destruct (get_zIndex_sound _ _ _ _ _ H1) as [RN C1].
  destruct (get_zIndex_returns w lp d R fuel w1 ltac:(lia) C1) as (vP & w2 & H2).
  destruct (get_zIndex_sound _ _ _ _ _ H2) as [RP _].
  apply (zIndex_is_cache_step_rev _ _ _ _ C1) in RP.
  exists vN, vP, w1, w2. split; [exact H1|]. split; [exact H2|].
  inversion RN as [l' n' E' P'|l' n' lp' pn' pz E' P' Ep' Rp']; subst; [congruence|].
  assert (n' = n) as -> by congruence.
  assert (lp' = lp) as -> by congruence.
  assert (pn' = pn) as -> by congruence.
  rewrite (zIndex_is_unique _ _ _ _ Rp' RP). cbv zeta. rewrite Hl.
  rewrite (zIndex_is_normal _ _ _ RP). apply nle_min_self.
  exact (zIndex_is_normal _ _ _ RP).
Qed.

(** X14 (CoreNode.zIndex getter): without a parent, or under a parent whose
    [zIndexLocked] is not set, the
    [zIndex] getter returns the node's own property, with [NaN] and the other
    falsy values read as 0, whatever the parent's zIndex is. *)
Theorem zIndex_own_without_lock
        (w : World) (l : loc) (n : CoreNode) (d fuel : nat) :
  heap w !! l = Some n ->
  rooted w l d ->
  (d < fuel)%nat ->
  (forall lp pn, parent_in (_tree w) n = Some (Some lp) -> heap w !! lp = Some pn ->
                 truthy (num_or (nprop (props pn) P_zIndexLocked) zero) = false) ->
  exists w', get_zIndex fuel l w = Ok (num_or (nprop (props n) P_zIndex) zero, w').
Proof.
  intros E R Hf Hu.
  destruct (get_zIndex_returns w l d R fuel w Hf (cache_step_refl w)) as (v & w1 & H1).
  destruct (get_zIndex_sound _ _ _ _ _ H1) as [RN _].
  exists w1. rewrite H1. do 2 f_equal.
  inversion RN as [l' n' E' P'|l' n' lp' pn' pz E' P' Ep' Rp']; subst.
  - congruence.
  - assert (n' = n) as -> by congruence.
    cbv zeta. now rewrite (Hu lp' pn' P' Ep').
Qed.

(** ** CoreNode.update, step by step *)

(** [view_step w w']: the registry, the dirty set and what the getters read
    of every node are the same. *)
Definition view_step (w w' : World) : Prop :=
  _tree w' = _tree w /\ _dirtyNodes w' = _dirtyNodes w /\
  keeps (getter_view (_tree w)) w w'.

(** [others_kept l w w']: apart from the parent cache, no node other than
    [l] has changed. *)
Definition others_kept (l : loc) (w w' : World) : Prop :=
  forall l', l' <> l ->
             with_parentNode None <$> heap w' !! l' = with_parentNode None <$> heap w !! l'.

Lemma view_step_refl w : view_step w w.
Proof. repeat split. Qed.

Lemma view_step_trans w1 w2 w3 : view_step w1 w2 -> view_step w2 w3 -> view_step w1 w3.
Proof.
  intros (T1 & D1 & K1) (T2 & D2 & K2). split; [congruence|]. split; [congruence|].
  apply (keeps_trans _ _ w2); [exact K1|]. now rewrite <- T1.
Qed.

Lemma others_kept_refl l w : others_kept l w w.
Proof. intros l' _. reflexivity. Qed.

Lemma others_kept_trans l w1 w2 w3 :
  others_kept l w1 w2 -> others_kept l w2 w3 -> others_kept l w1 w3.
Proof. intros H1 H2 l' Hne. now rewrite (H2 l' Hne), (H1 l' Hne). Qed.

Lemma cache_step_view_step w w' : cache_step w w' -> view_step w w'.
Proof.
  intros C. pose proof C as (T & D & _). split; [exact T|]. split; [exact D|].
  apply (cache_step_keeps _ _ _ C). apply getter_view_blind.
Qed.

Lemma cache_step_others_kept l w w' : cache_step w w' -> others_kept l w w'.
Proof.
  intros C l' _.
  apply (cache_step_keeps (with_parentNode None) _ _ C).
  now apply blind_cache_blind.
Qed.

Lemma put_view_step l n n' w :
  heap w !! l = Some n -> getter_view (_tree w) n' = getter_view (_tree w) n ->
  view_step w (put l n' w).
Proof. intros E V. split; [reflexivity|]. split; [reflexivity|]. now apply (keeps_put _ _ _ n). Qed.

Lemma put_others_kept l n' w : others_kept l w (put l n' w).
Proof. intros l' Hne. now rewrite heap_put_ne by congruence. Qed.

Lemma rooted_view_step w w' l d : view_step w w' -> rooted w l d -> rooted w' l d.
Proof.
  intros (T & _ & K) R. induction R as [l n E P|l n lp d E P _ IH].
  - destruct (keeps_lookup _ _ _ _ _ K E) as (n' & E' & V). injection V as _ V.
    apply (rooted_top _ l n'); [exact E'|]. rewrite T. congruence.
  - destruct (keeps_lookup _ _ _ _ _ K E) as (n' & E' & V). injection V as _ V.
    apply (rooted_step _ l n' lp); [exact E'| |exact IH]. rewrite T. congruence.
Qed.

(** *** The children *)

(** What [tree.getNodes] returns for a list of registered ids. *)
Definition resolve_ids (t : list (Z * loc)) (ids : list Z) : list loc :=
  match ids with
  | [] => map_values t
  | _ => omap (fun k => map_get k t) ids
  end.

(** The [children] of a node once [update] has looked at bit 1 of the update
    mask. *)
Definition children_after (w : World) (n : CoreNode) : list loc :=
  if has_bit (updateMask n) 1 then resolve_ids (_tree w) (childrenIds n)
  else children n.

Lemma with_children_self n : with_children (children n) n = n.
Proof. now destruct n. Qed.

Lemma registered_Forall2 (t : list (Z * loc)) (ids : list Z) :
  (forall k, In k ids -> is_Some (map_get k t)) ->
  Forall2 (fun i l => map_get i t = Some l) ids (omap (fun k => map_get k t) ids).
Proof.
  induction ids as [|i ids IH]; intros H; cbn; [constructor|].
  destruct (H i (or_introl eq_refl)) as [l' El]. rewrite El. cbn.
  constructor; [exact El|]. apply IH. intros k Hk. apply H. now right.
Qed.

Lemma tree_getNodes_run (w : World) (ids : list Z) :
  (forall k, In k ids -> is_Some (map_get k (_tree w))) ->
  tree_getNodes (Some ids) w = Ok (resolve_ids (_tree w) ids, w).
Proof.
  intros H. destruct ids as [|i r]; [reflexivity|].
  unfold tree_getNodes.
  rewrite (bind_Ok _ _ _ _ _ (mapM_tree_get_registered _ _ _ (registered_Forall2 _ _ H))).
  unfold ret. now rewrite omap_Some.
Qed.

Lemma refresh_children_run (w : World) (l : loc) (n : CoreNode) :
  heap w !! l = Some n ->
  (has_bit (updateMask n) 1 = true ->
   forall k, In k (childrenIds n) -> is_Some (map_get k (_tree w))) ->
  (let* n := read l in
   when (has_bit (updateMask n) 1)
     (let* cs := tree_getNodes (Some (childrenIds n)) in
      modify l (with_children cs))) w
  = Ok (tt, put l (with_children (children_after w n) n) w).
Proof.
  intros E H. step (read_run _ _ _ E). unfold children_after.
  destruct (has_bit (updateMask n) 1); cbn [when].
  - step (tree_getNodes_run w (childrenIds n) (H eq_refl)).
    now rewrite (modify_run _ _ _ _ E).
  - unfold ret. now rewrite with_children_self, put_same.
Qed.

(** *** The transforms *)

(** The matrix [updateLocalTransform] builds from the properties and the
    scale-rotate matrix. *)
Definition local_matrix (sr : Matrix3d) (n : CoreNode) : Matrix3d :=
  let p := nprop (props n) in
  let pivotTranslateX := nmul (p P_pivotX) (p P_width) in
  let pivotTranslateY := nmul (p P_pivotY) (p P_height) in
  let mountTranslateX := nmul (p P_mountX) (p P_width) in
  let mountTranslateY := nmul (p P_mountY) (p P_height) in
  m_translate
    (m_multiply
       (Matrix3d_translate
          (nadd (nsub pivotTranslateX mountTranslateX) (p P_x))
          (nadd (nsub pivotTranslateY mountTranslateY) (p P_y)))
       sr)
    (nneg pivotTranslateX) (nneg pivotTranslateY).

(** The matrix [updateScaleRotateTransform] builds: rotate, then scale. *)
Definition scale_rotate_matrix (n : CoreNode) : Matrix3d :=
  m_scale (Matrix3d_rotate (nprop (props n) P_rotation))
          (nprop (props n) P_scaleX) (nprop (props n) P_scaleY).

Lemma updateLocalTransform_run (w : World) (l : loc) (n : CoreNode) (sr : Matrix3d) :
  heap w !! l = Some n -> scaleRotateTransform n = Some sr ->
  updateLocalTransform l w
  = Ok (tt, put l (with_localTransform (Some (local_matrix sr n)) n) w).
Proof.
  intros E S. unfold updateLocalTransform. step (read_run _ _ _ E).
  rewrite S. cbn [assertTruthy]. norm.
  now rewrite (modify_run _ _ _ _ E).
Qed.

Lemma updateScaleRotateTransform_run (w : World) (l : loc) (n : CoreNode) :
  heap w !! l = Some n ->
  updateScaleRotateTransform l w
  = Ok (tt, put l (with_localTransform
                     (Some (local_matrix (scale_rotate_matrix n) n))
                     (with_scaleRotateTransform (Some (scale_rotate_matrix n)) n)) w).
Proof.
  intros E. unfold updateScaleRotateTransform. step (read_run _ _ _ E).
  step (modify_run _ _ _ _ E).
  rewrite (updateLocalTransform_run _ l
             (with_scaleRotateTransform (Some (scale_rotate_matrix n)) n)
             (scale_rotate_matrix n) (heap_put _ _ _) eq_refl).
  now rewrite put_put.
Qed.

(** The node after the two transform steps of [update]; [None] when
    [updateLocalTransform] finds no scale-rotate matrix. *)
Definition retransformed (n : CoreNode) : option CoreNode :=
  match
    (if has_bit (recalculationType n) 2 then
       match scaleRotateTransform n with
       | Some sr => Some (with_localTransform (Some (local_matrix sr n)) n)
       | None => None
       end
     else Some n)
  with
  | Some n2 =>
      Some (if has_bit (recalculationType n2) 4 then
              with_localTransform
                (Some (local_matrix (scale_rotate_matrix n2) n2))
                (with_scaleRotateTransform (Some (scale_rotate_matrix n2)) n2)
            else n2)
  | None => None
  end.

Lemma retransform_run (w : World) (l : loc) (n n3 : CoreNode) :
  heap w !! l = Some n -> retransformed n = Some n3 ->
  ((let* n := read l in
    when (has_bit (recalculationType n) 2) (updateLocalTransform l)) ;;
   (let* n := read l in
    when (has_bit (recalculationType n) 4) (updateScaleRotateTransform l))) w
  = Ok (tt, put l n3 w).
Proof.
  intros E R. unfold retransformed in R. step (read_run _ _ _ E).
  destruct (has_bit (recalculationType n) 2); cbn [when].
  - destruct (scaleRotateTransform n) as [sr|] eqn:S; [|discriminate].
    step (updateLocalTransform_run _ _ _ _ E S).
    step (read_run _ _ _ (heap_put _ _ _)).
    injection R as <-.
    destruct (has_bit _ 4); cbn [when].
    + rewrite (updateScaleRotateTransform_run _ _ _ (heap_put _ _ _)).
      now rewrite put_put.
    + reflexivity.
  - norm. step (read_run _ _ _ E). injection R as <-.
    destruct (has_bit _ 4); cbn [when].
    + now rewrite (updateScaleRotateTransform_run _ _ _ E).
    + unfold ret. now rewrite put_same.
Qed.

(** *** The clipping rectangle *)

Lemma with_next_loc_put l n nl w :
  put l n (with_next_loc nl w) = with_next_loc nl (put l n w).
Proof. reflexivity. Qed.

Lemma with_next_loc_same w : with_next_loc (next_loc w) w = w.
Proof. now destruct w. Qed.

Lemma with_next_loc_put_same l n w : with_next_loc (next_loc w) (put l n w) = put l n w.
Proof. now destruct w. Qed.

Lemma with_clip_self n :
  with_clippingRect (clippingRect n) (with_parentClippingRect (parentClippingRect n) n) = n.
Proof. now destruct n. Qed.

(** The rectangle of the node itself: none when the node does not clip or
    is rotated. *)
Definition own_rect (r : loc) (gt : Matrix3d) (n : CoreNode) : option Rect :=
  if clipping (props n)
     && negb (negb (strict_eq (tb gt) zero) || negb (strict_eq (tc gt) zero))
  then Some {| rect_ref := r; rect_x := tx gt; rect_y := ty gt;
               rect_width := nmul (nprop (props n) P_width) (ta gt);
               rect_height := nmul (nprop (props n) P_height) (td gt) |}
  else None.

(** The two rectangles [calculateClippingRect] leaves in the node, and the
    next free reference, by the cases of the method. *)
Definition clipped (pcr : option Rect) (nl : loc) (n : CoreNode)
  : option Rect * option Rect * loc :=
  match globalTransform n with
  | None => (clippingRect n, parentClippingRect n, nl)
  | Some gt =>
      if negb (clipping (props n)) && negb (bool_decide (is_Some pcr)) then
        (None, parentClippingRect n, nl)
      else if same_rect (parentClippingRect n) pcr
                && bool_decide (is_Some (clippingRect n)) then
        (clippingRect n, parentClippingRect n, nl)
      else
        match pcr, own_rect nl gt n with
        | Some pr, Some r =>
            let '(x, y, w, h) := intersectRect (rect_fields pr) (rect_fields r) in
            (Some {| rect_ref := Pos.succ nl; rect_x := x; rect_y := y;
                     rect_width := w; rect_height := h |},
             pcr, Pos.succ (Pos.succ nl))
        | Some pr, None => (Some pr, pcr, nl)
        | None, Some r => (Some r, pcr, Pos.succ nl)
        | None, None => (None, pcr, nl)
        end
  end.

Lemma calculateClippingRect_run (w : World) (l : loc) (n : CoreNode) (pcr : option Rect) :
  heap w !! l = Some n ->
  calculateClippingRect l pcr w
  = Ok (tt, let '(c, p, nl) := clipped pcr (next_loc w) n in
            with_next_loc nl
              (put l (with_clippingRect c (with_parentClippingRect p n)) w)).
Proof.
  intros E. unfold calculateClippingRect, clipped. step (read_run _ _ _ E).
  destruct (globalTransform n) as [gt|].
  2:{ unfold ret. rewrite with_clip_self, put_same by exact E.
      now rewrite with_next_loc_same. }
  destruct (negb (clipping (props n)) && negb (bool_decide (is_Some pcr))).
  { rewrite (modify_run _ _ _ _ E). now rewrite with_next_loc_put_same. }
  destruct (same_rect (parentClippingRect n) pcr && bool_decide (is_Some (clippingRect n))).
  { unfold ret. rewrite with_clip_self, put_same by exact E.
    now rewrite with_next_loc_same. }
  unfold own_rect, new_rect, fresh.
  destruct (clipping (props n)
            && negb (negb (strict_eq (tb gt) zero) || negb (strict_eq (tc gt) zero))).
  - norm. unfold bind at 1. norm.
    destruct pcr as [pr|].
    + cbn [rect_fields rect_x rect_y rect_width rect_height].
      destruct (intersectRect _ _) as [[[x y] w'] h] eqn:Ei. norm.
      unfold bind at 1. norm. cbn [next_loc with_next_loc].
      set (W := with_next_loc _ (with_next_loc _ w)).
      assert (EW : heap W !! l = Some n) by exact E.
      rewrite (bind_Ok _ _ _ _ _ (modify_run _ _ _ W EW)).
      rewrite (modify_run _ _ _ _ (heap_put _ _ _)).
      now rewrite put_put.
    + norm. set (W := with_next_loc _ w).
      assert (EW : heap W !! l = Some n) by exact E.
      rewrite (bind_Ok _ _ _ _ _ (modify_run _ _ _ W EW)).
      rewrite (modify_run _ _ _ _ (heap_put _ _ _)).
      now rewrite put_put.
  - norm. destruct pcr as [pr|]; norm;
      rewrite (bind_Ok _ _ _ _ _ (modify_run _ _ _ _ E));
      rewrite (modify_run _ _ _ _ (heap_put _ _ _));
      now rewrite put_put, with_next_loc_put_same.
Qed.

(** *** Sorting the children *)

Lemma insert_sorted_perm (e : num * loc) (s : list (num * loc)) :
  Permutation (insert_sorted e s) (e :: s).
Proof.
  induction s as [|e' s IH]; cbn; [reflexivity|].
  destruct (zIndex_before (fst e') (fst e)); [|reflexivity].
  rewrite IH. apply perm_swap.
Qed.

Lemma stable_sort_perm (l : list (num * loc)) : Permutation (stable_sort l) l.
Proof.
  induction l as [|e l IH]; cbn; [reflexivity|].
  rewrite insert_sorted_perm. apply perm_skip, IH.
Qed.

Lemma mapM_zIndex_returns (fuel : nat) (w : World) (cs : list loc) :
  (forall c, In c cs -> exists d, (d < fuel)%nat /\ rooted w c d) ->
  forall w1, cache_step w w1 ->
    exists keyed w2,
      mapM (fun c => let* z := get_zIndex fuel c in ret (z, c)) cs w1 = Ok (keyed, w2) /\
      cache_step w w2 /\ map snd keyed = cs.
Proof.
  induction cs as [|c cs IH]; intros H w1 C; cbn [mapM].
  - exists [], w1. split; [reflexivity|]. split; [exact C|reflexivity].
  - destruct (H c (or_introl eq_refl)) as (d & Hd & R).
    destruct (get_zIndex_returns w c d R fuel w1 Hd C) as (z & w2 & H2).
    destruct (get_zIndex_sound _ _ _ _ _ H2) as [_ C2].
    destruct (IH (fun c' Hc' => H c' (or_intror Hc')) w2 (cache_step_trans _ _ _ C C2))
      as (keyed & w3 & H3 & C3 & M).
    exists ((z, c) :: keyed), w3. step H2. step H3.
    split; [reflexivity|]. split; [exact C3|]. cbn. now rewrite M.
Qed.

Lemma sortChildren_run (fuel : nat) (w : World) (l : loc) (n : CoreNode) :
  heap w !! l = Some n ->
  (forall c, In c (children n) -> exists d, (d < fuel)%nat /\ rooted w c d) ->
  exists w1 n1 cs',
    sortChildren fuel l w = Ok (tt, put l (with_children cs' n1) w1) /\
    cache_step w w1 /\ heap w1 !! l = Some n1 /\
    Permutation cs' (children n) /\
    ((length (children n) < 2)%nat -> cs' = children n).
Proof.
  intros E H. unfold sortChildren. step (read_run _ _ _ E).
  destruct (length (children n) <? 2)%nat eqn:L.
  - exists w, n, (children n). unfold ret. rewrite with_children_self, put_same by exact E.
    split; [reflexivity|]. split; [apply cache_step_refl|]. split; [exact E|].
    split; [reflexivity|]. reflexivity.
  - destruct (mapM_zIndex_returns fuel w (children n) H w (cache_step_refl w))
      as (keyed & w1 & H1 & C1 & M).
    step H1.
    destruct (cache_step_view _ _ _ _ C1 E) as (n1 & E1 & _).
    exists w1, n1, (map snd (stable_sort keyed)).
    split; [now rewrite (modify_run _ _ _ _ E1)|].
    split; [exact C1|]. split; [exact E1|]. split.
    + rewrite <- M. apply Permutation_map, stable_sort_perm.
    + intros Hl. apply Nat.ltb_ge in L. lia.
Qed.

(** *** The whole method *)

Lemma retransformed_form (n n3 : CoreNode) :
  retransformed n = Some n3 ->
  exists lt sr, n3 = with_localTransform lt (with_scaleRotateTransform sr n).
Proof.
  unfold retransformed. intros H.
  destruct (has_bit (recalculationType n) 2).
  - destruct (scaleRotateTransform n) as [sr|] eqn:S; [|discriminate].
    cbn [recalculationType with_localTransform] in H.
    destruct (has_bit (recalculationType n) 4); injection H as <-.
    + now eexists _, _.
    + exists (Some (local_matrix sr n)), (Some sr). rewrite <- S. now destruct n.
  - destruct (has_bit (recalculationType n) 4); injection H as <-.
    + now eexists _, _.
    + exists (localTransform n), (scaleRotateTransform n). now destruct n.
Qed.

Lemma retransformed_with_children (cs : list loc) (n : CoreNode) :
  retransformed (with_children cs n) = with_children cs <$> retransformed n.
Proof.
  unfold retransformed. cbn [recalculationType scaleRotateTransform with_children].
  destruct (has_bit (recalculationType n) 2).
  - destruct (scaleRotateTransform n); [|reflexivity].
    cbn [recalculationType with_localTransform with_children].
    destruct (has_bit (recalculationType n) 4); reflexivity.
  - cbn [recalculationType with_children].
    destruct (has_bit (recalculationType n) 4); reflexivity.
Qed.

Lemma parent_in_with_parentNode t n r :
  parent_in t n = Some r -> parent_in t (with_parentNode r n) = Some r.
Proof.
  unfold parent_in. cbn [updateMask parentId parentNode with_parentNode].
  now destruct (has_bit (updateMask n) 2).
Qed.

Lemma cache_refreshed (a b : CoreNode) (r : option loc) :
  with_parentNode None a = with_parentNode None b -> parentNode a = r ->
  a = with_parentNode r b.
Proof. destruct a, b. cbn. intros [=] <-. now subst. Qed.

(** The clearing of the flags that ends [update]. *)
Definition flags_cleared (n : CoreNode) : CoreNode :=
  with_recalculationType 0 (with_updateMask 0 (with_hasUpdates false n)).

(** The global transform [update] stores: the parent's times the local one
    when the parent has a global transform, the local one otherwise. *)
Definition composed (w : World) (r : option loc) (lt : Matrix3d) : Matrix3d :=
  match r with
  | Some lp =>
      match heap w !! lp with
      | Some pn =>
          match globalTransform pn with
          | Some g => m_multiply g lt
          | None => lt
          end
      | None => lt
      end
  | None => lt
  end.

Lemma fmap_Some_eq {A B : Type} (f : A -> B) (a b : A) :
  f <$> Some a = f <$> Some b -> f a = f b.
Proof. cbn. now intros [=]. Qed.

Lemma except_cache_blind t : cache_blind t (with_parentNode None).
Proof. now apply blind_cache_blind. Qed.

Lemma retransform_then {B : Type} (k : unit -> St B) (w : World) (l : loc) (n n3 : CoreNode) :
  heap w !! l = Some n -> retransformed n = Some n3 ->
  bind (let* n := read l in
        when (has_bit (recalculationType n) 2) (updateLocalTransform l))
       (fun _ =>
          bind (let* n := read l in
                when (has_bit (recalculationType n) 4) (updateScaleRotateTransform l))
               k) w
  = k tt (put l n3 w).
Proof.
  intros E R.
  rewrite <- (bind_bind _ (fun _ => _) k w).
  now rewrite (bind_Ok _ _ _ _ _ (retransform_run w l n n3 E R)).
Qed.

Lemma update_run (fuel : nat) (w : World) (l : loc) (pcr : option Rect)
      (n n3 : CoreNode) (r : option loc) (lt : Matrix3d) :
  heap w !! l = Some n ->
  is_Some (localTransform n) ->
  retransformed n = Some n3 ->
  localTransform n3 = Some lt ->
  (has_bit (updateMask n) 1 = true ->
   forall k, In k (childrenIds n) -> is_Some (map_get k (_tree w))) ->
  parent_in (_tree w) n = Some r ->
  (forall lp, r = Some lp -> is_Some (heap w !! lp)) ->
  (has_bit (recalculationType n) 8 = true ->
   forall c, In c (children_after w n) -> exists d, (d < fuel)%nat /\ rooted w c d) ->
  exists w' cs' c p,
    update fuel l pcr w = Ok (tt, w') /\
    heap w' !! l =
      Some (flags_cleared
              (with_children cs'
                 (with_clippingRect c
                    (with_parentClippingRect p
                       (with_globalTransform (Some (composed w r lt))
                          (with_parentNode r n3)))))) /\
    _tree w' = _tree w /\ _dirtyNodes w' = _dirtyNodes w /\
    others_kept l w w' /\
    Permutation cs' (children_after w n) /\
    (has_bit (recalculationType n) 8 = false -> cs' = children_after w n) /\
    clipped pcr (next_loc w) (with_globalTransform (Some (composed w r lt)) n3)
    = (c, p, next_loc w').
Proof.
  intros E [lt0 Hlt0] R Hlt Hch Hp Hpa Hs.
  unfold update.
  rewrite (bind_Ok _ _ _ _ _ (read_run _ _ _ E)).
  rewrite Hlt0. cbn [assertTruthy]. rewrite ret_bind.
  (* the children *)
  rewrite (bind_Ok _ _ _ _ _ (refresh_children_run w l n E Hch)).
  set (cs := children_after w n).
  set (n1 := with_children cs n).
  set (w1 := put l n1 w).
  assert (E1 : heap w1 !! l = Some n1) by apply heap_put.
  (* the transforms *)
  assert (R1 : retransformed n1 = Some (with_children cs n3)).
  { unfold n1. now rewrite retransformed_with_children, R. }
  rewrite (retransform_then _ w1 l n1 _ E1 R1).
  set (n3' := with_children cs n3).
  assert (W3 : put l n3' w1 = put l n3' w) by apply put_put.
  rewrite W3. clear W3. set (w3 := put l n3' w).
  assert (E3 : heap w3 !! l = Some n3') by apply heap_put.
  destruct (retransformed_form _ _ R) as (ltx & srx & F3).
  assert (V3 : view_step w w3).
  { apply (put_view_step l n); [exact E|]. unfold n3'. now rewrite F3. }
  assert (G3 : keeps globalTransform w w3).
  { apply (keeps_put _ _ _ _ _ E). unfold n3'. now rewrite F3. }
  (* the parent *)
  assert (P3 : parent_in (_tree w3) n3' = Some r).
  { unfold n3'. rewrite F3. exact Hp. }
  destruct (get_parent_run w3 l n3' r E3 P3) as (w4 & H4 & C4 & n4 & E4 & Hn4).
  rewrite (bind_Ok _ _ _ _ _ H4).
  assert (F4 : n4 = with_parentNode r n3').
  { apply cache_refreshed; [|exact Hn4].
    pose proof (cache_step_keeps (with_parentNode None) _ _ C4
                  (except_cache_blind _) l) as K.
    rewrite E4, E3 in K. exact (fmap_Some_eq _ _ _ K). }
  subst n4.
  assert (G4 : keeps globalTransform w w4).
  { apply (keeps_trans _ _ w3); [exact G3|].
    apply (cache_step_keeps _ _ _ C4). now apply blind_cache_blind. }
  assert (Hpg : (match r with
                 | Some lp => let* pn := read lp in ret (globalTransform pn)
                 | None => ret None
                 end) w4
                = Ok (match r with
                      | Some lp => match heap w !! lp with
                                   | Some pn => globalTransform pn
                                   | None => None
                                   end
                      | None => None
                      end, w4)).
  { destruct r as [lp|]; [|reflexivity].
    destruct (Hpa lp eq_refl) as [pn Epn].
    destruct (keeps_lookup _ _ _ _ _ G4 Epn) as (pn4 & Epn4 & Gp).
    rewrite (bind_Ok _ _ _ _ _ (read_run _ _ _ Epn4)). unfold ret.
    now rewrite Epn, Gp. }
  rewrite (bind_Ok _ _ _ _ _ Hpg).
  rewrite (bind_Ok _ _ _ _ _ (read_run _ _ _ E4)).
  assert (L4 : localTransform (with_parentNode r n3') = Some lt) by exact Hlt.
  rewrite L4. cbn [assertTruthy]. rewrite ret_bind.
  (* the global transform *)
  set (n6 := with_globalTransform (Some (composed w r lt)) (with_parentNode r n3')).
  assert (H6 : (match
                  match r with
                  | Some lp => match heap w !! lp with
                               | Some pn => globalTransform pn
                               | None => None
                               end
                  | None => None
                  end
                with
                | Some pgt =>
                    modify l (with_globalTransform
                      (Some (m_multiply
                               (Matrix3d_copy pgt (globalTransform (with_parentNode r n3')))
                               lt)))
                | None =>
                    modify l (with_globalTransform
                      (Some (Matrix3d_copy lt (globalTransform (with_parentNode r n3')))))
                end) w4 = Ok (tt, put l n6 w4)).
  { unfold n6, composed, Matrix3d_copy.
    destruct r as [lp|].
    - destruct (heap w !! lp) as [pn|].
      + destruct (globalTransform pn); now rewrite (modify_run _ _ _ _ E4).
      + now rewrite (modify_run _ _ _ _ E4).
    - now rewrite (modify_run _ _ _ _ E4). }
  rewrite (bind_Ok _ _ _ _ _ H6).
  set (w6 := put l n6 w4).
  assert (E6 : heap w6 !! l = Some n6) by apply heap_put.
  (* the clipping rectangle *)
  rewrite (bind_Ok _ _ _ _ _ (calculateClippingRect_run w6 l n6 pcr E6)).
  assert (N6 : next_loc w6 = next_loc w).
  { destruct C4 as (_ & _ & N4 & _). exact N4. }
  assert (Ecl : clipped pcr (next_loc w6) n6
                = clipped pcr (next_loc w)
                    (with_globalTransform (Some (composed w r lt)) n3)).
  { rewrite N6. reflexivity. }
  destruct (clipped pcr (next_loc w6) n6) as [[c p] nl].
  set (n7 := with_clippingRect c (with_parentClippingRect p n6)).
  assert (W7 : with_next_loc nl (put l n7 w6) = with_next_loc nl (put l n7 w4)).
  { unfold w6. now rewrite put_put. }
  rewrite W7. clear W7. set (w7 := with_next_loc nl (put l n7 w4)).
  assert (E7 : heap w7 !! l = Some n7) by apply heap_put.
  assert (V7 : view_step w w7).
  { apply (view_step_trans _ w3); [exact V3|].
    apply (view_step_trans _ w4); [now apply cache_step_view_step|].
    apply (put_view_step l _ n7 w4 E4). reflexivity. }
  assert (O7 : others_kept l w w7).
  { apply (others_kept_trans _ _ w3); [apply put_others_kept|].
    apply (others_kept_trans _ _ w4); [now apply cache_step_others_kept|].
    apply put_others_kept. }
  (* the order of the children *)
  step (read_run _ _ _ E7).
  assert (RT : recalculationType n7 = recalculationType n).
  { unfold n7, n6, n3'. rewrite F3. reflexivity. }
  assert (CH : children n7 = cs).
  { unfold n7, n6, n3'. reflexivity. }
  rewrite RT.
  destruct (has_bit (recalculationType n) 8) eqn:B8; cbn [when].
  - assert (Hs7 : forall c0, In c0 (children n7) ->
                             exists d, (d < fuel)%nat /\ rooted w7 c0 d).
    { intros c0 Hc0. rewrite CH in Hc0. destruct (Hs eq_refl c0 Hc0) as (d & Hd & Rd).
      exists d. split; [exact Hd|]. now apply (rooted_view_step w). }
    destruct (sortChildren_run fuel w7 l n7 E7 Hs7)
      as (w8 & n8 & cs' & H8 & C8 & E8 & Pm & _).
    rewrite (bind_Ok _ _ _ _ _ H8).
    assert (F8 : n8 = n7).
    { destruct C8 as (T8 & _ & _ & K8 & Fr8).
      destruct (Fr8 l n7 r E7) as (n8' & E8' & Hn8).
      - destruct V7 as (T7 & _). rewrite T7. unfold n7, n6, n3'. rewrite F3.
        cbn. apply parent_in_with_parentNode in Hp. exact Hp.
      - reflexivity.
      - assert (n8' = n8) as -> by congruence.
        pose proof (K8 _ (with_parentNode None) (except_cache_blind _) l) as K.
        rewrite E8, E7 in K. apply fmap_Some_eq in K.
        rewrite (cache_refreshed n8 n7 r K Hn8). unfold n7, n6. reflexivity. }
    subst n8.
    rewrite (bind_Ok _ _ _ _ _ (modify_run _ _ _ _ (heap_put _ _ _))).
    rewrite (bind_Ok _ _ _ _ _ (modify_run _ _ _ _ (heap_put _ _ _))).
    rewrite (modify_run _ _ _ _ (heap_put _ _ _)).
    rewrite !put_put.
    eexists _, cs', c, p. split; [reflexivity|].
    split; [rewrite heap_put; unfold flags_cleared, n7, n6, n3'; reflexivity|].
    pose proof (cache_step_others_kept l _ _ C8) as O8.
    assert (N8 : next_loc w8 = nl).
    { destruct C8 as (_ & _ & N8 & _). exact N8. }
    destruct V7 as (T7 & D7 & _). destruct C8 as (T8 & D8 & _).
    split; [cbn; congruence|]. split; [cbn; congruence|].
    split.
    + apply (others_kept_trans _ _ w7); [exact O7|].
      apply (others_kept_trans _ _ w8); [exact O8|].
      apply put_others_kept.
    + split; [now rewrite <- CH|]. split; [discriminate|].
      rewrite <- Ecl. cbn. f_equal. symmetry. exact N8.
  - rewrite ret_bind.
    rewrite (bind_Ok _ _ _ _ _ (modify_run _ _ _ _ E7)).
    rewrite (bind_Ok _ _ _ _ _ (modify_run _ _ _ _ (heap_put _ _ _))).
    rewrite (modify_run _ _ _ _ (heap_put _ _ _)).
    rewrite !put_put.
    eexists _, cs, c, p. split; [reflexivity|].
    split; [rewrite heap_put; unfold flags_cleared, n7, n6, n3'; reflexivity|].
    destruct V7 as (T7 & D7 & _).
    split; [exact T7|]. split; [exact D7|].
    split; [apply (others_kept_trans _ _ w7); [exact O7|]; apply put_others_kept|].
    split; [reflexivity|]. split; [reflexivity|].
    rewrite <- Ecl. reflexivity.
Qed.

(** ** What a call of [update] establishes *)

(** What [update] needs of the world in order to return: the node exists
    and has a local transform (and a scale-rotate matrix when the local
    transform is to be rebuilt from it), the ids of its children are
    registered when the children are to be resolved, the parent getter
    resolves to [r], an existing object, and, when the children are to be
    sorted, the zIndex getter of each child returns within the fuel. *)
Definition updatable (fuel : nat) (w : World) (l : loc) (n : CoreNode)
           (r : option loc) : Prop :=
  heap w !! l = Some n /\
  is_Some (localTransform n) /\
  (has_bit (recalculationType n) 2 = true -> is_Some (scaleRotateTransform n)) /\
  (has_bit (updateMask n) 1 = true ->
   forall k, In k (childrenIds n) -> is_Some (map_get k (_tree w))) /\
  parent_in (_tree w) n = Some r /\
  (forall lp, r = Some lp -> is_Some (heap w !! lp)) /\
  (has_bit (recalculationType n) 8 = true ->
   forall c, In c (children_after w n) -> exists d, (d < fuel)%nat /\ rooted w c d).

Lemma retransformed_defined (n : CoreNode) :
  is_Some (localTransform n) ->
  (has_bit (recalculationType n) 2 = true -> is_Some (scaleRotateTransform n)) ->
  exists n3 lt, retransformed n = Some n3 /\ localTransform n3 = Some lt.
Proof.
  intros [lt0 L] S. unfold retransformed.
  destruct (has_bit (recalculationType n) 2).
  - destruct (S eq_refl) as [sr ->]. cbn [recalculationType with_localTransform].
    destruct (has_bit (recalculationType n) 4); now eexists _, _.
  - destruct (has_bit (recalculationType n) 4); [now eexists _, _|].
    now exists n, lt0.
Qed.

(** The node [update] leaves at [l], field by field. *)
Lemma update_fields (fuel : nat) (w : World) (l : loc) (pcr : option Rect)
      (n : CoreNode) (r : option loc) :
  updatable fuel w l n r ->
  exists w' n' n3 lt,
    update fuel l pcr w = Ok (tt, w') /\ heap w' !! l = Some n' /\
    retransformed n = Some n3 /\
    props n' = props n /\ parentId n' = parentId n /\
    childrenIds n' = childrenIds n /\
    recalculationType n' = 0 /\ updateMask n' = 0 /\ hasUpdates n' = false /\
    parentNode n' = r /\
    scaleRotateTransform n' = scaleRotateTransform n3 /\
    localTransform n' = Some lt /\ localTransform n3 = Some lt /\
    globalTransform n' = Some (composed w r lt) /\
    Permutation (children n') (children_after w n) /\
    (has_bit (recalculationType n) 8 = false -> children n' = children_after w n) /\
    clipped pcr (next_loc w) (with_globalTransform (Some (composed w r lt)) n3)
    = (clippingRect n', parentClippingRect n', next_loc w') /\
    _tree w' = _tree w /\ _dirtyNodes w' = _dirtyNodes w /\ others_kept l w w'.
Proof.
  intros (E & L & S & Hch & Hp & Hpa & Hs).
  destruct (retransformed_defined n L S) as (n3 & lt & R & L3).
  destruct (update_run fuel w l pcr n n3 r lt E L R L3 Hch Hp Hpa Hs)
    as (w' & cs' & c & p & H & E' & T & D & O & Pm & Pe & Cl).
  destruct (retransformed_form n n3 R) as (ltx & srx & F3).
  eexists w', _, n3, lt. split; [exact H|]. split; [exact E'|].
  split; [exact R|]. subst n3. cbn in L3 |- *.
  repeat match goal with |- _ /\ _ => split end;
    try reflexivity; try assumption.
Qed.

Lemma others_kept_lookup (l l' : loc) (w w' : World) (n0 : CoreNode) :
  others_kept l w w' -> l' <> l -> heap w !! l' = Some n0 ->
  exists n0', heap w' !! l' = Some n0' /\
              with_parentNode None n0' = with_parentNode None n0.
Proof.
  intros O Hne E. specialize (O l' Hne). rewrite E in O.
  destruct (heap w' !! l') as [n0'|]; [|discriminate].
  exists n0'. split; [reflexivity|]. now apply fmap_Some_eq in O.
Qed.

(** X1 (CoreNode.update): after [update] of a node whose parent is another
    node that has a global transform, the node's global transform is the
    parent's global transform multiplied by the node's local transform, both
    read after the call. *)
Theorem update_composes_with_parent
        (fuel : nat) (w : World) (l lp : loc) (pcr : option Rect)
        (n pn : CoreNode) (g : Matrix3d) :
  updatable fuel w l n (Some lp) -> lp <> l ->
  heap w !! lp = Some pn -> globalTransform pn = Some g ->
  exists w' n' pn' lt,
    update fuel l pcr w = Ok (tt, w') /\
    heap w' !! l = Some n' /\ heap w' !! lp = Some pn' /\
    globalTransform pn' = Some g /\ localTransform n' = Some lt /\
    globalTransform n' = Some (m_multiply g lt).
Proof.
  intros U Hne Ep G.
  destruct (update_fields fuel w l pcr n (Some lp) U)
    as (w' & n' & n3 & lt & H & E' & _ & _ & _ & _ & _ & _ & _ & _ & _ & L' & _ & G'
        & _ & _ & _ & _ & _ & O).
  destruct (others_kept_lookup l lp w w' pn O Hne Ep) as (pn' & Ep' & V).
  exists w', n', pn', lt.
  split; [exact H|]. split; [exact E'|]. split; [exact Ep'|].
  split; [|split; [exact L'|]].
  - rewrite <- G. exact (f_equal globalTransform V).
  - rewrite G'. unfold composed. now rewrite Ep, G.
Qed.

(** X2 (CoreNode.update): after [update] of a node that has no parent, or
    whose parent has no global transform yet, the node's global transform is
    its local transform. *)
Theorem update_copies_local_transform
        (fuel : nat) (w : World) (l : loc) (pcr : option Rect)
        (n : CoreNode) (r : option loc) :
  updatable fuel w l n r ->
  (forall lp pn, r = Some lp -> heap w !! lp = Some pn -> globalTransform pn = None) ->
  exists w' n' lt,
    update fuel l pcr w = Ok (tt, w') /\ heap w' !! l = Some n' /\
    localTransform n' = Some lt /\ globalTransform n' = Some lt.
Proof.
  intros U Hg.
  destruct (update_fields fuel w l pcr n r U)
    as (w' & n' & n3 & lt & H & E' & _ & _ & _ & _ & _ & _ & _ & _ & _ & L' & _ & G'
        & _).
  exists w', n', lt.
  split; [exact H|]. split; [exact E'|]. split; [exact L'|].
  rewrite G'. unfold composed. destruct r as [lp|]; [|reflexivity].
  destruct (heap w !! lp) as [pn|] eqn:Ep; [|reflexivity].
  now rewrite (Hg lp pn eq_refl Ep).
Qed.

(** ** Lookups and bits after a step *)

Lemma heap_put_dirty_ne l l' i n w :
  l <> l' -> heap (put_dirty l i n w) !! l' = heap w !! l'.
Proof. intros H. cbn. now apply lookup_insert_ne. Qed.

Ltac look :=
  repeat first
    [ rewrite heap_put | rewrite heap_put_dirty
    | rewrite heap_put_ne by congruence
    | rewrite heap_put_dirty_ne by congruence ].

Lemma has_bit_lor_off (m t b : Z) :
  Z.land t b = 0 -> has_bit (Z.lor m t) b = has_bit m b.
Proof.
  intros H. unfold has_bit. now rewrite Z.land_lor_distr_l, H, Z.lor_0_r.
Qed.

(** ** A node under a locked parent *)

Lemma rooted_keeps_parent (w w' : World) (l : loc) (d : nat) :
  _tree w' = _tree w -> keeps (parent_in (_tree w)) w w' ->
  rooted w l d -> rooted w' l d.
Proof.
  intros T K R. induction R as [l n E P|l n lp d E P _ IH].
  - destruct (keeps_lookup _ _ _ _ _ K E) as (n' & E' & P').
    apply (rooted_top _ l n'); [exact E'|]. rewrite T. congruence.
  - destruct (keeps_lookup _ _ _ _ _ K E) as (n' & E' & P').
    apply (rooted_step _ l n' lp); [exact E'| |exact IH]. rewrite T. congruence.
Qed.

(** What the two getters return for a node and its locked parent. *)
Lemma locked_child_zIndex (w : World) (l lp : loc) (n pn : CoreNode) (d fuel : nat) :
  heap w !! l = Some n ->
  parent_in (_tree w) n = Some (Some lp) ->
  heap w !! lp = Some pn ->
  truthy (num_or (nprop (props pn) P_zIndexLocked) zero) = true ->
  rooted w lp d ->
  (S d < fuel)%nat ->
  exists vN vP w1 w2,
    get_zIndex fuel l w = Ok (vN, w1) /\
    get_zIndex fuel lp w1 = Ok (vP, w2) /\
    num_or vP zero = vP /\
    vN = (if nlt (num_or (nprop (props n) P_zIndex) zero) vP
          then num_or (nprop (props n) P_zIndex) zero else vP).
Proof.
  intros E P Ep Hl R Hf.
  destruct (get_zIndex_returns w l (S d) (rooted_step _ _ _ _ _ E P R) fuel w Hf
              (cache_step_refl w)) as (vN & w1 & H1).
  destruct (get_zIndex_sound _ _ _ _ _ H1) as [RN C1].
  destruct (get_zIndex_returns w lp d R fuel w1 ltac:(lia) C1) as (vP & w2 & H2).
  destruct (get_zIndex_sound _ _ _ _ _ H2) as [RP _].
  apply (zIndex_is_cache_step_rev _ _ _ _ C1) in RP.
  exists vN, vP, w1, w2. split; [exact H1|]. split; [exact H2|].
  split; [exact (zIndex_is_normal _ _ _ RP)|].
  inversion RN as [l' n' E' P'|l' n' lp' pn' pz E' P' Ep' Rp']; subst; [congruence|].
  assert (n' = n) as -> by congruence.
  assert (lp' = lp) as -> by congruence.
  assert (pn' = pn) as -> by congruence.
  rewrite (zIndex_is_unique _ _ _ _ Rp' RP). cbv zeta. rewrite Hl.
  now rewrite (zIndex_is_normal _ _ _ RP).
Qed.

(** C6. A node [l] has the parent [lp], whose [zIndexLocked] is set.
    Whatever value [v] is assigned to the zIndex of [l], afterwards the
    zIndex getter of [l] returns at most what the zIndex getter of [lp]
    returns: it returns [v || 0] when that is smaller than the parent's
    result, and the parent's result otherwise.  The assignment and both
    getters return when [lp] is at depth [d] below a parentless node and
    the fuel exceeds [d + 1]. *)
Theorem zIndex_of_locked_child_at_most_parent
        (w : World) (l lp : loc) (n pn : CoreNode) (d fuel : nat) (v : num) :
  heap w !! l = Some n ->
  parent_in (_tree w) n = Some (Some lp) ->
  heap w !! lp = Some pn ->
  truthy (num_or (nprop (props pn) P_zIndexLocked) zero) = true ->
  rooted w lp d ->
  (S d < fuel)%nat ->
  exists w0 vN vP w1 w2,
    set_zIndex l v w = Ok (tt, w0) /\
    get_zIndex fuel l w0 = Ok (vN, w1) /\
    get_zIndex fuel lp w1 = Ok (vP, w2) /\
    nle vN vP = true /\
    vN = (if nlt (num_or v zero) vP then num_or v zero else vP).
Proof.
  intros E P Ep Hl R Hf.
  set (n0 := flagged 8 (with_props (with_nprop P_zIndex v) n)).
  set (w0 := put_dirty l (id (props n)) n0 w).
  assert (H0 : set_zIndex l v w = Ok (tt, w0)).
  { unfold set_zIndex, plain_setter, store_prop.
    rewrite (bind_Ok _ _ _ _ _ (modify_run _ _ _ _ E)).
    rewrite (setRecalculationType_run l 8 _ _ (heap_put _ _ _)).
    now rewrite put_dirty_put. }
  assert (E0 : heap w0 !! l = Some n0) by apply heap_put_dirty.
  assert (P0 : parent_in (_tree w) n0 = parent_in (_tree w) n) by reflexivity.
  assert (K : keeps (parent_in (_tree w)) w w0).
  { intros l'. unfold w0. cbn [heap put_dirty].
    destruct (decide (l = l')) as [<-|Hne].
    - rewrite lookup_insert_eq, E. cbn. now rewrite P0.
    - now rewrite lookup_insert_ne. }
  assert (Ep0 : exists pn0, heap w0 !! lp = Some pn0 /\
                            nprop (props pn0) P_zIndexLocked = nprop (props pn) P_zIndexLocked).
  { unfold w0. cbn [heap put_dirty]. destruct (decide (l = lp)) as [<-|Hne].
    - exists n0. rewrite lookup_insert_eq. split; [reflexivity|].
      assert (pn = n) as -> by congruence. reflexivity.
    - exists pn. rewrite lookup_insert_ne by exact Hne. now split. }
  destruct Ep0 as (pn0 & Ep0 & L0).
  destruct (locked_child_zIndex w0 l lp n0 pn0 d fuel E0 P Ep0) as
    (vN & vP & w1 & w2 & H1 & H2 & Nm & V).
  - now rewrite L0.
  - exact (rooted_keeps_parent w w0 lp d eq_refl K R).
  - exact Hf.
  - exists w0, vN, vP, w1, w2.
    split; [exact H0|]. split; [exact H1|]. split; [exact H2|].
    assert (Z : nprop (props n0) P_zIndex = v) by apply nprop_with_nprop.
    rewrite Z in V. split; [|exact V].
    rewrite V. now apply nle_min_self.
Qed.

(** ** A parent that has lost its only child *)

(** The node [c], which has no parent, becomes a child of the node [a]. *)
Lemma set_parent_adopts (w : World) (a c : loc) (na nc : CoreNode) :
  heap w !! a = Some na -> heap w !! c = Some nc -> a <> c ->
  parentId nc = None ->
  exists w1,
    set_parent c (Some a) w = Ok (tt, w1) /\
    heap w1 !! a
    = Some (children_flag
              (with_hasUpdates true
                 (with_childrenIds (childrenIds na ++ [id (props nc)]) na))) /\
    heap w1 !! c
    = Some (flagged 8 (with_parentNode (Some a)
                         (with_parentId (Some (id (props na))) nc))) /\
    _tree w1 = _tree w /\
    (forall l, l <> a -> l <> c -> heap w1 !! l = heap w !! l).
Proof.
  intros Ea Ec Hne Hp. unfold set_parent.
  step (read_run _ _ _ Ec). step (read_run _ _ _ Ea).
  rewrite Hp. cbn [id_truthy when]. norm.
  step (modify_run _ _ _ _ Ec).
  assert (E1 : heap (put c (with_parentId (Some (id (props na))) nc) w) !! a = Some na)
    by (look; exact Ea).
  step (modify_run _ _ _ _ E1).
  step (setHasUpdates_run a _ _ (heap_put _ _ _)).
  step (setChildrenHasUpdates_run a _ _ (heap_put_dirty _ _ _ _)).
  match goal with |- context [bind (modify _ _) _ ?W] =>
    assert (E2 : heap W !! c = Some (with_parentId (Some (id (props na))) nc))
      by (look; reflexivity)
  end.
  step (modify_run _ _ _ _ E2).
  rewrite (setRecalculationType_run c 8 _ _ (heap_put _ _ _)).
  eexists. split; [reflexivity|].
  split; [look; reflexivity|]. split; [look; reflexivity|].
  split; [reflexivity|]. intros l Ha Hc. look. reflexivity.
Qed.

(** The node [c], a child of the registered node [a], is given the parent
    [to], which is [null] or a node other than [a] and [c]. *)
Lemma set_parent_releases (w : World) (a c : loc) (na nc : CoreNode) (ia : Z)
      (to : option loc) :
  heap w !! a = Some na -> heap w !! c = Some nc -> a <> c ->
  parentId nc = Some ia -> ia <> 0 -> map_get ia (_tree w) = Some a ->
  (forall b, to = Some b ->
             b <> a /\ b <> c /\
             exists nb, heap w !! b = Some nb /\ id (props nb) <> ia) ->
  exists w2,
    set_parent c to w = Ok (tt, w2) /\
    heap w2 !! a
    = Some (children_flag
              (with_hasUpdates true
                 (with_childrenIds
                    (List.filter (fun i => negb (i =? id (props nc))) (childrenIds na))
                    na))) /\
    _tree w2 = _tree w /\
    (forall l, is_Some (heap w !! l) -> is_Some (heap w2 !! l)).
Proof.
  intros Ea Ec Hne Hp Hz Hr Hto. unfold set_parent.
  step (read_run _ _ _ Ec).
  assert (T : id_truthy (Some ia) = true).
  { cbn. destruct (ia =? 0) eqn:Z; [apply Z.eqb_eq in Z; congruence|reflexivity]. }
  destruct to as [b|].
  - destruct (Hto b eq_refl) as (Hba & Hbc & nb & Eb & Hib).
    step (read_run _ _ _ Eb). rewrite Hp.
    destruct (ia =? id (props nb)) eqn:Q; [apply Z.eqb_eq in Q; congruence|].
    rewrite T. cbn [when].
    step (tree_get_registered _ _ _ Hr). cbn [assertTruthy]. norm.
    step (modify_run _ _ _ _ Ea).
    step (setHasUpdates_run a _ _ (heap_put _ _ _)).
    step (setChildrenHasUpdates_run a _ _ (heap_put_dirty _ _ _ _)).
    match goal with |- context [bind (modify _ _) _ ?W] =>
      assert (E1 : heap W !! c = Some nc) by (look; exact Ec)
    end.
    step (modify_run _ _ _ _ E1).
    match goal with |- context [bind (modify _ _) _ ?W] =>
      assert (E2 : heap W !! b = Some nb) by (look; exact Eb)
    end.
    step (modify_run _ _ _ _ E2).
    step (setHasUpdates_run b _ _ (heap_put _ _ _)).
    step (setChildrenHasUpdates_run b _ _ (heap_put_dirty _ _ _ _)).
    match goal with |- context [bind (modify _ _) _ ?W] =>
      assert (E3 : heap W !! c = Some (with_parentId (Some (id (props nb))) nc))
        by (look; reflexivity)
    end.
    step (modify_run _ _ _ _ E3).
    rewrite (setRecalculationType_run c 8 _ _ (heap_put _ _ _)).
    eexists. split; [reflexivity|].
    split; [look; reflexivity|]. split; [reflexivity|].
    intros l Hl.
    destruct (decide (l = c)) as [->|Hc]; [look; eauto|].
    destruct (decide (l = b)) as [->|Hb]; [look; eauto|].
    destruct (decide (l = a)) as [->|Ha]; [look; eauto|].
    look. exact Hl.
  - norm. rewrite Hp, T. cbn [when].
    step (tree_get_registered _ _ _ Hr). cbn [assertTruthy]. norm.
    step (modify_run _ _ _ _ Ea).
    step (setHasUpdates_run a _ _ (heap_put _ _ _)).
    step (setChildrenHasUpdates_run a _ _ (heap_put_dirty _ _ _ _)).
    match goal with |- context [bind (modify _ _) _ ?W] =>
      assert (E1 : heap W !! c = Some nc) by (look; exact Ec)
    end.
    step (modify_run _ _ _ _ E1).
    step (modify_run _ _ _ _ (heap_put _ _ _)).
    rewrite (setRecalculationType_run c 8 _ _ (heap_put _ _ _)).
    eexists. split; [reflexivity|].
    split; [look; reflexivity|]. split; [reflexivity|].
    intros l Hl.
    destruct (decide (l = c)) as [->|Hc]; [look; eauto|].
    destruct (decide (l = a)) as [->|Ha]; [look; eauto|].
    look. exact Hl.
Qed.

(** C10. [tree.getNodes] returns every registered node, in registration
    order, for an empty and for an undefined list of ids.  Consequently: let
    the node [a] have no children, let the node [c], which has no parent,
    become a child of [a] and then be given another parent ([null], or a
    node other than [a] and [c]) before [a] is updated.  Then [a] has no
    children ids but still has bit 1 of its update mask set, and [update] of
    [a] leaves every registered node in its [children], [a] itself and [c]
    included.  The three calls return when [a] is registered under its id,
    which is not 0, has its local transform (and its scale-rotate matrix when
    the local transform is to be rebuilt), has no sort of the children
    pending, and has a parent getter that resolves. *)
Theorem update_adopts_every_registered_node
        (fuel : nat) (w : World) (a c : loc) (na nc : CoreNode)
        (to r : option loc) (pcr : option Rect) :
  heap w !! a = Some na -> heap w !! c = Some nc -> a <> c ->
  childrenIds na = [] -> parentId nc = None ->
  id (props na) <> 0 -> map_get (id (props na)) (_tree w) = Some a ->
  (forall b, to = Some b ->
             b <> a /\ b <> c /\
             exists nb, heap w !! b = Some nb /\ id (props nb) <> id (props na)) ->
  is_Some (localTransform na) ->
  (has_bit (recalculationType na) 2 = true -> is_Some (scaleRotateTransform na)) ->
  has_bit (recalculationType na) 8 = false ->
  parent_in (_tree w) na = Some r ->
  (forall lp, r = Some lp -> is_Some (heap w !! lp)) ->
  tree_getNodes (Some []) w = Ok (map_values (_tree w), w) /\
  tree_getNodes None w = Ok (map_values (_tree w), w) /\
  exists w1 w2 w3 na2 na3,
    set_parent c (Some a) w = Ok (tt, w1) /\
    set_parent c to w1 = Ok (tt, w2) /\
    heap w2 !! a = Some na2 /\
    childrenIds na2 = [] /\ has_bit (updateMask na2) 1 = true /\
    update fuel a pcr w2 = Ok (tt, w3) /\
    heap w3 !! a = Some na3 /\
    children na3 = map_values (_tree w) /\
    _tree w3 = _tree w.
Proof.
  intros Ea Ec Hne Hc Hp Hz Hr Hto Hl Hs H8 Hpa Hpe.
  split; [reflexivity|]. split; [reflexivity|].
  destruct (set_parent_adopts w a c na nc Ea Ec Hne Hp) as (w1 & H1 & Ea1 & Ec1 & T1 & O1).
  set (na1 := children_flag _) in Ea1. set (nc1 := flagged 8 _) in Ec1.
  assert (Hp1 : parentId nc1 = Some (id (props na))).
  { unfold nc1. now rewrite (proj_flagged parentId). }
  assert (I1 : id (props nc1) = id (props nc)).
  { unfold nc1. now destruct (flagged_fields 8 (with_parentNode (Some a)
                     (with_parentId (Some (id (props na))) nc))) as (_ & _ & ->). }
  assert (D1 : forall l, is_Some (heap w !! l) -> is_Some (heap w1 !! l)).
  { intros l Hsome.
    destruct (decide (l = a)) as [->|Ha]; [rewrite Ea1; eauto|].
    destruct (decide (l = c)) as [->|Hcc]; [rewrite Ec1; eauto|].
    now rewrite O1. }
  destruct (set_parent_releases w1 a c na1 nc1 (id (props na)) to Ea1 Ec1 Hne Hp1 Hz)
    as (w2 & H2 & Ea2 & T2 & D2).
  { now rewrite T1. }
  { intros b Hb. destruct (Hto b Hb) as (Hba & Hbc & nb & Eb & Hib).
    split; [exact Hba|]. split; [exact Hbc|]. exists nb.
    split; [|exact Hib]. now rewrite O1. }
  set (na2 := children_flag _) in Ea2.
  assert (N2 : na2 = with_hasUpdates true
                       (with_childrenIds []
                          (with_updateMask (Z.lor (updateMask na) 1)
                             (with_hasUpdates true
                                (with_childrenIds [id (props nc)] na))))).
  { unfold na2, na1, children_flag. rewrite I1, Hc.
    cbn. now rewrite Z.eqb_refl. }
  assert (U : updatable fuel w2 a na2 r).
  { split; [exact Ea2|]. rewrite N2. cbn.
    split; [exact Hl|]. split; [exact Hs|].
    split; [intros _ k []|].
    split.
    { rewrite T2, T1. unfold parent_in in *.
      cbn [updateMask parentId parentNode with_hasUpdates with_childrenIds with_updateMask].
      now rewrite (has_bit_lor_off _ 1 2 eq_refl). }
    split; [intros lp Hlp; apply D2, D1; now apply Hpe|].
    intros X. congruence. }
  destruct (update_fields fuel w2 a pcr na2 r U)
    as (w3 & na3 & n3 & lt & H3 & Ea3 & F).
  do 13 apply proj2 in F. destruct F as (Pe & _ & T3 & _).
  exists w1, w2, w3, na2, na3.
  split; [exact H1|]. split; [exact H2|]. split; [exact Ea2|].
  assert (B1 : has_bit (updateMask na2) 1 = true).
  { rewrite N2. cbn. now apply has_bit_lor. }
  split; [now rewrite N2|]. split; [exact B1|].
  split; [exact H3|]. split; [exact Ea3|].
  split; [|now rewrite T3, T2, T1].
  rewrite Pe.
  - unfold children_after. rewrite B1. rewrite N2. cbn. now rewrite T2, T1.
  - rewrite N2. exact H8.
Qed.

(** ** Assignments before an update *)

















(** X3 (CoreNode.update, updateLocalTransform, updateScaleRotateTransform):
    [update] never changes the properties of the node.  With bit 4 of the
    recalculation type set it rebuilds the scale-rotate matrix from rotation
    and scale and the local transform from that matrix; with bit 2 alone it
    rebuilds the local transform from the stored scale-rotate matrix, which
    it leaves as it is; with neither bit it keeps both matrices. *)
Theorem update_recomputes_transforms
        (fuel : nat) (w : World) (l : loc) (pcr : option Rect)
        (n : CoreNode) (r : option loc) :
  updatable fuel w l n r ->
  exists w' n',
    update fuel l pcr w = Ok (tt, w') /\ heap w' !! l = Some n' /\
    props n' = props n /\
    (has_bit (recalculationType n) 4 = true ->
     scaleRotateTransform n' = Some (scale_rotate_matrix n') /\
     localTransform n' = Some (local_matrix (scale_rotate_matrix n') n')) /\
    (has_bit (recalculationType n) 4 = false ->
     scaleRotateTransform n' = scaleRotateTransform n /\
     (has_bit (recalculationType n) 2 = true ->
      forall sr, scaleRotateTransform n = Some sr ->
                 localTransform n' = Some (local_matrix sr n')) /\
     (has_bit (recalculationType n) 2 = false ->
      localTransform n' = localTransform n)).
Proof.
  intros U.
  destruct (update_fields fuel w l pcr n r U)
    as (w' & n' & n3 & lt & H & E' & R & P' & _ & _ & _ & _ & _ & _ & S' & L' & L3 & _).
  exists w', n'.
  split; [exact H|]. split; [exact E'|]. split; [exact P'|].
  rewrite S', L', <- L3. unfold scale_rotate_matrix, local_matrix. rewrite P'.
  clear - R. unfold retransformed in R.
  destruct (has_bit (recalculationType n) 2).
  - destruct (scaleRotateTransform n) as [sr|] eqn:S; [|discriminate].
    cbn [recalculationType with_localTransform] in R.
    destruct (has_bit (recalculationType n) 4); injection R as <-; cbn.
    + split; [intros _; split; reflexivity|discriminate].
    + split; [discriminate|]. intros _. split; [exact S|].
      split; [|discriminate]. intros _ sr' [= <-]. reflexivity.
  - destruct (has_bit (recalculationType n) 4); injection R as <-; cbn.
    + split; [intros _; split; reflexivity|discriminate].
    + split; [discriminate|]. intros _. split; [reflexivity|].
      split; [discriminate|reflexivity].
Qed.

(** X4 (CoreNode.update): [update] ends with the node's recalculation type
    and update mask 0 and its [hasUpdates] flag false, the parent cache
    holding what the parent getter returned; it leaves the node's parent id
    and children ids, the registry and the set of dirty nodes as they are: a
    dirty node stays in the dirty set until the set is cleared. *)
Theorem update_resets_flags
        (fuel : nat) (w : World) (l : loc) (pcr : option Rect)
        (n : CoreNode) (r : option loc) :
  updatable fuel w l n r ->
  exists w' n',
    update fuel l pcr w = Ok (tt, w') /\ heap w' !! l = Some n' /\
    recalculationType n' = 0 /\ updateMask n' = 0 /\ hasUpdates n' = false /\
    parentNode n' = r /\
    parentId n' = parentId n /\ childrenIds n' = childrenIds n /\
    _tree w' = _tree w /\ _dirtyNodes w' = _dirtyNodes w.
Proof.
  intros U.
  destruct (update_fields fuel w l pcr n r U)
    as (w' & n' & n3 & lt & H & E' & _ & _ & Pi & Ci & Rt & Um & Hu & Pn & _ & _ & _ & _
        & _ & _ & _ & T & D & _).
  exists w', n'. repeat match goal with |- _ /\ _ => split end; assumption.
Qed.

(** X5 (CoreNode.update): [update] of a node changes no other node, except
    that the parent cache of a child may be refreshed when the children are
    sorted: every other object keeps all its other fields. *)
Theorem update_leaves_other_nodes
        (fuel : nat) (w : World) (l l' : loc) (pcr : option Rect)
        (n n0 : CoreNode) (r : option loc) :
  updatable fuel w l n r -> l' <> l -> heap w !! l' = Some n0 ->
  exists w' n0',
    update fuel l pcr w = Ok (tt, w') /\ heap w' !! l' = Some n0' /\
    with_parentNode None n0' = with_parentNode None n0.
Proof.
  intros U Hne E0.
  destruct (update_fields fuel w l pcr n r U)
    as (w' & n' & n3 & lt & H & _ & _ & _ & _ & _ & _ & _ & _ & _ & _ & _ & _ & _
        & _ & _ & _ & _ & _ & O).
  destruct (others_kept_lookup l l' w w' n0 O Hne E0) as (n0' & E0' & V).
  now exists w', n0'.
Qed.


(** X6 (CoreNode.update, tree.getNodes): [update] resolves the children of
    a node only when they are stale (bit 1 of the update mask); otherwise the
    [children] array keeps its nodes.  With children ids it then holds the
    registered node of each id, in the order of the ids; with an empty list
    of children ids it holds every registered node, in registration order.
    When the children are sorted in the same call the array is a permutation
    of these nodes. *)
Theorem update_resolves_children
        (fuel : nat) (w : World) (l : loc) (pcr : option Rect)
        (n : CoreNode) (r : option loc) :
  updatable fuel w l n r ->
  exists w' n' cs,
    update fuel l pcr w = Ok (tt, w') /\ heap w' !! l = Some n' /\
    Permutation (children n') cs /\
    (has_bit (recalculationType n) 8 = false -> children n' = cs) /\
    (has_bit (updateMask n) 1 = false -> cs = children n) /\
    (has_bit (updateMask n) 1 = true -> ~ (childrenIds n = []) ->
     Forall2 (fun i c => map_get i (_tree w) = Some c) (childrenIds n) cs) /\
    (has_bit (updateMask n) 1 = true -> childrenIds n = [] ->
     cs = map_values (_tree w)).
Proof.
  intros U.
  destruct (update_fields fuel w l pcr n r U)
    as (w' & n' & n3 & lt & H & E' & _ & _ & _ & _ & _ & _ & _ & _ & _ & _ & _ & _
        & Pm & Pe & _).
  exists w', n', (children_after w n).
  split; [exact H|]. split; [exact E'|]. split; [exact Pm|]. split; [exact Pe|].
  destruct U as (_ & _ & _ & Hch & _).
  unfold children_after. destruct (has_bit (updateMask n) 1).
  - split; [discriminate|]. split.
    + intros _ Hne.
      destruct (childrenIds n) as [|i ids] eqn:C; [congruence|].
      cbn [resolve_ids]. apply registered_Forall2. exact (Hch eq_refl).
    + intros _ ->. reflexivity.
  - split; [reflexivity|]. split; discriminate.
Qed.

Lemma tree_getNodes_unregistered (w : World) (pre post : list Z) (k : Z) (ls : list loc) :
  Forall2 (fun i l => map_get i (_tree w) = Some l) pre ls ->
  map_get k (_tree w) = None ->
  tree_getNodes (Some (pre ++ k :: post)) w = Fault (NodeNotFound k).
Proof.
  intros Hpre Hk.
  pose proof (mapM_tree_get_unregistered w pre post k ls Hpre Hk) as E.
  unfold tree_getNodes. destruct (pre ++ k :: post) as [|i r] eqn:El.
  - destruct pre; discriminate.
  - unfold bind. now rewrite E.
Qed.

(** X7 (CoreNode.update, tree.get, tree.remove): [update] of a node with
    stale children faults with "Node <id> not found" for the first of its
    children ids that is not registered, as after [tree.remove] of a child
    that was not detached from its parent. *)
Theorem update_faults_on_unregistered_child
        (fuel : nat) (w : World) (l : loc) (pcr : option Rect) (n : CoreNode)
        (pre post : list Z) (k : Z) (ls : list loc) :
  heap w !! l = Some n -> is_Some (localTransform n) ->
  has_bit (updateMask n) 1 = true ->
  childrenIds n = pre ++ k :: post ->
  Forall2 (fun i c => map_get i (_tree w) = Some c) pre ls ->
  map_get k (_tree w) = None ->
  update fuel l pcr w = Fault (NodeNotFound k).
Proof.
  intros E [lt L] B C Hpre Hk. unfold update.
  rewrite (bind_Ok _ _ _ _ _ (read_run _ _ _ E)).
  rewrite L. cbn [assertTruthy]. rewrite ret_bind.
  unfold bind at 1. unfold bind at 1. rewrite (read_run _ _ _ E).
  rewrite B. cbn [when]. unfold bind at 1.
  now rewrite C, (tree_getNodes_unregistered w pre post k ls Hpre Hk).
Qed.

(** ** The clipping rectangle *)

Lemma with_next_loc_twice (a b : loc) (w : World) :
  with_next_loc a (with_next_loc b w) = with_next_loc a w.
Proof. reflexivity. Qed.

Lemma same_rect_refl (r : option Rect) : same_rect r r = true.
Proof. destruct r as [r|]; [apply Pos.eqb_refl|reflexivity]. Qed.

(** The world [calculateClippingRect] leaves and the node it leaves at [l]. *)
Lemma calculateClippingRect_fields (w : World) (l : loc) (n : CoreNode) (pcr : option Rect) :
  heap w !! l = Some n ->
  exists w1 n1,
    calculateClippingRect l pcr w = Ok (tt, w1) /\ heap w1 !! l = Some n1 /\
    clipped pcr (next_loc w) n = (clippingRect n1, parentClippingRect n1, next_loc w1) /\
    n1 = with_clippingRect (clippingRect n1)
           (with_parentClippingRect (parentClippingRect n1) n) /\
    w1 = with_next_loc (next_loc w1) (put l n1 w).
Proof.
  intros E. rewrite (calculateClippingRect_run w l n pcr E).
  destruct (clipped pcr (next_loc w) n) as [[c p] nl].
  eexists _, _. split; [reflexivity|]. split; [apply heap_put|].
  split; [reflexivity|]. split; reflexivity.
Qed.

(** X9 (CoreNode.calculateClippingRect): the method is idempotent: called
    again with the same parent rectangle it changes nothing and creates no
    rectangle. *)
Theorem calculateClippingRect_idempotent
        (w : World) (l : loc) (n : CoreNode) (pcr : option Rect) :
  heap w !! l = Some n ->
  exists w1,
    calculateClippingRect l pcr w = Ok (tt, w1) /\
    calculateClippingRect l pcr w1 = Ok (tt, w1).
Proof.
  intros E.
  destruct (calculateClippingRect_fields w l n pcr E) as (w1 & n1 & H & E1 & C & F & W).
  exists w1. split; [exact H|].
  rewrite (calculateClippingRect_run w1 l n1 pcr E1).
  assert (C1 : clipped pcr (next_loc w1) n1
               = (clippingRect n1, parentClippingRect n1, next_loc w1)).
  { revert C. rewrite F at 2 3. unfold clipped, own_rect.
    cbn [globalTransform props clippingRect parentClippingRect
         with_clippingRect with_parentClippingRect].
    destruct (globalTransform n) as [gt|]; [|now intros [= <- <- <-]].
    destruct (clipping (props n)) eqn:Cl; cbn [negb andb].
    - destruct (same_rect (parentClippingRect n) pcr
                && bool_decide (is_Some (clippingRect n))) eqn:K.
      + intros [= <- <- <-]. now rewrite K.
      + destruct (negb (negb (strict_eq (tb gt) zero) || negb (strict_eq (tc gt) zero))),
          pcr as [pr|].
        * destruct (intersectRect _ _) as [[[x y] w'] h].
          intros [= <- <- <-]. cbn. now rewrite Pos.eqb_refl.
        * intros [= <- <- <-]. reflexivity.
        * intros [= <- <- <-]. cbn. now rewrite Pos.eqb_refl.
        * intros [= <- <- <-]. reflexivity.
    - destruct pcr as [pr|]; cbn [bool_decide].
      + rewrite !bool_decide_eq_true_2 by eauto. cbn [negb].
        destruct (same_rect (parentClippingRect n) (Some pr)
                  && bool_decide (is_Some (clippingRect n))) eqn:K.
        * intros [= <- <- <-]. now rewrite K.
        * intros [= <- <- <-]. cbn. now rewrite Pos.eqb_refl.
      + rewrite !bool_decide_eq_false_2 by (intros [? ?]; discriminate). cbn [negb].
        now intros [= <- <- <-]. }
  rewrite C1. cbn iota beta. rewrite with_clip_self, put_same by exact E1.
  now rewrite with_next_loc_same.
Qed.

(** X10 (CoreNode.calculateClippingRect): for a clipping node with a global
    transform, called with a parent rectangle other than the cached one or
    while the node has no rectangle: an unrotated node (tb and tc are 0) gets
    the rectangle at (tx, ty) of size (width * ta, height * td), intersected
    with the parent rectangle when there is one; a rotated node gets no
    rectangle of its own and takes the parent rectangle, or none. *)
Theorem calculateClippingRect_of_clipping_node
        (w : World) (l : loc) (n : CoreNode) (gt : Matrix3d) (pcr : option Rect) :
  heap w !! l = Some n -> globalTransform n = Some gt ->
  clipping (props n) = true ->
  same_rect (parentClippingRect n) pcr && bool_decide (is_Some (clippingRect n)) = false ->
  exists w1 n1,
    calculateClippingRect l pcr w = Ok (tt, w1) /\ heap w1 !! l = Some n1 /\
    parentClippingRect n1 = pcr /\
    let own := (tx gt, ty gt, nmul (nprop (props n) P_width) (ta gt),
                nmul (nprop (props n) P_height) (td gt)) in
    if strict_eq (tb gt) zero && strict_eq (tc gt) zero then
      exists r, clippingRect n1 = Some r /\
                rect_fields r = match pcr with
                                | Some pr => intersectRect (rect_fields pr) own
                                | None => own
                                end
    else clippingRect n1 = pcr.
Proof.
  intros E G Cl K.
  destruct (calculateClippingRect_fields w l n pcr E) as (w1 & n1 & H & E1 & C & _).
  exists w1, n1. split; [exact H|]. split; [exact E1|].
  revert C. unfold clipped, own_rect. rewrite G, Cl, K. cbn [negb andb].
  destruct (strict_eq (tb gt) zero), (strict_eq (tc gt) zero), pcr as [pr|];
    cbn [negb orb andb];
    try (intros [= <- <- _]; split; reflexivity).
  - destruct (intersectRect _ _) as [[[x y] w'] h].
    intros [= <- <- _]. split; [reflexivity|]. cbv zeta.
    eexists. split; reflexivity.
  - intros [= <- <- _]. split; [reflexivity|]. cbv zeta.
    eexists. split; reflexivity.
Qed.

(** X11 (CoreNode.calculateClippingRect): a node that does not clip takes
    the rectangle it is called with: the parent rectangle itself, the same
    object, when it is not the cached one, and none when there is none; the
    call creates no rectangle. *)
Theorem calculateClippingRect_of_plain_node
        (w : World) (l : loc) (n : CoreNode) (pcr : option Rect) :
  heap w !! l = Some n -> is_Some (globalTransform n) ->
  clipping (props n) = false ->
  same_rect (parentClippingRect n) pcr && bool_decide (is_Some (clippingRect n)) = false
  \/ pcr = None ->
  exists w1 n1,
    calculateClippingRect l pcr w = Ok (tt, w1) /\ heap w1 !! l = Some n1 /\
    clippingRect n1 = pcr /\ next_loc w1 = next_loc w.
Proof.
  intros E [gt G] Cl K.
  destruct (calculateClippingRect_fields w l n pcr E) as (w1 & n1 & H & E1 & C & _).
  exists w1, n1. split; [exact H|]. split; [exact E1|].
  revert C. unfold clipped, own_rect. rewrite G, Cl. cbn [negb andb].
  destruct pcr as [pr|].
  - destruct K as [K|K]; [|discriminate]. rewrite K.
    rewrite bool_decide_eq_true_2 by eauto. cbn [negb].
    now intros [= <- _ <-].
  - rewrite bool_decide_eq_false_2 by (intros [? ?]; discriminate). cbn [negb].
    now intros [= <- _ <-].
Qed.

(** X8 (CoreNode.update, CoreNode.calculateClippingRect): once a node has a
    clipping rectangle, [update] with the same parent rectangle keeps it,
    whatever the global transform of the node has become: the rectangle of a
    clipping node does not follow the node when it moves or is resized. *)
Theorem update_keeps_cached_clipping_rect
        (fuel : nat) (w : World) (l : loc) (pcr : option Rect)
        (n : CoreNode) (r : option loc) :
  updatable fuel w l n r ->
  is_Some (clippingRect n) -> same_rect (parentClippingRect n) pcr = true ->
  clipping (props n) = true \/ is_Some pcr ->
  exists w' n',
    update fuel l pcr w = Ok (tt, w') /\ heap w' !! l = Some n' /\
    clippingRect n' = clippingRect n /\
    parentClippingRect n' = parentClippingRect n.
Proof.
  intros U Hc Hs Hk.
  destruct (update_fields fuel w l pcr n r U)
    as (w' & n' & n3 & lt & H & E' & R & _ & _ & _ & _ & _ & _ & _ & _ & _ & _ & _
        & _ & _ & C & _).
  exists w', n'. split; [exact H|]. split; [exact E'|].
  destruct (retransformed_form n n3 R) as (ltx & srx & ->).
  revert C. unfold clipped.
  cbn [globalTransform props clippingRect parentClippingRect
       with_globalTransform with_localTransform with_scaleRotateTransform].
  rewrite Hs. rewrite (bool_decide_eq_true_2 _ Hc). cbn [andb].
  assert (B : negb (clipping (props n)) && negb (bool_decide (is_Some pcr)) = false).
  { destruct Hk as [-> | Hp]; [reflexivity|].
    rewrite (bool_decide_eq_true_2 _ Hp). apply andb_false_r. }
  rewrite B. now intros [= <- <- _].
Qed.

(** ** The order of the children *)

Lemma mapM_zIndex_values (fuel : nat) (w : World) (cs : list loc) :
  (forall c, In c cs -> exists d, (d < fuel)%nat /\ rooted w c d) ->
  forall w1, cache_step w w1 ->
    exists keyed w2,
      mapM (fun c => let* z := get_zIndex fuel c in ret (z, c)) cs w1 = Ok (keyed, w2) /\
      cache_step w w2 /\ map snd keyed = cs /\
      Forall (fun e => zIndex_is w (snd e) (fst e)) keyed.
Proof.
  induction cs as [|c cs IH]; intros H w1 C; cbn [mapM].
  - exists [], w1. split; [reflexivity|]. split; [exact C|]. split; [reflexivity|constructor].
  - destruct (H c (or_introl eq_refl)) as (d & Hd & R).
    destruct (get_zIndex_returns w c d R fuel w1 Hd C) as (z & w2 & H2).
    destruct (get_zIndex_sound _ _ _ _ _ H2) as [Z2 C2].
    apply (zIndex_is_cache_step_rev _ _ _ _ C) in Z2.
    destruct (IH (fun c' Hc' => H c' (or_intror Hc')) w2 (cache_step_trans _ _ _ C C2))
      as (keyed & w3 & H3 & C3 & M & F).
    exists ((z, c) :: keyed), w3. step H2. step H3.
    split; [reflexivity|]. split; [exact C3|]. split; [cbn; now rewrite M|].
    constructor; [exact Z2|exact F].
Qed.

(** No entry stands in front of one that the comparator puts before it. *)
Fixpoint in_order (s : list (num * loc)) : Prop :=
  match s with
  | [] => True
  | e :: r => match r with
              | [] => True
              | e' :: _ => zIndex_before (fst e') (fst e) = false
              end /\ in_order r
  end.

Lemma stable_sort_in_order (s : list (num * loc)) : in_order s -> stable_sort s = s.
Proof.
  induction s as [|e s IH]; [reflexivity|]. intros [H1 H2].
  cbn [stable_sort fold_right]. fold (stable_sort s). rewrite (IH H2).
  destruct s as [|e' s]; [reflexivity|]. cbn [insert_sorted]. now rewrite H1.
Qed.

(** [zIndex_ascending w cs]: of two children that stand next to each other
    the second does not have the smaller zIndex: with [z] the zIndex of the
    first and [z'] that of the second, [z' - z < 0] is false. *)
Definition zIndex_ascending (w : World) (cs : list loc) : Prop :=
  forall i c c' z z',
    cs !! i = Some c -> cs !! S i = Some c' ->
    zIndex_is w c z -> zIndex_is w c' z' ->
    nlt (nsub z' z) zero = false.

Lemma value_of_zIndex (fuel : nat) (w : World) (c : loc) (z : num) (d : nat) :
  rooted w c d -> (d < fuel)%nat -> zIndex_is w c z ->
  value_of (get_zIndex fuel c) w = Some z.
Proof.
  intros R Hd Z.
  destruct (get_zIndex_returns w c d R fuel w Hd (cache_step_refl w)) as (z' & w' & H).
  destruct (get_zIndex_sound _ _ _ _ _ H) as [Z' _].
  unfold value_of. rewrite H. f_equal. exact (zIndex_is_unique _ _ _ _ Z' Z).
Qed.

Lemma ascending_in_order (w : World) (keyed : list (num * loc)) :
  Forall (fun e => zIndex_is w (snd e) (fst e)) keyed ->
  zIndex_ascending w (map snd keyed) -> in_order keyed.
Proof.
  induction keyed as [|[z c] keyed IH]; intros F O; [exact I|].
  apply Forall_cons in F as [Z F].
  split; [|apply IH; [exact F|]; intros i; exact (O (S i))].
  destruct keyed as [|[z' c'] keyed]; [exact I|].
  apply Forall_cons in F as [Z' _]. cbn [map snd fst] in *.
  exact (O 0%nat c c' z z' eq_refl eq_refl Z Z').
Qed.

Lemma in_order_ascending (w : World) (keyed : list (num * loc)) :
  Forall (fun e => zIndex_is w (snd e) (fst e)) keyed ->
  in_order keyed -> zIndex_ascending w (map snd keyed).
Proof.
  induction keyed as [|[z c] keyed IH]; intros F O i a a' y y' Ha Ha' Y Y'.
  - destruct i; discriminate Ha.
  - apply Forall_cons in F as [Z F]. destruct O as [O1 O2].
    destruct i as [|i]; [|exact (IH F O2 i a a' y y' Ha Ha' Y Y')].
    destruct keyed as [|[z' c'] keyed]; [discriminate Ha'|].
    apply Forall_cons in F as [Z' _]. cbn in Ha, Ha', Z, Z', O1.
    injection Ha as <-. injection Ha' as <-.
    rewrite (zIndex_is_unique _ _ _ _ Y Z), (zIndex_is_unique _ _ _ _ Y' Z').
    exact O1.
Qed.

Lemma Forall_at {A : Type} (P : A -> Prop) (s : list A) (x : A) :
  Forall P s -> In x s -> P x.
Proof.
  induction 1 as [|y s Hy _ IH]; intros Hx; [destruct Hx|].
  destruct Hx as [<-|Hx]; [exact Hy|exact (IH Hx)].
Qed.

Lemma Forall_perm_of {A : Type} (P : A -> Prop) (s s' : list A) :
  Permutation s' s -> Forall P s -> Forall P s'.
Proof.
  intros Hp F. induction Hp as [|x s' s _ IH|x y s|s1 s2 s3 _ IH1 _ IH2].
  - constructor.
  - apply Forall_cons in F as [Hx F]. constructor; [exact Hx|exact (IH F)].
  - apply Forall_cons in F as [Hx F]. apply Forall_cons in F as [Hy F].
    repeat constructor; assumption.
  - exact (IH1 (IH2 F)).
Qed.

(** An entry goes behind the entries that the comparator puts before it; when
    the comparator never puts two entries before each other, the list stays
    in order. *)
Lemma insert_sorted_in_order (e : num * loc) (s : list (num * loc)) :
  (forall e', In e' s -> zIndex_before (fst e') (fst e) = true ->
              zIndex_before (fst e) (fst e') = false) ->
  in_order s -> in_order (insert_sorted e s).
Proof.
  induction s as [|e' r IH]; intros A O; [now split|].
  cbn [insert_sorted]. destruct (zIndex_before (fst e') (fst e)) eqn:B.
  - destruct O as [O1 O2].
    specialize (IH (fun x Hx => A x (or_intror Hx)) O2).
    split; [|exact IH].
    destruct r as [|e'' r']; cbn [insert_sorted].
    + exact (A e' (or_introl eq_refl) B).
    + destruct (zIndex_before (fst e'') (fst e)); [exact O1|].
      exact (A e' (or_introl eq_refl) B).
  - split; [exact B|exact O].
Qed.

Lemma stable_sort_sorted (s : list (num * loc)) :
  (forall e e', In e s -> In e' s -> zIndex_before (fst e) (fst e') = true ->
                zIndex_before (fst e') (fst e) = false) ->
  in_order (stable_sort s).
Proof.
  induction s as [|e s IH]; intros A; [exact I|].
  cbn [stable_sort fold_right]. fold (stable_sort s).
  apply insert_sorted_in_order.
  - intros e' He'. apply A; [right|now left].
    exact (Permutation_in _ (stable_sort_perm s) He').
  - apply IH. intros x y Hx Hy. apply A; now right.
Qed.

(** X12 (CoreNode.sortChildren): sorting the children of a node by zIndex
    returns and neither drops nor duplicates a child.  When of no two
    children each has a zIndex smaller than the other's (as it is on
    JavaScript numbers), the children are in ascending order of zIndex
    afterwards.  Children that are in ascending order already keep their
    order, children of equal zIndex included (the sort is stable).  Every
    other field of the node is as before, apart from its parent cache, which
    the zIndex getter of a child may refresh: the parent getter returns what
    it returned before.  No other node changes apart from its parent cache,
    and the registry, the dirty set and the allocation counter are as
    before. *)
Theorem sortChildren_keeps_ordered_children
        (fuel : nat) (w : World) (l : loc) (n : CoreNode) :
  heap w !! l = Some n ->
  (forall c, In c (children n) -> exists d, (d < fuel)%nat /\ rooted w c d) ->
  exists w' n',
    sortChildren fuel l w = Ok (tt, w') /\ heap w' !! l = Some n' /\
    Permutation (children n') (children n) /\
    ((forall c c' z z',
         In c (children n) -> In c' (children n) ->
         zIndex_is w c z -> zIndex_is w c' z' ->
         nlt (nsub z z') zero = true -> nlt (nsub z' z) zero = false) ->
     zIndex_ascending w (children n')) /\
    (zIndex_ascending w (children n) -> children n' = children n) /\
    props n' = props n /\ childrenIds n' = childrenIds n /\
    recalculationType n' = recalculationType n /\
    hasUpdates n' = hasUpdates n /\ updateMask n' = updateMask n /\
    isComplex n' = isComplex n /\ parentId n' = parentId n /\
    globalTransform n' = globalTransform n /\
    scaleRotateTransform n' = scaleRotateTransform n /\
    localTransform n' = localTransform n /\
    clippingRect n' = clippingRect n /\
    parentClippingRect n' = parentClippingRect n /\
    parent_in (_tree w') n' = parent_in (_tree w) n /\
    others_kept l w w' /\
    _tree w' = _tree w /\ _dirtyNodes w' = _dirtyNodes w /\
    next_loc w' = next_loc w.
Proof.
  intros E H. unfold sortChildren. step (read_run _ _ _ E).
  destruct (length (children n) <? 2)%nat eqn:L.
  - exists w, n. split; [reflexivity|]. split; [exact E|].
    split; [reflexivity|]. split.
    + intros _ i c c' z z' Hc Hc'.
      destruct (children n) as [|c0 [|c1 r]]; [discriminate Hc| |discriminate L].
      destruct i; discriminate Hc'.
    + repeat split; reflexivity.
  - destruct (mapM_zIndex_values fuel w (children n) H w (cache_step_refl w))
      as (keyed & w1 & H1 & C1 & M & F).
    step H1.
    assert (B : cache_blind (_tree w) (fun k => (with_parentNode None k, parent_in (_tree w) k))).
    { intros k r Hb Hr. f_equal. now apply parent_in_cache_blind. }
    destruct (keeps_lookup _ _ _ _ _ (cache_step_keeps _ _ _ C1 B) E) as (n1 & E1 & V).
    injection V; intros VP; intros.
    rewrite (modify_run _ _ _ _ E1).
    pose proof C1 as (T1 & D1 & N1 & _).
    eexists _, _. split; [reflexivity|]. split; [apply heap_put|].
    cbn [children props childrenIds with_children recalculationType hasUpdates
         updateMask isComplex parentId globalTransform scaleRotateTransform
         localTransform clippingRect parentClippingRect].
    split; [rewrite <- M; apply Permutation_map, stable_sort_perm|].
    split.
    { intros A. apply in_order_ascending.
      - exact (Forall_perm_of _ _ _ (stable_sort_perm keyed) F).
      - apply stable_sort_sorted. intros e e' He He'.
        apply (A (snd e) (snd e')).
        + rewrite <- M. now apply in_map.
        + rewrite <- M. now apply in_map.
        + exact (Forall_at _ _ _ F He).
        + exact (Forall_at _ _ _ F He'). }
    split.
    { intros O. rewrite <- M in O.
      now rewrite (stable_sort_in_order keyed (ascending_in_order w keyed F O)). }
    repeat match goal with |- _ = _ /\ _ => split; [assumption|] end.
    split.
    { cbn [_tree put with_heap]. rewrite <- VP. unfold parent_in.
      cbn [updateMask parentId parentNode with_children]. now rewrite T1. }
    split.
    { apply (others_kept_trans _ _ w1); [now apply cache_step_others_kept|].
      apply put_others_kept. }
    repeat split; assumption.
Qed.

(** ** The worldAlpha getter *)

(** The value of [get worldAlpha()], as a relation on the world. *)
Inductive worldAlpha_is (w : World) : loc -> num -> Prop :=
  | worldAlpha_top l n :
      heap w !! l = Some n -> parent_in (_tree w) n = Some None ->
      worldAlpha_is w l (nmul (nprop (props n) P_alpha) one)
  | worldAlpha_child l n lp pa :
      heap w !! l = Some n -> parent_in (_tree w) n = Some (Some lp) ->
      worldAlpha_is w lp pa ->
      worldAlpha_is w l (nmul (nprop (props n) P_alpha) (num_or pa one)).

Lemma worldAlpha_is_cache_step_rev w w' l v :
  cache_step w w' -> worldAlpha_is w' l v -> worldAlpha_is w l v.
Proof.
  intros C R. induction R as [l n' E' P'|l n' lp pa E' P' _ IH].
  - destruct (cache_step_view_rev _ _ _ _ C E') as (n & E & -> & P).
    apply (worldAlpha_top _ l n); congruence.
  - destruct (cache_step_view_rev _ _ _ _ C E') as (n & E & -> & P).
    apply (worldAlpha_child _ l n lp pa); congruence.
Qed.

Lemma worldAlpha_is_unique w l v v' :
  worldAlpha_is w l v -> worldAlpha_is w l v' -> v = v'.
Proof.
  intros R. revert v'. induction R as [l n E P|l n lp pa E P _ IH];
    intros v' R'; inversion R' as [l' n' E' P'|l' n' lp' pa' E' P' R'']; subst.
  - congruence.
  - congruence.
  - congruence.
  - assert (n' = n) as -> by congruence.
    assert (lp' = lp) as -> by congruence.
    now rewrite (IH _ R'').
Qed.

(** The getter computes [worldAlpha_is] and only refreshes caches. *)
Lemma get_worldAlpha_sound (fuel : nat) :
  forall w l v w', get_worldAlpha fuel l w = Ok (v, w') ->
                   worldAlpha_is w l v /\ cache_step w w'.
Proof.
  induction fuel as [|fuel IH]; intros w l v w' H; [discriminate|].
  cbn [get_worldAlpha] in H.
  apply bind_inv in H as (n & w0 & H0 & H). apply read_inv in H0 as [E ->].
  apply bind_inv in H as (parent & w1 & H1 & H).
  destruct (get_parent_inv _ _ _ _ H1) as (n0 & E0 & P).
  assert (n0 = n) as -> by congruence.
  destruct (get_parent_run _ _ _ _ E P) as (w1' & H1' & C1 & _).
  assert (w1' = w1) as -> by congruence.
  destruct parent as [lp|].
  - norm_in H.
    apply bind_inv in H as (pa & w2 & H2 & H).
    destruct (IH _ _ _ _ H2) as [Rp C2].
    norm_in H. cbn in H. injection H as <- <-.
    split; [|now apply (cache_step_trans _ w1)].
    apply (worldAlpha_child w l n lp pa E P).
    now apply (worldAlpha_is_cache_step_rev _ _ _ _ C1).
  - norm_in H. cbn in H. injection H as <- <-.
    split; [now apply (worldAlpha_top w l n)|exact C1].
Qed.

(** With enough fuel the getter returns, on every world one cache refresh
    away. *)
Lemma get_worldAlpha_returns w l d :
  rooted w l d ->
  forall fuel w1, (d < fuel)%nat -> cache_step w w1 ->
                  exists v w2, get_worldAlpha fuel l w1 = Ok (v, w2).
Proof.
  induction 1 as [l n E P|l n lp d E P R IH]; intros fuel w1 Hf C;
    (destruct fuel as [|fuel]; [lia|]); cbn [get_worldAlpha];
    destruct (cache_step_view _ _ _ _ C E) as (n1 & E1 & Hp1 & P1);
    rewrite P in P1;
    destruct (get_parent_run _ _ _ _ E1 P1) as (w2 & H2 & C2 & _);
    step (read_run _ _ _ E1); step H2.
  - cbn. eauto.
  - destruct (IH fuel w2) as (pa & w3 & H3); [lia|now apply (cache_step_trans _ w1)|].
    step H3. cbn. eauto.
Qed.

(** X15 (CoreNode.worldAlpha getter): the getter of a node without parent
    returns the node's alpha times 1; the getter of a node with a parent
    returns the node's alpha times what the parent's getter returns, or times
    1 when that is falsy (0 or NaN); both return when the node is at depth [d]
    below a parentless node and the fuel exceeds [d]. *)
Theorem worldAlpha_of_node
        (w : World) (l : loc) (n : CoreNode) (d fuel : nat) :
  heap w !! l = Some n -> rooted w l d -> (d < fuel)%nat ->
  exists v w1,
    get_worldAlpha fuel l w = Ok (v, w1) /\
    (parent_in (_tree w) n = Some None ->
     v = nmul (nprop (props n) P_alpha) one) /\
    (forall lp, parent_in (_tree w) n = Some (Some lp) ->
       exists pa w2,
         get_worldAlpha fuel lp w1 = Ok (pa, w2) /\
         v = nmul (nprop (props n) P_alpha) (num_or pa one)).
Proof.
  intros E R Hf.
  destruct (get_worldAlpha_returns w l d R fuel w Hf (cache_step_refl w)) as (v & w1 & H1).
  destruct (get_worldAlpha_sound _ _ _ _ _ H1) as [RN C1].
  exists v, w1. split; [exact H1|]. split.
  - intros P. inversion RN as [l' n' E' P'|l' n' lp' pa' E' P' R']; subst.
    + assert (n' = n) as -> by congruence. reflexivity.
    + congruence.
  - intros lp P. inversion R as [l' n' E' P'|l' n' lp' d' E' P' R']; subst.
    + congruence.
    + assert (n' = n) as -> by congruence.
      assert (lp' = lp) as -> by congruence.
      destruct (get_worldAlpha_returns w lp d' R' fuel w1 ltac:(lia) C1)
        as (pa & w2 & H2).
      destruct (get_worldAlpha_sound _ _ _ _ _ H2) as [RP _].
      apply (worldAlpha_is_cache_step_rev _ _ _ _ C1) in RP.
      exists pa, w2. split; [exact H2|].
      inversion RN as [l' n' E'' P''|l' n' lp' pa' E'' P'' R'']; subst;
        [congruence|].
      assert (n' = n) as -> by congruence.
      assert (lp' = lp) as -> by congruence.
      now rewrite (worldAlpha_is_unique _ _ _ _ RP R'').
Qed.

(** ** Rendering and construction *)

Lemma renderQuads_run (w : World) (l : loc) (n : CoreNode) (d fuel : nat) :
  heap w !! l = Some n -> rooted w l d -> (d < fuel)%nat ->
  match globalTransform n with
  | None => renderQuads fuel l w = Fault AssertionFailed
  | Some gt =>
      exists q w' wz wa,
        renderQuads fuel l w = Ok (q, w') /\
        get_zIndex fuel l w = Ok (q_zIndex q, wz) /\
        get_worldAlpha fuel l w = Ok (q_alpha q, wa) /\
        (q_tx q, q_ty q, q_ta q, q_tb q, q_tc q, q_td q)
        = (tx gt, ty gt, ta gt, tb gt, tc gt, td gt) /\
        q_clippingRect q = clippingRect n /\
        (q_width q, q_height q)
        = (nprop (props n) P_width, nprop (props n) P_height) /\
        (q_colorTl q, q_colorTr q, q_colorBl q, q_colorBr q)
        = (nprop (props n) P_colorTl, nprop (props n) P_colorTr,
           nprop (props n) P_colorBl, nprop (props n) P_colorBr)
  end.
Proof.
  intros E R Hf. unfold renderQuads.
  destruct (get_zIndex_returns w l d R fuel w Hf (cache_step_refl w)) as (z & w1 & H1).
  destruct (get_zIndex_sound _ _ _ _ _ H1) as [_ C1].
  destruct (get_worldAlpha_returns w l d R fuel w1 Hf C1) as (a & w2 & H2).
  destruct (get_worldAlpha_sound _ _ _ _ _ H2) as [RA C2].
  apply (worldAlpha_is_cache_step_rev _ _ _ _ C1) in RA.
  destruct (get_worldAlpha_returns w l d R fuel w Hf (cache_step_refl w)) as (a' & wa & H3).
  destruct (get_worldAlpha_sound _ _ _ _ _ H3) as [RA' _].
  assert (a' = a) as -> by exact (worldAlpha_is_unique _ _ _ _ RA' RA).
  pose proof (cache_step_trans _ _ _ C1 C2) as C.
  assert (B : cache_blind (_tree w) (fun k => (globalTransform k, clippingRect k)))
    by now apply blind_cache_blind.
  destruct (keeps_lookup _ _ _ _ _ (cache_step_keeps _ _ _ C B) E) as (n2 & E2 & V).
  injection V as G2 K2.
  step (read_run _ _ _ E). step H1. step H2. step (read_run _ _ _ E2).
  rewrite G2. destruct (globalTransform n) as [gt|]; [|reflexivity].
  cbn [assertTruthy]. norm.
  eexists _, w2, w1, wa. split; [reflexivity|]. cbn.
  split; [exact H1|]. split; [exact H3|]. repeat split. exact K2.
Qed.

(** X16 (CoreNode.renderQuads): [renderQuads] asserts the global transform:
    on a node that was never updated it faults; on a node with a global
    transform it adds one quad whose six coefficients are those of the global
    transform, whose clipping rectangle, size and corner colours are the
    node's, whose zIndex is what the zIndex getter returns and whose alpha is
    what the worldAlpha getter returns. *)
Theorem renderQuads_reads_node (w : World) (l : loc) (n : CoreNode) (d fuel : nat) :
  heap w !! l = Some n -> rooted w l d -> (d < fuel)%nat ->
  match globalTransform n with
  | None => renderQuads fuel l w = Fault AssertionFailed
  | Some gt =>
      exists q w' wz wa,
        renderQuads fuel l w = Ok (q, w') /\
        get_zIndex fuel l w = Ok (q_zIndex q, wz) /\
        get_worldAlpha fuel l w = Ok (q_alpha q, wa) /\
        (q_tx q, q_ty q, q_ta q, q_tb q, q_tc q, q_td q)
        = (tx gt, ty gt, ta gt, tb gt, tc gt, td gt) /\
        q_clippingRect q = clippingRect n /\
        (q_width q, q_height q)
        = (nprop (props n) P_width, nprop (props n) P_height) /\
        (q_colorTl q, q_colorTr q, q_colorBl q, q_colorBr q)
        = (nprop (props n) P_colorTl, nprop (props n) P_colorTr,
           nprop (props n) P_colorBl, nprop (props n) P_colorBr)
  end.
Proof. exact (renderQuads_run w l n d fuel). Qed.

(** The node the constructor leaves. *)
Definition constructed (p : CoreNodeProps) : CoreNode :=
  let n := initial_node p in
  with_localTransform (Some (local_matrix (scale_rotate_matrix n) n))
    (with_scaleRotateTransform (Some (scale_rotate_matrix n)) n).

Lemma new_CoreNode_run (w : World) (p : CoreNodeProps) :
  new_CoreNode p w
  = Ok (next_loc w,
        with_tree (map_set (id p) (next_loc w) (_tree w))
          (put (next_loc w) (constructed p)
             (with_next_loc (Pos.succ (next_loc w)) w))).
Proof.
  unfold new_CoreNode, fresh. unfold bind at 1. unfold bind at 1.
  set (l := next_loc w).
  set (w1 := with_heap _ _).
  assert (E1 : heap w1 !! l = Some (initial_node p)) by apply lookup_insert_eq.
  rewrite (bind_Ok _ _ _ _ _ (updateScaleRotateTransform_run w1 l _ E1)).
  unfold tree_add. rewrite bind_bind.
  rewrite (bind_Ok _ _ _ _ _ (read_run _ _ _ (heap_put _ _ _))).
  unfold bind, ret. cbn [id props with_localTransform with_scaleRotateTransform initial_node].
  unfold w1, put, with_heap, with_tree, constructed. cbn.
  now rewrite insert_insert_eq.
Qed.

(** X17 (CoreNode constructor, tree.add): [new CoreNode(stage, props)]
    returns a new object that is registered under the id of its properties,
    with the properties as given, the scale-rotate matrix and the local
    transform built from them, no global transform, recalculation type 6 and
    no parent or children; the node is not flagged and not put in the dirty
    set, and no other object changes. *)
Theorem new_CoreNode_registers (w : World) (p : CoreNodeProps) :
  exists w1 n1,
    new_CoreNode p w = Ok (next_loc w, w1) /\
    heap w1 !! next_loc w = Some n1 /\
    tree_get (Some (id p)) w1 = Ok (Some (next_loc w), w1) /\
    props n1 = p /\
    scaleRotateTransform n1 = Some (scale_rotate_matrix n1) /\
    localTransform n1 = Some (local_matrix (scale_rotate_matrix n1) n1) /\
    globalTransform n1 = None /\
    recalculationType n1 = 6 /\ updateMask n1 = 0 /\ hasUpdates n1 = false /\
    parentId n1 = None /\ childrenIds n1 = [] /\
    _dirtyNodes w1 = _dirtyNodes w /\
    (forall l', l' <> next_loc w -> heap w1 !! l' = heap w !! l').
Proof.
  rewrite (new_CoreNode_run w p).
  eexists _, (constructed p). split; [reflexivity|].
  split; [apply lookup_insert_eq|].
  split; [apply tree_get_registered; cbn; apply map_get_set|].
  repeat match goal with |- _ /\ _ => split end; try reflexivity.
  intros l' Hne. cbn. now rewrite lookup_insert_ne by congruence.
Qed.

(** X18 (CoreNode constructor, update, renderQuads): a node that was just
    constructed cannot be rendered, [renderQuads] faults on it; its first
    [update] returns, whatever the rest of the world is, and leaves the node
    with its local transform as global transform and no recalculation
    pending, after which [renderQuads] returns a quad. *)
Theorem first_update_of_new_node
        (w : World) (p : CoreNodeProps) (fuel : nat) (pcr : option Rect) :
  exists w1 w2 n2 q w3,
    new_CoreNode p w = Ok (next_loc w, w1) /\
    renderQuads (S fuel) (next_loc w) w1 = Fault AssertionFailed /\
    update fuel (next_loc w) pcr w1 = Ok (tt, w2) /\
    heap w2 !! next_loc w = Some n2 /\
    is_Some (globalTransform n2) /\ globalTransform n2 = localTransform n2 /\
    recalculationType n2 = 0 /\ hasUpdates n2 = false /\
    renderQuads (S fuel) (next_loc w) w2 = Ok (q, w3).
Proof.
  rewrite (new_CoreNode_run w p).
  set (l := next_loc w). set (w1 := with_tree _ _).
  assert (E1 : heap w1 !! l = Some (constructed p)) by apply lookup_insert_eq.
  assert (R1 : rooted w1 l 0) by now apply (rooted_top w1 l (constructed p)).
  assert (U : updatable fuel w1 l (constructed p) None).
  { split; [exact E1|]. split; [now eexists|]. split; [now eexists|].
    split; [discriminate|]. split; [reflexivity|]. split; [discriminate|].
    discriminate. }
  destruct (update_fields fuel w1 l pcr _ None U)
    as (w2 & n2 & n3 & lt & H & E2 & _ & _ & _ & _ & Rt & Um & Hu & Pn & _ & L2 & _
        & G2 & _).
  pose proof (renderQuads_run w1 l _ 0 (S fuel) E1 R1 ltac:(lia)) as Q1.
  cbn [globalTransform constructed with_localTransform with_scaleRotateTransform
       initial_node] in Q1.
  assert (R2 : rooted w2 l 0).
  { apply (rooted_top w2 l n2 E2). unfold parent_in.
    rewrite Um. cbn. now rewrite Pn. }
  pose proof (renderQuads_run w2 l n2 0 (S fuel) E2 R2 ltac:(lia)) as Q2.
  rewrite G2 in Q2. destruct Q2 as (q & w3 & _ & _ & Q2 & _).
  exists w1, w2, n2, q, w3.
  split; [reflexivity|]. split; [exact Q1|]. split; [exact H|]. split; [exact E2|].
  split; [rewrite G2; now eexists|]. split; [now rewrite G2, L2|].
  split; [exact Rt|]. split; [exact Hu|exact Q2].
Qed.

(** ** The registry *)

Lemma map_get_set_ne {V : Type} (k k' : Z) (v : V) (m : list (Z * V)) :
  k' <> k -> map_get k' (map_set k v m) = map_get k' m.
Proof.
  intros Hne. induction m as [|[k0 v0] m IH]; cbn.
  - destruct (k' =? k) eqn:E; [apply Z.eqb_eq in E; contradiction|reflexivity].
  - destruct (k =? k0) eqn:E; cbn.
    + apply Z.eqb_eq in E. subst k0.
      destruct (k' =? k) eqn:E'; [apply Z.eqb_eq in E'; contradiction|reflexivity].
    + now rewrite IH.
Qed.

Lemma map_set_length {V : Type} (k : Z) (v : V) (m : list (Z * V)) :
  is_Some (map_get k m) -> length (map_set k v m) = length m.
Proof.
  induction m as [|[k0 v0] m IH]; cbn; [intros [? ?]; discriminate|].
  destruct (k =? k0); cbn; [reflexivity|]. intros H. now rewrite IH.
Qed.

Lemma map_set_twice {V : Type} (k : Z) (v : V) (m : list (Z * V)) :
  map_set k v (map_set k v m) = map_set k v m.
Proof.
  induction m as [|[k0 v0] m IH]; cbn.
  - now rewrite Z.eqb_refl.
  - destruct (k =? k0) eqn:E; cbn; [now rewrite Z.eqb_refl|]. now rewrite E, IH.
Qed.

Lemma map_set_values {V : Type} (k : Z) (v : V) (m : list (Z * V)) :
  In v (map_values (map_set k v m)).
Proof.
  induction m as [|[k0 v0] m IH]; cbn; [now left|].
  destruct (k =? k0); cbn; [now left|now right].
Qed.

Lemma map_get_delete {V : Type} (k : Z) (m : list (Z * V)) :
  map_get k (map_delete k m) = None.
Proof.
  unfold map_delete. induction m as [|[k0 v0] m IH]; [reflexivity|].
  rewrite filter_cons. cbn [fst]. destruct (decide (k0 <> k)) as [Hne|He]; [|exact IH].
  cbn. destruct (k =? k0) eqn:E; [apply Z.eqb_eq in E; congruence|exact IH].
Qed.

Lemma map_get_delete_ne {V : Type} (k k' : Z) (m : list (Z * V)) :
  k' <> k -> map_get k' (map_delete k m) = map_get k' m.
Proof.
  intros Hne. unfold map_delete. induction m as [|[k0 v0] m IH]; [reflexivity|].
  rewrite filter_cons. cbn [fst]. destruct (decide (k0 <> k)) as [Hn|He]; cbn.
  - now rewrite IH.
  - assert (k0 = k) as -> by (destruct (decide (k0 = k)); [assumption|contradiction]).
    destruct (k' =? k) eqn:E; [apply Z.eqb_eq in E; contradiction|exact IH].
Qed.

(** X19 (tree.add, tree.get): a node that was added is found under its id,
    the lookups of the other ids are not affected and no node object
    changes; adding under an id that is already registered replaces the
    registered node without the registry growing. *)
Theorem tree_add_then_get (w : World) (l : loc) (n : CoreNode) :
  heap w !! l = Some n ->
  exists w',
    tree_add l w = Ok (tt, w') /\
    tree_get (Some (id (props n))) w' = Ok (Some l, w') /\
    (forall k, k <> id (props n) -> map_get k (_tree w') = map_get k (_tree w)) /\
    heap w' = heap w /\
    (is_Some (map_get (id (props n)) (_tree w)) ->
     length (_tree w') = length (_tree w)).
Proof.
  intros E. unfold tree_add. rewrite (bind_Ok _ _ _ _ _ (read_run _ _ _ E)).
  eexists. split; [reflexivity|]. cbn [_tree with_tree heap].
  split; [|split; [|split; [reflexivity|]]].
  - apply tree_get_registered. cbn. apply map_get_set.
  - intros k Hne. now apply map_get_set_ne.
  - apply map_set_length.
Qed.

(** X20 (tree.remove, tree.get): after [remove] of an id, [get] of that id
    faults with "Node <id> not found"; the lookups of the other ids are not
    affected, and no node object changes: a parent that lists the id among
    its children ids still lists it. *)
Theorem tree_remove_then_get (w : World) (k : Z) :
  exists w',
    tree_remove k w = Ok (tt, w') /\
    tree_get (Some k) w' = Fault (NodeNotFound k) /\
    (forall k', k' <> k -> map_get k' (_tree w') = map_get k' (_tree w)) /\
    heap w' = heap w.
Proof.
  eexists. split; [reflexivity|]. cbn [_tree with_tree heap].
  split; [|split; [|reflexivity]].
  - apply tree_get_unregistered. cbn. apply map_get_delete.
  - intros k' Hne. now apply map_get_delete_ne.
Qed.

(** X21 (tree.markDirty, tree.hasDirtyNodes, tree.getDirtyNodes,
    tree.clearDirtyNodes): marking a node dirty puts it in the dirty set,
    marking it again changes nothing; clearing empties the set and touches
    no node object, so the [hasUpdates] flags of the nodes stay as they
    are. *)
Theorem dirty_set_cycle (w : World) (l : loc) (n : CoreNode) :
  heap w !! l = Some n ->
  exists w1 w2 ds,
    tree_markDirty l w = Ok (tt, w1) /\
    tree_markDirty l w1 = Ok (tt, w1) /\
    tree_hasDirtyNodes w1 = Ok (true, w1) /\
    tree_getDirtyNodes w1 = Ok (ds, w1) /\ In l ds /\
    tree_clearDirtyNodes w1 = Ok (tt, w2) /\
    tree_hasDirtyNodes w2 = Ok (false, w2) /\
    tree_getDirtyNodes w2 = Ok ([], w2) /\
    heap w2 = heap w /\ _tree w2 = _tree w.
Proof.
  intros E. rewrite (markDirty_run l n w E).
  set (w1 := with_dirtyNodes _ w).
  assert (E1 : heap w1 !! l = Some n) by exact E.
  exists w1, (with_dirtyNodes [] w1), (map_values (_dirtyNodes w1)).
  split; [reflexivity|]. split.
  { rewrite (markDirty_run l n w1 E1). unfold w1. cbn. now rewrite map_set_twice. }
  split.
  { unfold tree_hasDirtyNodes, w1. cbn.
    destruct (map_set (id (props n)) l (_dirtyNodes w)) as [|e r] eqn:M; [|reflexivity].
    pose proof (map_get_set (id (props n)) l (_dirtyNodes w)) as G.
    rewrite M in G. discriminate. }
  split; [reflexivity|]. split; [apply map_set_values|].
  repeat split.
Qed.

(** *** tree.sort *)

(** Every entry of the registry holds an existing node under the node's own
    id, and no id is registered twice. *)
Definition registry_ok (w : World) : Prop :=
  Forall (fun e => exists n, heap w !! snd e = Some n /\ id (props n) = fst e) (_tree w) /\
  NoDup (map fst (_tree w)).

Lemma insert_by_id_perm (e : Z * loc) (s : list (Z * loc)) :
  Permutation (insert_by_id e s) (e :: s).
Proof.
  induction s as [|e' s IH]; cbn; [reflexivity|].
  destruct (fst e' <? fst e); [|reflexivity].
  rewrite IH. apply perm_swap.
Qed.

Lemma sort_by_id_perm (l : list (Z * loc)) : Permutation (sort_by_id l) l.
Proof.
  induction l as [|e l IH]; cbn; [reflexivity|].
  rewrite insert_by_id_perm. apply perm_skip, IH.
Qed.

(** The ids of a list of entries ascend, possibly with repetitions. *)
Fixpoint ascending (s : list (Z * loc)) : Prop :=
  match s with
  | [] => True
  | e :: r => match r with
              | [] => True
              | e' :: _ => fst e <= fst e'
              end /\ ascending r
  end.

Lemma insert_by_id_ascending (e : Z * loc) (s : list (Z * loc)) :
  ascending s -> ascending (insert_by_id e s).
Proof.
  induction s as [|e' s IH]; intros A; [cbn; auto|].
  cbn [insert_by_id]. destruct (fst e' <? fst e) eqn:C.
  - apply Z.ltb_lt in C. destruct A as [A1 A2]. specialize (IH A2).
    split; [|exact IH].
    destruct s as [|e'' s]; cbn [insert_by_id]; [lia|].
    destruct (fst e'' <? fst e); [exact A1|lia].
  - apply Z.ltb_ge in C. split; [exact C|exact A].
Qed.

Lemma sort_by_id_ascending (l : list (Z * loc)) : ascending (sort_by_id l).
Proof.
  induction l as [|e l IH]; [exact I|]. now apply insert_by_id_ascending.
Qed.

Lemma map_get_In {V : Type} (k : Z) (v : V) (m : list (Z * V)) :
  NoDup (map fst m) -> In (k, v) m -> map_get k m = Some v.
Proof.
  induction m as [|[k0 v0] m IH]; intros N H; [contradiction|].
  cbn in N. apply NoDup_cons in N as [N1 N2]. cbn.
  destruct H as [[= -> ->]|H]; [now rewrite Z.eqb_refl|].
  destruct (k =? k0) eqn:E; [|now apply IH].
  apply Z.eqb_eq in E. subst k0. exfalso. apply N1.
  apply list_elem_of_In. exact (in_map fst _ _ H).
Qed.

Lemma map_get_None {V : Type} (k : Z) (m : list (Z * V)) :
  ~ In k (map fst m) -> map_get k m = None.
Proof.
  induction m as [|[k0 v0] m IH]; intros H; [reflexivity|]. cbn.
  destruct (k =? k0) eqn:E.
  - apply Z.eqb_eq in E. subst k0. exfalso. apply H. now left.
  - apply IH. intros H'. apply H. now right.
Qed.

Lemma map_get_Some_In {V : Type} (k : Z) (v : V) (m : list (Z * V)) :
  map_get k m = Some v -> In (k, v) m.
Proof.
  induction m as [|[k0 v0] m IH]; [discriminate|]. cbn.
  destruct (k =? k0) eqn:E.
  - apply Z.eqb_eq in E. subst k0. intros [= ->]. now left.
  - intros H. right. now apply IH.
Qed.

Lemma map_get_perm {V : Type} (k : Z) (m m' : list (Z * V)) :
  NoDup (map fst m) -> Permutation m' m -> map_get k m' = map_get k m.
Proof.
  intros N P.
  assert (N' : NoDup (map fst m')).
  { apply (NoDup_Permutation_proper _ _ (Permutation_map fst P)). exact N. }
  destruct (map_get k m) as [v|] eqn:G.
  - apply map_get_In; [exact N'|].
    apply (Permutation_in _ (Permutation_sym P)). now apply map_get_Some_In.
  - destruct (map_get k m') as [v|] eqn:G'; [|reflexivity].
    apply map_get_Some_In in G'. apply (Permutation_in _ P) in G'.
    now rewrite (map_get_In _ _ _ N G') in G.
Qed.

Lemma map_set_new {V : Type} (k : Z) (v : V) (m : list (Z * V)) :
  ~ In k (map fst m) -> map_set k v m = m ++ [(k, v)].
Proof.
  induction m as [|[k0 v0] m IH]; intros H; [reflexivity|]. cbn.
  destruct (k =? k0) eqn:E.
  - apply Z.eqb_eq in E. subst k0. exfalso. apply H. now left.
  - rewrite IH; [reflexivity|]. intros H'. apply H. now right.
Qed.

Lemma map_of_entries_app {V : Type} (s acc : list (Z * V)) :
  NoDup (map fst (acc ++ s)) ->
  fold_left (fun m e => map_set (fst e) (snd e) m) s acc = acc ++ s.
Proof.
  revert acc. induction s as [|[k v] s IH]; intros acc N; cbn.
  - now rewrite app_nil_r.
  - rewrite map_set_new.
    + rewrite IH; rewrite <- app_assoc; [reflexivity|exact N].
    + rewrite map_app in N. apply NoDup_app in N as (_ & N & _).
      intros H. apply (N k); [now apply list_elem_of_In|]. cbn. left.
Qed.

Lemma map_of_entries_nodup {V : Type} (s : list (Z * V)) :
  NoDup (map fst s) -> map_of_entries s = s.
Proof. intros N. unfold map_of_entries. now rewrite map_of_entries_app. Qed.

Lemma entries_of_registry (w : World) (t : list (Z * loc)) :
  Forall (fun e => exists n, heap w !! snd e = Some n /\ id (props n) = fst e) t ->
  mapM (fun l => let* n := read l in ret (id (props n), l)) (map_values t) w = Ok (t, w).
Proof.
  induction 1 as [|[k l] t (n & E & Hid) _ IH]; [reflexivity|].
  cbn [map_values map snd mapM]. cbn [snd fst] in E, Hid.
  rewrite bind_bind. rewrite (bind_Ok _ _ _ _ _ (read_run _ _ _ E)).
  rewrite ret_bind. fold (map_values t). rewrite (bind_Ok _ _ _ _ _ IH).
  unfold ret. now rewrite Hid.
Qed.

(** X22 (tree.sort): on a registry whose entries hold existing nodes under
    their own ids, each id once, [sort] keeps every lookup and every node
    object and leaves the registry, the same entries, in ascending order of
    the ids, which is then the order [getAllNodes] and [getNodes] without
    ids return. *)
Theorem tree_sort_orders_registry (w : World) :
  registry_ok w ->
  exists w',
    tree_sort w = Ok (tt, w') /\ heap w' = heap w /\
    Permutation (_tree w') (_tree w) /\ ascending (_tree w') /\
    (forall k, map_get k (_tree w') = map_get k (_tree w)).
Proof.
  intros [F N]. unfold tree_sort.
  rewrite (bind_Ok _ _ _ _ _ (entries_of_registry w (_tree w) F)).
  eexists. split; [reflexivity|]. cbn [heap _tree with_tree].
  assert (N' : NoDup (map fst (sort_by_id (_tree w)))).
  { apply (NoDup_Permutation_proper _ _ (Permutation_map fst (sort_by_id_perm _))).
    exact N. }
  rewrite (map_of_entries_nodup _ N').
  split; [reflexivity|]. split; [apply sort_by_id_perm|].
  split; [apply sort_by_id_ascending|].
  intros k. apply map_get_perm; [exact N|apply sort_by_id_perm].
Qed.


(** X23 (tree.findParent, tree.findChildren): for a node whose parent id
    is not 0, [findParent] returns the node [get] returns for the parent id
    whenever [get] returns one, and returns undefined, without a fault, where
    [get] faults; for a node whose parent id is null or 0 it faults, although
    [get] resolves a registered id 0.  On a node with children ids,
    [findChildren] is [getNodes] of these ids, faults included; on a node
    without children ids it returns the empty list, where [getNodes] of the
    empty list returns every registered node. *)
Theorem find_against_get (w : World) (l : loc) (n : CoreNode) :
  heap w !! l = Some n ->
  (forall k, parentId n = Some k -> k <> 0 ->
             tree_findParent l w = Ok (map_get k (_tree w), w) /\
             (forall r, tree_get (Some k) w = Ok (r, w) -> r = map_get k (_tree w)) /\
             (map_get k (_tree w) = None ->
              tree_get (Some k) w = Fault (NodeNotFound k))) /\
  (id_truthy (parentId n) = false -> tree_findParent l w = Fault AssertionFailed) /\
  (~ (childrenIds n = []) ->
   tree_findChildren l w = tree_getNodes (Some (childrenIds n)) w) /\
  (childrenIds n = [] ->
   tree_findChildren l w = Ok ([], w) /\
   tree_getNodes (Some (childrenIds n)) w = Ok (map_values (_tree w), w)).
Proof.
  intros E. unfold tree_findParent, tree_findChildren.
  rewrite !(bind_Ok _ _ _ _ _ (read_run _ _ _ E)).
  split; [|split; [|split]].
  - intros k -> Hk. destruct (k =? 0) eqn:K; [apply Z.eqb_eq in K; contradiction|].
    split; [reflexivity|]. split; [|apply tree_get_unregistered].
    intros r. destruct (map_get k (_tree w)) as [lp|] eqn:G.
    + rewrite (tree_get_registered _ _ _ G). now intros [= <-].
    + now rewrite (tree_get_unregistered _ _ G).
  - unfold id_truthy. destruct (parentId n) as [k|]; [|reflexivity].
    destruct (k =? 0); [reflexivity|discriminate].
  - intros Hne. destruct (childrenIds n) as [|i r]; [congruence|reflexivity].
  - intros ->. split; reflexivity.
Qed.

(** ** The recalculation flags *)

Lemma has_bit_lor_any (a t b : Z) :
  has_bit (Z.lor a t) b = has_bit a b || has_bit t b.
Proof.
  unfold has_bit. rewrite Z.land_lor_distr_l.
  destruct (Z.eqb_spec (Z.land a b) 0) as [Ea|Ea], (Z.eqb_spec (Z.land t b) 0) as [Et|Et];
    cbn; rewrite ?Ea, ?Et.
  - reflexivity.
  - rewrite Z.lor_0_l. now destruct (Z.eqb_spec (Z.land t b) 0).
  - rewrite Z.lor_0_r. now destruct (Z.eqb_spec (Z.land a b) 0).
  - destruct (Z.eqb_spec (Z.lor (Z.land a b) (Z.land t b)) 0) as [E|E]; [|reflexivity].
    apply Z.lor_eq_0_iff in E as [E _]. contradiction.
Qed.

(** X24 (CoreNode.setRecalculationType, setHasUpdates, setParentHasUpdates,
    setChildrenHasUpdates): the call ORs [type] into the recalculation type,
    so no recalculation that is pending is lost, sets [hasUpdates] and puts
    the node in the dirty set, for every [type], 0 included; it sets bit 2 of
    the update mask only for a [type] with bit 1 on a node with a parent id
    other than 0, and bit 1 of the mask only for a [type] with bit 4 on a
    node with children ids; it changes no property and not the registry. *)
Theorem setRecalculationType_accumulates (w : World) (l : loc) (n : CoreNode) (type : Z) :
  heap w !! l = Some n ->
  exists w' n',
    setRecalculationType l type w = Ok (tt, w') /\ heap w' !! l = Some n' /\
    (forall b, has_bit (recalculationType n') b
               = has_bit (recalculationType n) b || has_bit type b) /\
    hasUpdates n' = true /\
    map_get (id (props n)) (_dirtyNodes w') = Some l /\
    has_bit (updateMask n') 2
    = has_bit (updateMask n) 2 || (has_bit type 1 && id_truthy (parentId n)) /\
    has_bit (updateMask n') 1
    = has_bit (updateMask n) 1
      || (has_bit type 4 && negb (Nat.eqb (length (childrenIds n)) 0)) /\
    props n' = props n /\ _tree w' = _tree w.
Proof.
  intros E. rewrite (setRecalculationType_run l type n w E).
  eexists _, _. split; [reflexivity|]. split; [apply heap_put_dirty|].
  destruct (flagged_fields type n) as (H1 & H2 & H3).
  split; [intros b; rewrite H2; apply has_bit_lor_any|].
  split; [exact H1|]. split; [cbn; apply map_get_set|].
  assert (M : updateMask (flagged type n)
              = let m1 := if has_bit type 1 && id_truthy (parentId n)
                          then Z.lor (updateMask n) 2 else updateMask n in
                if has_bit type 4 && negb (Nat.eqb (length (childrenIds n)) 0)
                then Z.lor m1 1 else m1).
  { unfold flagged, parent_flag, children_flag. cbv zeta.
    destruct (has_bit type 1), (has_bit type 4), (id_truthy (parentId n)) eqn:I;
      cbn; rewrite ?I; cbn;
      destruct (Nat.eqb (length (childrenIds n)) 0); reflexivity. }
  rewrite M. cbv zeta.
  split; [|split; [|split; [exact H3|reflexivity]]].
  - destruct (has_bit type 1 && id_truthy (parentId n)),
      (has_bit type 4 && negb (Nat.eqb (length (childrenIds n)) 0));
      rewrite ?has_bit_lor_any; cbn;
      now rewrite ?orb_false_r, ?orb_true_r.
  - destruct (has_bit type 1 && id_truthy (parentId n)),
      (has_bit type 4 && negb (Nat.eqb (length (childrenIds n)) 0));
      rewrite ?has_bit_lor_any; cbn;
      now rewrite ?orb_false_r, ?orb_true_r.
Qed.

(** ** More on the parent setter *)


(** X25 (CoreNode.parent setter): the early return compares the parent id
    of the node with [newParent?.id].  Assigning the node that is already the
    parent, by its id, changes nothing: no node is flagged and none is marked
    dirty.  For [null] the right-hand side is undefined, so assigning [null]
    to a node that has no parent is not a no-op: the node gets [hasUpdates],
    the z-index recalculation bit and a place in the dirty set. *)
Theorem set_parent_early_return (w : World) (l : loc) (n : CoreNode) :
  heap w !! l = Some n ->
  (forall ln np, heap w !! ln = Some np -> parentId n = Some (id (props np)) ->
                 set_parent l (Some ln) w = Ok (tt, w)) /\
  (parentId n = None ->
   exists w' n',
     set_parent l None w = Ok (tt, w') /\ heap w' !! l = Some n' /\
     parentId n' = None /\ hasUpdates n' = true /\
     has_bit (recalculationType n') 8 = true /\
     map_get (id (props n)) (_dirtyNodes w') = Some l).
Proof.
  intros El. split.
  - intros ln np En Hp. unfold set_parent.
    step (read_run _ _ _ El). step (read_run _ _ _ En).
    now rewrite Hp, Z.eqb_refl.
  - intros Hp. unfold set_parent.
    step (read_run _ _ _ El). rewrite Hp. cbn [id_truthy when]. norm.
    step (modify_run _ _ _ _ El).
    step (modify_run _ _ _ _ (heap_put _ _ _)).
    rewrite put_put.
    set (n5 := with_parentNode None (with_parentId None n)).
    rewrite (setRecalculationType_run l 8 n5 _ (heap_put _ _ _)).
    destruct (flagged_fields 8 n5) as (H1 & H2 & H3).
    eexists _, _. split; [reflexivity|]. split; [apply heap_put_dirty|].
    split; [now rewrite (proj_flagged parentId)|].
    split; [exact H1|].
    split; [rewrite H2; now apply has_bit_lor|].
    cbn. apply map_get_set.
Qed.

(** X26 (CoreNode.parent setter): assigning [null] to a node whose parent,
    another node, is registered under the node's non-zero parent id detaches
    the node: its parent id and its parent cache are null, its id is no
    longer among the children ids of the old parent, both nodes have
    [hasUpdates] set and are in the dirty set, and the node is flagged for
    the z-index recalculation (bit 8). *)
Theorem set_parent_null_detaches
        (w : World) (l lo : loc) (n o : CoreNode) (pid : Z) :
  heap w !! l = Some n -> parentId n = Some pid -> pid <> 0 ->
  map_get pid (_tree w) = Some lo -> heap w !! lo = Some o -> lo <> l ->
  ~ (id (props o) = id (props n)) ->
  exists w' n' o',
    set_parent l None w = Ok (tt, w') /\
    heap w' !! l = Some n' /\ heap w' !! lo = Some o' /\
    parentId n' = None /\ parentNode n' = None /\
    ~ In (id (props n)) (childrenIds o') /\
    hasUpdates n' = true /\ hasUpdates o' = true /\
    has_bit (recalculationType n') 8 = true /\
    map_get (id (props n)) (_dirtyNodes w') = Some l /\
    map_get (id (props o)) (_dirtyNodes w') = Some lo.
Proof.
  intros El Hpid Hnz Hreg Eo Hlo Hid.
  unfold set_parent.
  step (read_run _ _ _ El). rewrite Hpid.
  unfold id_truthy, when.
  destruct (pid =? 0) eqn:Ez; [apply Z.eqb_eq in Ez; congruence|]. cbn [negb].
  step (tree_get_registered _ _ _ Hreg).
  cbn [assertTruthy]. norm.
  step (modify_run _ _ _ _ Eo).
  set (o1 := with_childrenIds _ o).
  set (w1 := put lo o1 w).
  step (setHasUpdates_run lo o1 w1 (heap_put lo o1 w)).
  set (o2 := with_hasUpdates true o1).
  set (w2 := put_dirty _ _ o2 w1).
  step (setChildrenHasUpdates_run lo _ w2 (heap_put_dirty _ _ _ _)).
  set (o3 := children_flag o2).
  set (w3 := put lo o3 w2).
  assert (E3 : heap w3 !! l = Some n).
  { unfold w3, w2, w1. rewrite heap_put_ne by exact Hlo. cbn.
    rewrite !lookup_insert_ne by exact Hlo. exact El. }
  step (modify_run _ _ _ _ E3).
  step (modify_run _ _ _ _ (heap_put _ _ _)).
  rewrite put_put.
  set (n5 := with_parentNode None (with_parentId None n)).
  rewrite (setRecalculationType_run l 8 n5 _ (heap_put _ _ _)).
  set (w6 := put_dirty _ _ _ _).
  destruct (flagged_fields 8 n5) as (H1 & H2 & H3).
  assert (Eo6 : heap w6 !! lo = Some o3).
  { unfold w6. cbn. rewrite !lookup_insert_ne by congruence.
    apply lookup_insert_eq. }
  exists w6, (flagged 8 n5), o3.
  split; [reflexivity|]. split; [apply heap_put_dirty|]. split; [exact Eo6|].
  split; [now rewrite (proj_flagged parentId)|].
  split; [now rewrite (proj_flagged parentNode)|].
  split.
  { unfold o3. rewrite (proj_children_flag childrenIds) by reflexivity.
    cbn. apply filter_not_In. }
  split; [exact H1|].
  split; [unfold o3; now rewrite (proj_children_flag hasUpdates)|].
  split; [rewrite H2; now apply has_bit_lor|].
  split; [cbn; apply map_get_set|].
  cbn. rewrite map_get_set_ne by exact Hid. apply map_get_set.
Qed.


(** ** Setters that write several properties *)

Lemma store_prop_run (w : World) (l : loc) (n : CoreNode) (k : NumProp) (v : num) :
  heap w !! l = Some n ->
  store_prop l k v w = Ok (tt, put l (with_props (with_nprop k v) n) w).
Proof. intros E. unfold store_prop. now rewrite (modify_run _ _ _ _ E). Qed.

(** A plain setter returns and leaves a node with the property written. *)
Lemma plain_setter_props (k : NumProp) (type : Z) (w : World) (l : loc)
      (n : CoreNode) (v : num) :
  heap w !! l = Some n ->
  exists w' n',
    plain_setter k type l v w = Ok (tt, w') /\ heap w' !! l = Some n' /\
    props n' = with_nprop k v (props n).
Proof.
  intros E. unfold plain_setter.
  rewrite (bind_Ok _ _ _ _ _ (store_prop_run w l n k v E)).
  rewrite (setRecalculationType_run l type _ _ (heap_put _ _ _)).
  eexists _, _. split; [reflexivity|]. split; [apply heap_put_dirty|].
  now destruct (flagged_fields type (with_props (with_nprop k v) n)) as (_ & _ & ->).
Qed.

(** The end of a setter: the last property is stored and the node
    flagged. *)
Lemma store_and_flag (k : NumProp) (type : Z) (w : World) (l : loc)
      (n : CoreNode) (v : num) :
  heap w !! l = Some n -> type <> 0 ->
  exists w' n',
    (store_prop l k v ;; setRecalculationType l type) w = Ok (tt, w') /\
    heap w' !! l = Some n' /\ props n' = with_nprop k v (props n) /\
    hasUpdates n' = true /\ has_bit (recalculationType n') type = true /\
    map_get (id (props n)) (_dirtyNodes w') = Some l.
Proof.
  intros E Ht.
  rewrite (bind_Ok _ _ _ _ _ (store_prop_run w l n k v E)).
  rewrite (setRecalculationType_run l type _ _ (heap_put _ _ _)).
  destruct (flagged_fields type (with_props (with_nprop k v) n)) as (F1 & F2 & F3).
  eexists _, _. split; [reflexivity|]. split; [apply heap_put_dirty|].
  split; [exact F3|]. split; [exact F1|].
  split; [rewrite F2; now apply has_bit_lor|].
  cbn. apply map_get_set.
Qed.

(** X27 (CoreNode.color setter): after [node.color = value] the [color]
    property holds [value] and each of the four corner colours either holds
    [value] or was left as it was because all four were [===] to [value];
    the node is flagged for recalculation 2 and is in the dirty set, also
    when nothing differed. *)
Theorem set_color_sets_corners (w : World) (l : loc) (n : CoreNode) (value : num) :
  heap w !! l = Some n ->
  exists w' n',
    set_color l value w = Ok (tt, w') /\ heap w' !! l = Some n' /\
    nprop (props n') P_color = value /\
    (forall c, In c [P_colorTl; P_colorTr; P_colorBl; P_colorBr] ->
               nprop (props n') c = value \/
               (nprop (props n') c = nprop (props n) c /\
                strict_eq (nprop (props n) c) value = true)) /\
    hasUpdates n' = true /\ has_bit (recalculationType n') 2 = true /\
    map_get (id (props n)) (_dirtyNodes w') = Some l.
Proof.
  intros E. unfold set_color. norm. step (read_run _ _ _ E).
  destruct (differs n P_colorTl value || differs n P_colorTr value
            || differs n P_colorBl value || differs n P_colorBr value) eqn:D;
    cbn [when]; norm.
  - unfold set_colorTl, set_colorTr, set_colorBl, set_colorBr.
    destruct (plain_setter_props P_colorTl 2 w l n value E) as (w1 & n1 & R1 & E1 & P1).
    step R1.
    destruct (plain_setter_props P_colorTr 2 w1 l n1 value E1) as (w2 & n2 & R2 & E2 & P2).
    step R2.
    destruct (plain_setter_props P_colorBl 2 w2 l n2 value E2) as (w3 & n3 & R3 & E3 & P3).
    step R3.
    destruct (plain_setter_props P_colorBr 2 w3 l n3 value E3) as (w4 & n4 & R4 & E4 & P4).
    step R4.
    destruct (store_and_flag P_color 2 w4 l n4 value E4 ltac:(lia))
      as (w5 & n5 & R5 & E5 & P5 & H5 & B5 & D5).
    exists w5, n5. split; [exact R5|]. split; [exact E5|].
    rewrite P5, P4, P3, P2, P1.
    split; [reflexivity|]. split.
    { intros c Hc. left. cbn in Hc.
      destruct Hc as [<-|[<-|[<-|[<-|[]]]]]; reflexivity. }
    split; [exact H5|]. split; [exact B5|].
    assert (I : id (props n4) = id (props n)) by now rewrite P4, P3, P2, P1.
    now rewrite <- I.
  - destruct (store_and_flag P_color 2 w l n value E ltac:(lia))
      as (w5 & n5 & R5 & E5 & P5 & H5 & B5 & D5).
    exists w5, n5. split; [exact R5|]. split; [exact E5|]. rewrite P5.
    split; [reflexivity|]. split; [|now split].
    intros c Hc. right. unfold differs in D.
    apply orb_false_elim in D as [D D4]. apply orb_false_elim in D as [D D3].
    apply orb_false_elim in D as [D1 D2].
    apply negb_false_iff in D1, D2, D3, D4.
    cbn in Hc. destruct Hc as [<-|[<-|[<-|[<-|[]]]]]; split; try reflexivity; assumption.
Qed.

(** The property the getter of an animatable name reads. *)
Definition prop_of (k : AnimProp) : NumProp :=
  match k with
  | A_x => P_x | A_y => P_y | A_width => P_width
  | A_height => P_height | A_alpha => P_alpha
  | A_color => P_color | A_colorTop => P_colorTop
  | A_colorBottom => P_colorBottom | A_colorLeft => P_colorLeft
  | A_colorRight => P_colorRight | A_colorTl => P_colorTl
  | A_colorTr => P_colorTr | A_colorBl => P_colorBl
  | A_colorBr => P_colorBr
  | A_scale => P_scaleX | A_scaleX => P_scaleX | A_scaleY => P_scaleY
  | A_mount => P_mount | A_mountX => P_mountX | A_mountY => P_mountY
  | A_pivot => P_pivot | A_pivotX => P_pivotX | A_pivotY => P_pivotY
  | A_rotation => P_rotation
  end.

Lemma node_get_run (w : World) (l : loc) (n : CoreNode) (k : AnimProp) :
  heap w !! l = Some n -> node_get l k w = Ok (nprop (props n) (prop_of k), w).
Proof.
  intros E. unfold node_get. rewrite (bind_Ok _ _ _ _ _ (read_run _ _ _ E)).
  now destruct k.
Qed.

(** What a setter leaves in the property [k] when asked to store [v]: [v],
    or the value that was there when that value is [===] to [v]. *)
Definition stored (k : NumProp) (v : num) (n n' : CoreNode) : Prop :=
  nprop (props n') k = v \/
  (nprop (props n') k = nprop (props n) k /\ strict_eq (nprop (props n) k) v = true).

Lemma guarded_setter_stored (k : NumProp) (type : Z) (w : World) (l : loc)
      (n : CoreNode) (v : num) :
  heap w !! l = Some n ->
  exists w' n',
    guarded_setter k type l v w = Ok (tt, w') /\ heap w' !! l = Some n' /\
    stored k v n n' /\
    (forall k', k' <> k -> nprop (props n') k' = nprop (props n) k').
Proof.
  intros E. unfold guarded_setter. rewrite (bind_Ok _ _ _ _ _ (read_run _ _ _ E)).
  destruct (strict_eq (nprop (props n) k) v) eqn:S; cbn [negb when].
  - exists w, n. split; [reflexivity|]. split; [exact E|]. split; [right; now split|auto].
  - destruct (plain_setter_props k type w l n v E) as (w' & n' & R & E' & P).
    exists w', n'. split; [exact R|]. split; [exact E'|]. unfold stored. rewrite P.
    split; [left; cbn; now destruct (decide (k = k))|].
    intros k' Hne. cbn. now destruct (decide (k' = k)).
Qed.

Lemma guarded_setter_stored_only (k : NumProp) (type : Z) (w : World) (l : loc)
      (n : CoreNode) (v : num) :
  heap w !! l = Some n ->
  exists w' n',
    guarded_setter k type l v w = Ok (tt, w') /\ heap w' !! l = Some n' /\
    stored k v n n'.
Proof.
  intros E. destruct (guarded_setter_stored k type w l n v E) as (w' & n' & R & E' & H & _).
  now exists w', n'.
Qed.

Lemma plain_setter_stored (k : NumProp) (type : Z) (w : World) (l : loc)
      (n : CoreNode) (v : num) :
  heap w !! l = Some n ->
  exists w' n',
    plain_setter k type l v w = Ok (tt, w') /\ heap w' !! l = Some n' /\
    stored k v n n'.
Proof.
  intros E. destruct (plain_setter_props k type w l n v E) as (w' & n' & R & E' & P).
  exists w', n'. split; [exact R|]. split; [exact E'|]. unfold stored. rewrite P.
  left. cbn. now destruct (decide (k = k)).
Qed.

(** A setter that ends with the store of its own property. *)
Lemma stored_at_the_end (m : St unit) (k : NumProp) (type : Z) (w : World) (l : loc)
      (n : CoreNode) (v : num) :
  returns l m -> heap w !! l = Some n -> type <> 0 ->
  exists w' n',
    (m ;; store_prop l k v ;; setRecalculationType l type) w = Ok (tt, w') /\
    heap w' !! l = Some n' /\ stored k v n n'.
Proof.
  intros Hm E Ht. destruct (Hm w (ex_intro _ n E)) as (w1 & R1 & [n1 E1]).
  rewrite (bind_Ok _ _ _ _ _ R1).
  destruct (store_and_flag k type w1 l n1 v E1 Ht) as (w' & n' & R & E' & P & _).
  exists w', n'. split; [exact R|]. split; [exact E'|]. unfold stored. rewrite P.
  left. cbn. now destruct (decide (k = k)).
Qed.

(** X28 (CoreNode property setters and getters, as CoreAnimation uses them
    through [node[propName]]): after [node[k] = v] the getter of [k] returns
    [v], or the old value where the setter is guarded and the old value is
    [===] to [v]; except for [pivot], whose setter writes [pivotX] and
    [pivotY] and whose getter returns the [pivot] property, which no setter
    writes: it still returns the old value. *)
Theorem node_set_then_get
        (w : World) (l : loc) (n : CoreNode) (k : AnimProp) (v : num) :
  heap w !! l = Some n ->
  exists w' v',
    node_set l k v w = Ok (tt, w') /\ node_get l k w' = Ok (v', w') /\
    match k with
    | A_pivot => v' = nprop (props n) P_pivot
    | _ => v' = v \/
           (v' = nprop (props n) (prop_of k) /\
            strict_eq (nprop (props n) (prop_of k)) v = true)
    end.
Proof.
  intros E.
  assert (H : exists w' n',
             node_set l k v w = Ok (tt, w') /\ heap w' !! l = Some n' /\
             match k with
             | A_pivot => nprop (props n') P_pivot = nprop (props n) P_pivot
             | _ => stored (prop_of k) v n n'
             end).
  { destruct k; cbn [node_set prop_of];
      unfold set_x, set_y, set_width, set_height, set_scaleX, set_scaleY,
        set_rotation, set_alpha, set_colorTl, set_colorTr, set_colorBl,
        set_colorBr, set_mountX, set_mountY, set_pivotX, set_pivotY;
      try exact (guarded_setter_stored_only _ _ w l n v E);
      try exact (plain_setter_stored _ _ w l n v E).
    - (* color *)
      unfold set_color. apply stored_at_the_end; [returns_tac|exact E|lia].
    - unfold set_colorTop. apply stored_at_the_end; [returns_tac|exact E|lia].
    - unfold set_colorBottom. apply stored_at_the_end; [returns_tac|exact E|lia].
    - unfold set_colorLeft. apply stored_at_the_end; [returns_tac|exact E|lia].
    - unfold set_colorRight. apply stored_at_the_end; [returns_tac|exact E|lia].
    - (* scale *)
      unfold set_scale, set_scaleX, set_scaleY.
      destruct (guarded_setter_stored P_scaleX 4 w l n v E) as (w1 & n1 & R1 & E1 & S1 & _).
      destruct (guarded_setter_stored P_scaleY 4 w1 l n1 v E1) as (w2 & n2 & R2 & E2 & _ & K2).
      exists w2, n2. rewrite (bind_Ok _ _ _ _ _ R1). split; [exact R2|]. split; [exact E2|].
      unfold stored in *. rewrite (K2 P_scaleX) by discriminate. exact S1.
    - (* mount *)
      unfold set_mount.
      rewrite (bind_Ok _ _ _ _ _ (store_prop_run w l n P_mountX v E)).
      rewrite (bind_Ok _ _ _ _ _ (store_prop_run _ l _ P_mountY v (heap_put _ _ _))).
      rewrite put_put.
      set (n2 := with_props (with_nprop P_mountY v)
                   (with_props (with_nprop P_mountX v) n)).
      destruct (store_and_flag P_mount 2 (put l n2 w) l n2 v (heap_put _ _ _)
                  ltac:(lia)) as (w5 & n5 & R5 & E5 & P5 & _).
      exists w5, n5. split; [exact R5|]. split; [exact E5|]. left. now rewrite P5.
    - (* pivot *)
      unfold set_pivot. rewrite (bind_Ok _ _ _ _ _ (read_run _ _ _ E)).
      destruct (negb (strict_eq (nprop (props n) P_pivotX) v)
                || negb (strict_eq (nprop (props n) P_pivotY) v)); cbn [when].
      + rewrite (bind_Ok _ _ _ _ _ (store_prop_run w l n P_pivotX v E)).
        set (n2 := with_props (with_nprop P_pivotX v) n).
        destruct (store_and_flag P_pivotY 2 (put l n2 w) l n2 v (heap_put _ _ _)
                    ltac:(lia)) as (w5 & n5 & R5 & E5 & P5 & _).
        exists w5, n5. split; [exact R5|]. split; [exact E5|]. now rewrite P5.
      + exists w, n. split; [reflexivity|]. now split. }
  destruct H as (w' & n' & R & E' & S).
  exists w', (nprop (props n') (prop_of k)).
  split; [exact R|]. split; [exact (node_get_run w' l n' k E')|].
  destruct k; exact S.
Qed.

(** ** CoreAnimation: the constructor and reverse *)

Lemma obj_get_set (k : AnimProp) (v : num) (o : PropObject) :
  obj_get k (obj_set k v o) = Some v.
Proof.
  induction o as [|[k' v'] o IH]; cbn.
  - now destruct (decide (k = k)).
  - destruct (decide (k = k')) as [->|Hne]; cbn.
    + now destruct (decide (k' = k')).
    + now destruct (decide (k = k')).
Qed.

Lemma obj_get_set_ne (k k' : AnimProp) (v : num) (o : PropObject) :
  k' <> k -> obj_get k' (obj_set k v o) = obj_get k' o.
Proof.
  intros Hne. induction o as [|[k0 v0] o IH]; cbn.
  - now destruct (decide (k' = k)).
  - destruct (decide (k = k0)) as [->|H0]; cbn.
    + destruct (decide (k' = k0)); [contradiction|reflexivity].
    + now rewrite IH.
Qed.

Lemma obj_keys_set (k : AnimProp) (v : num) (o : PropObject) :
  is_Some (obj_get k o) -> obj_keys (obj_set k v o) = obj_keys o.
Proof.
  unfold obj_keys. induction o as [|[k0 v0] o IH]; cbn; [intros [? ?]; discriminate|].
  destruct (decide (k = k0)) as [->|H0]; cbn; [reflexivity|].
  intros H. now rewrite IH.
Qed.

Lemma obj_get_keys (k : AnimProp) (o : PropObject) :
  In k (obj_keys o) -> is_Some (obj_get k o).
Proof.
  unfold obj_keys. induction o as [|[k0 v0] o IH]; cbn; [contradiction|].
  destruct (decide (k = k0)); [eauto|]. intros [H|H]; [congruence|now apply IH].
Qed.

#[local] Instance In_AnimProp_dec (k : AnimProp) (ks : list AnimProp) : Decision (In k ks) :=
  in_dec AnimProp_eq_dec k ks.

(** The values after the loop of [reverse] over the keys [ks]. *)
Lemma swap_props_run (ks : list AnimProp) :
  forall (a : CoreAnimation) (w : World),
    NoDup ks ->
    (forall k, In k ks -> is_Some (obj_get k (a_props a)) /\
                          is_Some (obj_get k (propStartValues a))) ->
    exists p s,
      foldM swap_prop ks a w = Ok (with_values p s a, w) /\
      obj_keys p = obj_keys (a_props a) /\
      obj_keys s = obj_keys (propStartValues a) /\
      (forall k, obj_get k p = if decide (In k ks) then obj_get k (propStartValues a)
                               else obj_get k (a_props a)) /\
      (forall k, obj_get k s = if decide (In k ks) then obj_get k (a_props a)
                               else obj_get k (propStartValues a)).
Proof.
  induction ks as [|k0 ks IH]; intros a w N H.
  - exists (a_props a), (propStartValues a). cbn [foldM]. unfold ret.
    split; [now destruct a|]. repeat split.
  - apply NoDup_cons in N as [N0 N].
    destruct (H k0 (or_introl eq_refl)) as [[e He] [s0 Hs]].
    cbn [foldM]. unfold swap_prop at 1. rewrite He, Hs. cbn [assertTruthy].
    norm.
    set (a1 := with_values _ _ a).
    destruct (IH a1 w N) as (p & s & R & Kp & Ks & Gp & Gs).
    { intros k Hk. assert (k <> k0).
      { intros ->. apply N0. now apply list_elem_of_In. }
      cbn. rewrite !obj_get_set_ne by assumption. apply H. now right. }
    exists p, s. rewrite R. split; [reflexivity|].
    split; [rewrite Kp; cbn; apply obj_keys_set; eauto|].
    split; [rewrite Ks; cbn; apply obj_keys_set; eauto|].
    split; intros k; [rewrite Gp|rewrite Gs]; cbn [a_props propStartValues a1 with_values];
      destruct (decide (k = k0)) as [->|Hne].
    + destruct (decide (In k0 ks)) as [Hi|_];
        [exfalso; apply N0; now apply list_elem_of_In|].
      rewrite obj_get_set. destruct (decide (In k0 (k0 :: ks))) as [_|Hn]; [auto|].
      exfalso. apply Hn. now left.
    + rewrite !obj_get_set_ne by assumption.
      destruct (decide (In k ks)) as [Hi|Hn], (decide (In k (k0 :: ks))) as [Hi'|Hn'];
        try reflexivity.
      * exfalso. apply Hn'. now right.
      * exfalso. destruct Hi' as [->|Hi']; [now apply Hne|now apply Hn].
    + destruct (decide (In k0 ks)) as [Hi|_];
        [exfalso; apply N0; now apply list_elem_of_In|].
      rewrite obj_get_set. destruct (decide (In k0 (k0 :: ks))) as [_|Hn]; [auto|].
      exfalso. apply Hn. now left.
    + rewrite !obj_get_set_ne by assumption.
      destruct (decide (In k ks)) as [Hi|Hn], (decide (In k (k0 :: ks))) as [Hi'|Hn'];
        try reflexivity.
      * exfalso. apply Hn'. now right.
      * exfalso. destruct Hi' as [->|Hi']; [now apply Hne|now apply Hn].
Qed.

(** X29 (CoreAnimation.reverse): [reverse] exchanges the target and the
    start value of every animated property, sets the progress to 0 and, for an
    animation that does not loop, the stop method to false; it does not touch
    the node.  Reversing twice gives back the targets and the start values,
    for an animation whose animated properties all have a start value, as the
    constructor leaves it. *)
Theorem anim_reverse_twice (a : CoreAnimation) (w : World) :
  NoDup (obj_keys (a_props a)) ->
  (forall k, In k (obj_keys (a_props a)) -> is_Some (obj_get k (propStartValues a))) ->
  exists a1 a2,
    anim_reverse a w = Ok (a1, w) /\ anim_reverse a1 w = Ok (a2, w) /\
    (forall k, In k (obj_keys (a_props a)) ->
               obj_get k (a_props a1) = obj_get k (propStartValues a) /\
               obj_get k (propStartValues a1) = obj_get k (a_props a)) /\
    (forall k, obj_get k (a_props a2) = obj_get k (a_props a)) /\
    (forall k, obj_get k (propStartValues a2) = obj_get k (propStartValues a)) /\
    obj_keys (a_props a2) = obj_keys (a_props a) /\
    progress a1 = zero /\ progress a2 = zero /\
    (loop_truthy (settings a) = false ->
     stopMethod (settings a1) = Some SM_false).
Proof.
  intros N H.
  assert (H0 : forall k, In k (obj_keys (a_props a)) ->
                         is_Some (obj_get k (a_props (with_progress zero a))) /\
                         is_Some (obj_get k (propStartValues (with_progress zero a)))).
  { intros k Hk. split; [now apply obj_get_keys|now apply H]. }
  destruct (swap_props_run (obj_keys (a_props a)) (with_progress zero a) w N H0)
    as (p & s & R & Kp & Ks & Gp & Gs).
  cbn [a_props propStartValues with_progress] in Kp, Ks, Gp, Gs.
  set (b := with_values p s (with_progress zero a)) in R.
  set (a1 := if negb (loop_truthy (settings a)) then with_stopMethod (Some SM_false) b
             else b).
  assert (R1 : anim_reverse a w = Ok (a1, w)).
  { unfold anim_reverse. cbv zeta. cbn [a_props with_progress].
    rewrite (bind_Ok _ _ _ _ _ R). unfold a1. cbn [settings b with_values with_progress].
    now destruct (loop_truthy (settings a)). }
  assert (P1 : a_props a1 = p) by (unfold a1; now destruct (negb _)).
  assert (S1 : propStartValues a1 = s) by (unfold a1; now destruct (negb _)).
  assert (N1 : NoDup (obj_keys (a_props (with_progress zero a1)))).
  { cbn [a_props with_progress]. now rewrite P1, Kp. }
  assert (H1 : forall k, In k (obj_keys (a_props (with_progress zero a1))) ->
                         is_Some (obj_get k (a_props (with_progress zero a1))) /\
                         is_Some (obj_get k (propStartValues (with_progress zero a1)))).
  { cbn [a_props propStartValues with_progress]. rewrite P1, S1, Kp. intros k Hk.
    rewrite Gp, Gs. destruct (decide (In k (obj_keys (a_props a)))); [|contradiction].
    split; [now apply H|now apply obj_get_keys]. }
  destruct (swap_props_run _ (with_progress zero a1) w N1 H1)
    as (p2 & s2 & R2 & Kp2 & Ks2 & Gp2 & Gs2).
  cbn [a_props propStartValues with_progress] in Kp2, Ks2, Gp2, Gs2, R2.
  rewrite P1, S1, Kp in *.
  set (b2 := with_values p2 s2 (with_progress zero a1)) in R2.
  set (a2 := if negb (loop_truthy (settings b2)) then with_stopMethod (Some SM_false) b2
             else b2).
  assert (R3 : anim_reverse a1 w = Ok (a2, w)).
  { unfold anim_reverse. cbv zeta. cbn [a_props with_progress]. rewrite P1, Kp.
    rewrite (bind_Ok _ _ _ _ _ R2). unfold a2.
    now destruct (negb (loop_truthy (settings b2))). }
  assert (P2 : a_props a2 = p2).
  { unfold a2. destruct (negb (loop_truthy (settings b2))); reflexivity. }
  assert (S2 : propStartValues a2 = s2).
  { unfold a2. destruct (negb (loop_truthy (settings b2))); reflexivity. }
  exists a1, a2. split; [exact R1|]. split; [exact R3|].
  rewrite P1, S1, P2, S2.
  split.
  { intros k Hk. rewrite Gp, Gs.
    destruct (decide (In k (obj_keys (a_props a)))); [now split|contradiction]. }
  split.
  { intros k. rewrite Gp2, Gs, Gp. now destruct (decide (In k (obj_keys (a_props a)))). }
  split.
  { intros k. rewrite Gs2, Gp, Gs. now destruct (decide (In k (obj_keys (a_props a)))). }
  split; [now rewrite Kp2|].
  split; [unfold a1; now destruct (negb _)|].
  split; [unfold a2; destruct (negb (loop_truthy (settings b2))); reflexivity|].
  intros L. unfold a1. now rewrite L.
Qed.

Lemma starts_of_keys (node : loc) (n : CoreNode) (w : World) (ks : list AnimProp) :
  heap w !! node = Some n ->
  mapM (fun k => let* v := node_get node k in ret (k, v)) ks w
  = Ok (map (fun k => (k, nprop (props n) (prop_of k))) ks, w).
Proof.
  intros E. induction ks as [|k ks IH]; [reflexivity|]. cbn [mapM map].
  rewrite bind_bind, (bind_Ok _ _ _ _ _ (node_get_run w node n k E)), ret_bind.
  now rewrite (bind_Ok _ _ _ _ _ IH).
Qed.

Lemma obj_get_of_entries (f : AnimProp -> num) (ks : list AnimProp) :
  forall (acc : PropObject) (k : AnimProp),
    obj_get k (fold_left (fun o e => obj_set (fst e) (snd e) o)
                 (map (fun k => (k, f k)) ks) acc)
    = if decide (In k ks) then Some (f k) else obj_get k acc.
Proof.
  induction ks as [|k0 ks IH]; intros acc k; cbn [map fold_left fst snd].
  - now destruct (decide (In k [])).
  - rewrite IH. destruct (decide (In k ks)) as [Hi|Hn].
    + destruct (decide (In k (k0 :: ks))) as [_|Hn']; [reflexivity|].
      exfalso. apply Hn'. now right.
    + destruct (decide (k = k0)) as [->|Hne].
      * rewrite obj_get_set. destruct (decide (In k0 (k0 :: ks))) as [_|Hn']; [reflexivity|].
        exfalso. apply Hn'. now left.
      * rewrite obj_get_set_ne by assumption.
        destruct (decide (In k (k0 :: ks))) as [[->|Hi]|_]; [congruence|contradiction|reflexivity].
Qed.

(** X30 (CoreAnimation constructor): the constructor reads the node and
    does not change it; the animation it returns has the targets it was
    given, progress 0, no event emitted, and as start value of every animated
    property what the getter of the node returns for it at that moment, so
    every animated property has a target and a start value. *)
Theorem new_CoreAnimation_captures
        (w : World) (node : loc) (n : CoreNode) (p : PropObject) (s : AnimationSettings) :
  heap w !! node = Some n ->
  exists a,
    new_CoreAnimation node p s w = Ok (a, w) /\
    a_node a = node /\ a_props a = p /\ propsList a = obj_keys p /\
    progress a = zero /\ emitted a = [] /\ settings a = s /\
    (forall k, In k (obj_keys p) ->
               node_get node k w = Ok (nprop (props n) (prop_of k), w) /\
               obj_get k (propStartValues a) = Some (nprop (props n) (prop_of k))) /\
    values_defined a.
Proof.
  intros E. unfold new_CoreAnimation.
  rewrite (bind_Ok _ _ _ _ _ (starts_of_keys node n w (obj_keys p) E)).
  eexists. split; [reflexivity|]. cbn.
  repeat match goal with |- _ /\ _ => split end; try reflexivity.
  - intros k Hk. split; [exact (node_get_run w node n k E)|].
    rewrite obj_get_of_entries. now destruct (decide (In k (obj_keys p))).
  - intros k Hk. cbn in Hk |- *. split; [now apply obj_get_keys|].
    rewrite obj_get_of_entries. destruct (decide (In k (obj_keys p))); [eauto|contradiction].
Qed.

End Properties.

(** * The theorems on concrete scenes *)

Section Instances.
#[local] Existing Instance Q_JsNumber.
#[local] Existing Instance Q_Lib.

(** Closed equations are checked by evaluating both sides. *)
Ltac run_scene :=
  match goal with
  | |- @eq ?T _ ?b => vm_cast_no_check (@eq_refl T b)
  end.

Lemma node_at_lookup (w : World) (l : loc) :
  bool_decide (is_Some (heap w !! l)) = true -> heap w !! l = Some (node_at w l).
Proof.
  intros H. apply bool_decide_eq_true in H. destruct H as [n E].
  unfold node_at. now rewrite E.
Qed.

Ltac find_node := apply node_at_lookup; run_scene.

Ltac run_scenes := repeat match goal with |- _ /\ _ => split end; run_scene.

Lemma is_Some_lookup (w : World) (l : loc) :
  bool_decide (is_Some (heap w !! l)) = true -> is_Some (heap w !! l).
Proof. apply bool_decide_eq_true. Qed.

(** C4: the claim fails on the scene of two nodes. Asked for the ids 1 and 7,
    of which 7 is not registered, tree.getNodes faults instead of returning
    the node of id 1; asked for no id at all, it returns both nodes instead of
    none. *)
Lemma getNodes_drops_nothing :
  ~ (tree_getNodes (Some [1; 7]) scene_parent_child
     = Ok (resolveChildren_spec scene_parent_child [1; 7], scene_parent_child)) /\
  ~ (tree_getNodes (Some []) scene_parent_child
     = Ok (resolveChildren_spec scene_parent_child [], scene_parent_child)).
Proof.
  split; intros H.
  - assert (E : tree_getNodes (Some [1; 7]) scene_parent_child = Fault (NodeNotFound 7))
      by run_scene.
    pose proof (eq_trans (eq_sym E) H) as X. discriminate X.
  - assert (E : tree_getNodes (Some []) scene_parent_child
                = Ok ([1%positive; 2%positive], scene_parent_child)) by run_scene.
    pose proof (eq_trans (eq_sym E) H) as X. discriminate X.
Qed.

Lemma getNodes_resolves_witness :
  tree_getNodes (Some [2; 1]) scene_parent_child
    = Ok ([2%positive; 1%positive], scene_parent_child) /\
  tree_getNodes (Some [1; 7; 2]) scene_parent_child = Fault (NodeNotFound 7).
Proof.
  destruct (getNodes_resolves scene_parent_child) as (H1 & H2 & _).
  split.
  - apply H1; [discriminate|].
    repeat constructor; run_scene.
  - apply (H2 [1] 7 [2] [1%positive]); [|run_scene].
    repeat constructor; run_scene.
Defined.

(** C3: the claim fails for alpha. Node 2 of the scene has alpha 1, an empty
    bitmask and is not dirty; assigning 1 to its alpha leaves it with bit 4
    set and in the dirty set. *)
Lemma set_alpha_same_value_marks :
  strict_eq (nprop (props (node_at scene_parent_child 2%positive)) P_alpha) 1%Q = true /\
  recalculationType (node_at scene_parent_child 2%positive) = 0 /\
  _dirtyNodes scene_parent_child = [] /\
  ~ (set_alpha 2%positive 1%Q scene_parent_child = Ok (tt, scene_parent_child)) /\
  recalculationType
    (node_at (run (set_alpha 2%positive 1%Q) scene_parent_child) 2%positive) = 4 /\
  _dirtyNodes (run (set_alpha 2%positive 1%Q) scene_parent_child) = [(2, 2%positive)].
Proof.
  assert (E0 : _dirtyNodes scene_parent_child = []) by run_scene.
  assert (E1 : _dirtyNodes (run (set_alpha 2%positive 1%Q) scene_parent_child)
               = [(2, 2%positive)]) by run_scene.
  repeat match goal with |- _ /\ _ => split end; try run_scene.
  intros H.
  pose proof (f_equal _dirtyNodes (run_Ok _ _ _ _ H)) as X.
  pose proof (eq_trans (eq_sym E1) (eq_trans X E0)) as Y. discriminate Y.
Qed.

Lemma setters_on_equal_value_witness :
  set_x 2%positive 0%Q scene_parent_child = Ok (tt, scene_parent_child) /\
  set_scaleX 2%positive 1%Q scene_parent_child = Ok (tt, scene_parent_child) /\
  set_scale 2%positive 1%Q scene_parent_child = Ok (tt, scene_parent_child) /\
  set_pivot 2%positive 0%Q scene_parent_child = Ok (tt, scene_parent_child) /\
  set_parent 2%positive (Some 1%positive) scene_parent_child
    = Ok (tt, scene_parent_child) /\
  (exists w', set_alpha 2%positive 1%Q scene_parent_child = Ok (tt, w') /\
              assigned 2%positive P_alpha 4 1%Q
                (node_at scene_parent_child 2%positive) w') /\
  (exists w', set_zIndex 2%positive 0%Q scene_parent_child = Ok (tt, w') /\
              assigned 2%positive P_zIndex 8 0%Q
                (node_at scene_parent_child 2%positive) w') /\
  (exists w', set_mount 2%positive 0%Q scene_parent_child = Ok (tt, w') /\
              marked_with 2%positive 2 (node_at scene_parent_child 2%positive) w'
                (fun n' => nprop (props n') P_mountX = 0%Q /\
                           nprop (props n') P_mountY = 0%Q /\
                           nprop (props n') P_mount = 0%Q)) /\
  (exists w', set_color 2%positive 0%Q scene_parent_child = Ok (tt, w') /\
              marked_with 2%positive 2 (node_at scene_parent_child 2%positive) w'
                (fun n' => nprop (props n') P_color = 0%Q)) /\
  (exists w', set_clipping 2%positive false scene_parent_child = Ok (tt, w') /\
              marked_with 2%positive 4 (node_at scene_parent_child 2%positive) w'
                (fun n' => clipping (props n') = false /\ clippingRect n' = None /\
                           nprop (props n')
                           = nprop (props (node_at scene_parent_child 2%positive)))) /\
  (exists w' n', set_zIndexLocked 2%positive 0%Q scene_parent_child = Ok (tt, w') /\
                 heap w' !! 2%positive = Some n' /\
                 nprop (props n') P_zIndexLocked = 0%Q /\
                 hasUpdates n' = hasUpdates (node_at scene_parent_child 2%positive) /\
                 _dirtyNodes w' = _dirtyNodes scene_parent_child) /\
  (exists w', set_parent 1%positive None scene_parent_child = Ok (tt, w') /\
              marked_with 1%positive 8 (node_at scene_parent_child 1%positive) w'
                (fun n' => parentId n' = None)).
Proof.
  assert (E : heap scene_parent_child !! 2%positive
              = Some (node_at scene_parent_child 2%positive)) by find_node.
  assert (E1 : heap scene_parent_child !! 1%positive
               = Some (node_at scene_parent_child 1%positive)) by find_node.
  pose proof (setters_on_equal_value scene_parent_child 2%positive _ 0%Q E) as H0.
  pose proof (setters_on_equal_value scene_parent_child 2%positive _ 1%Q E) as H1.
  pose proof (setters_on_equal_value scene_parent_child 1%positive _ 0%Q E1) as HR.
  destruct H0 as [X H0]. do 7 apply proj2 in H0.
  destruct H0 as [PV [PA H0]]. do 5 apply proj2 in H0.
  destruct H0 as [ZI H0]. do 4 apply proj2 in H0.
  destruct H0 as [MO [CO H0]]. do 4 apply proj2 in H0.
  destruct H0 as [CL [ZL _]].
  do 4 apply proj2 in H1. destruct H1 as [SX H1].
  do 2 apply proj2 in H1. destruct H1 as [SC H1].
  do 2 apply proj2 in H1. destruct H1 as [AL _].
  do 28 apply proj2 in HR. rename HR into NP.
  repeat match goal with |- _ /\ _ => split end.
  - apply X. run_scene.
  - apply SX. run_scene.
  - apply SC; run_scene.
  - apply PV; run_scene.
  - apply (PA 1%positive _ E1). run_scene.
  - exact AL.
  - exact ZI.
  - exact MO.
  - exact CO.
  - exact (CL false).
  - destruct ZL as (w' & n' & R & L & V & _ & _ & U & D). exists w', n'. exact (conj R (conj L (conj V (conj U D)))).
  - apply NP. run_scene.
Defined.

Lemma set_parent_moves_child_witness :
  exists w' o' np',
    set_parent 2%positive (Some 3%positive) scene_three = Ok (tt, w') /\
    heap w' !! 1%positive = Some o' /\
    heap w' !! 3%positive = Some np' /\
    ~ In 2 (childrenIds o') /\
    childrenIds np' = [2].
Proof.
  assert (Ei : id (props (node_at scene_three 2%positive)) = 2) by run_scene.
  assert (Ec : childrenIds (node_at scene_three 3%positive) = []) by run_scene.
  assert (Ep : id (props (node_at scene_three 3%positive)) = 3) by run_scene.
  pose proof (set_parent_moves_child scene_three 2%positive 1%positive 3%positive
                (node_at scene_three 2%positive) (node_at scene_three 1%positive)
                (node_at scene_three 3%positive) 1) as H.
  rewrite Ei, Ec, Ep in H.
  apply H; try find_node; try run_scene; discriminate.
Defined.

Lemma anim_update_advances_witness :
  (exists a', anim_update (animation_x None) 3%Q scene_parent_child
              = Ok (a', scene_parent_child) /\
              same_animation (animation_x None) a' /\
              progress a' = 0%Q /\ emitted a' = ["finished"]) /\
  (exists a', anim_update (animation_x (Some 0%Q)) 3%Q scene_parent_child
              = Ok (a', scene_parent_child) /\
              same_animation (animation_x (Some 0%Q)) a' /\
              progress a' = 0%Q /\ emitted a' = ["finished"]) /\
  (exists a', anim_update (animation_x_looping (Some 4%Q)) 5%Q scene_parent_child
              = Ok (a', scene_parent_child) /\
              same_animation (animation_x_looping (Some 4%Q)) a' /\
              progress a' = 0%Q /\ emitted a' = ["finished"]) /\
  (exists a', anim_update (animation_x (Some 4%Q)) 5%Q scene_parent_child
              = Ok (a', scene_parent_child) /\
              same_animation (animation_x (Some 4%Q)) a' /\
              progress a' = 1%Q /\ emitted a' = ["finished"]) /\
  (exists a' w', anim_update (animation_x (Some 4%Q)) 3%Q scene_parent_child
                 = Ok (a', w') /\
                 same_animation (animation_x (Some 4%Q)) a' /\
                 progress a' = (3 # 4)%Q /\ emitted a' = []).
Proof.
  destruct (anim_update_advances (animation_x None) 3%Q scene_parent_child)
    as [N _].
  destruct (anim_update_advances (animation_x (Some 0%Q)) 3%Q scene_parent_child)
    as (_ & Z & _).
  destruct (anim_update_advances (animation_x_looping (Some 4%Q)) 5%Q
              scene_parent_child) as (_ & _ & L).
  destruct (L 4%Q eq_refl eq_refl) as (L1 & _ & _).
  destruct (anim_update_advances (animation_x (Some 4%Q)) 5%Q scene_parent_child)
    as (_ & _ & H5).
  destruct (H5 4%Q eq_refl eq_refl) as (_ & H51 & _).
  destruct (anim_update_advances (animation_x (Some 4%Q)) 3%Q scene_parent_child)
    as (_ & _ & H3).
  destruct (H3 4%Q eq_refl eq_refl) as (_ & _ & H31).
  split; [|split; [|split; [|split]]].
  - apply N. now left.
  - apply Z; reflexivity.
  - apply L1; reflexivity.
  - apply H51; [reflexivity|discriminate].
  - apply H31.
    + reflexivity.
    + apply is_Some_lookup. run_scene.
    + intros k [<-|[]]. split; eexists; reflexivity.
Defined.

(** C8: the claim fails on a completed run, which is not terminal. The
    animation of node 2's [x] to 100 over a duration of 4, advanced by 5,
    completes: progress 1, "finished" emitted once, the node's [x] still 0.
    Advancing the completed animation by 1 emits "finished" a second time;
    advancing it by 0 emits nothing and writes 100 to the node's [x]. *)
Lemma completion_is_not_terminal :
  value_of (anim_update (animation_x (Some 4%Q)) 5%Q) scene_parent_child
    = Some animation_x_completed /\
  progress animation_x_completed = 1%Q /\
  emitted animation_x_completed = ["finished"] /\
  nprop (props (node_at scene_parent_child 2%positive)) P_x = 0%Q /\
  ~ (anim_update animation_x_completed 1%Q scene_parent_child
     = Ok (animation_x_completed, scene_parent_child)) /\
  emitted <$> value_of (anim_update animation_x_completed 1%Q) scene_parent_child
    = Some ["finished"; "finished"] /\
  ~ (anim_update animation_x_completed 0%Q scene_parent_child
     = Ok (animation_x_completed, scene_parent_child)) /\
  emitted <$> value_of (anim_update animation_x_completed 0%Q) scene_parent_child
    = Some ["finished"] /\
  nprop (props (node_at (run (anim_update animation_x_completed 0%Q)
                           scene_parent_child) 2%positive)) P_x = 100%Q.
Proof.
  assert (E0 : nprop (props (node_at scene_parent_child 2%positive)) P_x = 0%Q)
    by run_scene.
  assert (E1 : emitted <$> value_of (anim_update animation_x_completed 1%Q)
                             scene_parent_child
               = Some ["finished"; "finished"]) by run_scene.
  assert (E2 : nprop (props (node_at (run (anim_update animation_x_completed 0%Q)
                                        scene_parent_child) 2%positive)) P_x
               = 100%Q) by run_scene.
  repeat match goal with |- _ /\ _ => split end;
    try exact E0; try exact E1; try exact E2; try reflexivity; try run_scene.
  - intros H.
    pose proof (f_equal (fmap emitted) (value_of_Ok _ _ _ _ H)) as X.
    pose proof (eq_trans (eq_sym E1) X) as Y. discriminate Y.
  - intros H.
    pose proof (f_equal (fun w => nprop (props (node_at w 2%positive)) P_x)
                  (run_Ok _ _ _ _ H)) as X.
    pose proof (eq_trans (eq_sym E2) (eq_trans X E0)) as Y. discriminate Y.
Qed.

(** C9 on a failing input: node 2 has [x = 0]; an animation of [x] to 100
    with duration 4 is advanced by 3 and by 3 (the second step ends the run),
    reversed, and advanced by 3 and by 3 again. Both runs emit "finished",
    and [x] ends at 25, not at 0: the step on which the progress exceeds 1
    returns before the properties are written. *)
Theorem round_trip_misses_start :
  nprop (props (node_at scene_parent_child 2%positive)) P_x = 0%Q /\
  match round_trip scene_parent_child with
  | Ok (a, w) => Some (emitted a, nprop (props (node_at w 2%positive)) P_x)
  | _ => None
  end = Some (["finished"; "finished"], 25%Q).
Proof. run_scenes. Qed.

(** C7 on a failing input: node 1 has alpha 0 and no parent, its child node 2
    has alpha 1/2. The world alpha of node 2, and the alpha of the quad it
    renders, is 1/2 and not 0: [parent?.worldAlpha || 1] replaces the
    parent's 0 by 1. *)
Theorem worldAlpha_of_transparent_parent :
  nprop (props (node_at scene_alpha 1%positive)) P_alpha = 0%Q /\
  nprop (props (node_at scene_alpha 2%positive)) P_alpha = (1 # 2)%Q /\
  parentNode (node_at scene_alpha 1%positive) = None /\
  parentNode (node_at scene_alpha 2%positive) = Some 1%positive /\
  value_of (get_worldAlpha 8 1%positive) scene_alpha = Some 0%Q /\
  value_of (get_worldAlpha 8 2%positive) scene_alpha = Some (1 # 2)%Q /\
  q_alpha <$> value_of (renderQuads 8 2%positive) scene_alpha = Some (1 # 2)%Q.
Proof. run_scenes. Qed.

(** C2 on a failing input: node 2 has rotation 0 and was updated; its
    rotation is set to 1 and it is updated again. The scale-rotate matrix and
    the local transform are still the identity, not the rotation by 1: the
    rotation setter flags the translate recalculation (2), so
    [updateScaleRotateTransform] does not run. Setting scaleX to 2 instead
    does rebuild the matrix. *)
Theorem rotation_leaves_scaleRotate :
  nprop (props (node_at scene_rotated 2%positive)) P_rotation = 1%Q /\
  recalculationType (node_at scene_rotated 2%positive) = 0 /\
  scaleRotateTransform (node_at scene_rotated 2%positive)
    = Some {| af_ta := 1; af_tb := 0; af_tx := 0; af_tc := 0; af_td := 1; af_ty := 0 |} /\
  localTransform (node_at scene_rotated 2%positive)
    = Some {| af_ta := 1; af_tb := 0; af_tx := 0; af_tc := 0; af_td := 1; af_ty := 0 |} /\
  m_scale (Matrix3d_rotate 1%Q) 1%Q 1%Q
    = {| af_ta := 13 # 24; af_tb := - 101 # 120; af_tx := 0;
         af_tc := 101 # 120; af_td := 13 # 24; af_ty := 0 |} /\
  scaleRotateTransform (node_at scene_scaled 2%positive)
    = Some {| af_ta := 2; af_tb := 0; af_tx := 0; af_tc := 0; af_td := 1; af_ty := 0 |}.
Proof. run_scenes. Qed.

Lemma zIndex_capped_by_locked_parent_witness :
  exists vN vP w1 w2,
    get_zIndex 8 2%positive scene_locked = Ok (vN, w1) /\
    get_zIndex 8 1%positive w1 = Ok (vP, w2) /\
    nle vN vP = true.
Proof.
  apply (zIndex_capped_by_locked_parent scene_locked 2%positive 1%positive
           (node_at scene_locked 2%positive) (node_at scene_locked 1%positive) 0 8).
  - find_node.
  - run_scene.
  - find_node.
  - run_scene.
  - apply (rooted_top _ _ (node_at scene_locked 1%positive)); [find_node|run_scene].
  - lia.
Defined.

Lemma zIndex_own_without_lock_witness :
  exists w', get_zIndex 8 2%positive scene_parent_child
             = Ok (num_or (nprop (props (node_at scene_parent_child 2%positive)) P_zIndex)
                          zero, w').
Proof.
  apply (zIndex_own_without_lock scene_parent_child 2%positive
           (node_at scene_parent_child 2%positive) 1 8).
  - find_node.
  - apply (rooted_step _ _ (node_at scene_parent_child 2%positive) 1%positive);
      [find_node|run_scene|].
    apply (rooted_top _ _ (node_at scene_parent_child 1%positive)); [find_node|run_scene].
  - lia.
  - intros lp pn Hp Ep.
    assert (Hl : parent_in (_tree scene_parent_child) (node_at scene_parent_child 2%positive)
                 = Some (Some 1%positive)) by run_scene.
    pose proof (eq_trans (eq_sym Hp) Hl) as X. injection X as ->.
    assert (E1 : heap scene_parent_child !! 1%positive
                 = Some (node_at scene_parent_child 1%positive)) by find_node.
    pose proof (lookup_unique _ _ _ _ Ep E1) as ->.
    run_scene.
Defined.


(** ** The further properties on concrete scenes *)

Lemma is_Some_decide {A : Type} (o : option A) :
  bool_decide (is_Some o) = true -> is_Some o.
Proof. apply bool_decide_eq_true. Qed.

Ltac scene_some := apply is_Some_decide; run_scene.

(** An implication whose premise is a test that fails on the scene. *)
Ltac not_in_scene :=
  let H := fresh in
  intros H; exfalso;
  match type of H with
  | ?b = true =>
      let F := fresh in
      assert (F : b = false) by run_scene; exact (eq_true_false_abs _ H F)
  end.

Lemma scene_nested_updatable :
  updatable 8 scene_nested 2%positive (node_at scene_nested 2%positive) (Some 1%positive).
Proof.
  split; [find_node|]. split; [scene_some|]. split; [intros _; scene_some|].
  split; [not_in_scene|]. split; [run_scene|].
  split; [intros lp [= <-]; apply is_Some_lookup; run_scene|]. not_in_scene.
Qed.

Lemma scene_orphaned_updatable :
  updatable 8 scene_orphaned 1%positive (node_at scene_orphaned 1%positive) None.
Proof.
  split; [find_node|]. split; [scene_some|]. split; [not_in_scene|].
  split.
  { intros _ k Hk.
    assert (C : childrenIds (node_at scene_orphaned 1%positive) = []) by run_scene.
    rewrite C in Hk. destruct Hk. }
  split; [run_scene|]. split; [intros lp [=]|]. not_in_scene.
Qed.

Lemma scene_clipped_updatable :
  updatable 8 scene_clipped 2%positive (node_at scene_clipped 2%positive) (Some 1%positive).
Proof.
  split; [find_node|]. split; [scene_some|]. split; [intros _; scene_some|].
  split; [not_in_scene|]. split; [run_scene|].
  split; [intros lp [= <-]; apply is_Some_lookup; run_scene|]. not_in_scene.
Qed.

Lemma update_composes_with_parent_witness :
  exists w' n' pn' lt,
    update 8 2%positive None scene_nested = Ok (tt, w') /\
    heap w' !! 2%positive = Some n' /\ heap w' !! 1%positive = Some pn' /\
    globalTransform pn' = Some (affine_translate 10 0) /\
    localTransform n' = Some lt /\
    globalTransform n' = Some (m_multiply (affine_translate 10 0) lt).
Proof.
  apply (update_composes_with_parent 8 scene_nested 2%positive 1%positive None
           (node_at scene_nested 2%positive) (node_at scene_nested 1%positive)
           (affine_translate 10 0)).
  - exact scene_nested_updatable.
  - discriminate.
  - find_node.
  - run_scene.
Defined.

Lemma update_copies_local_transform_witness :
  exists w' n' lt,
    update 8 1%positive None scene_orphaned = Ok (tt, w') /\
    heap w' !! 1%positive = Some n' /\
    localTransform n' = Some lt /\ globalTransform n' = Some lt.
Proof.
  apply (update_copies_local_transform 8 scene_orphaned 1%positive None
           (node_at scene_orphaned 1%positive) None).
  - exact scene_orphaned_updatable.
  - intros lp pn [=].
Defined.

Lemma update_recomputes_transforms_witness :
  exists w' n',
    update 8 2%positive None scene_nested = Ok (tt, w') /\
    heap w' !! 2%positive = Some n' /\
    props n' = props (node_at scene_nested 2%positive) /\
    (has_bit (recalculationType (node_at scene_nested 2%positive)) 4 = true ->
     scaleRotateTransform n' = Some (scale_rotate_matrix n') /\
     localTransform n' = Some (local_matrix (scale_rotate_matrix n') n')) /\
    (has_bit (recalculationType (node_at scene_nested 2%positive)) 4 = false ->
     scaleRotateTransform n' = scaleRotateTransform (node_at scene_nested 2%positive) /\
     (has_bit (recalculationType (node_at scene_nested 2%positive)) 2 = true ->
      forall sr, scaleRotateTransform (node_at scene_nested 2%positive) = Some sr ->
                 localTransform n' = Some (local_matrix sr n')) /\
     (has_bit (recalculationType (node_at scene_nested 2%positive)) 2 = false ->
      localTransform n' = localTransform (node_at scene_nested 2%positive))).
Proof.
  apply (update_recomputes_transforms 8 scene_nested 2%positive None
           (node_at scene_nested 2%positive) (Some 1%positive)).
  exact scene_nested_updatable.
Defined.

Lemma update_resets_flags_witness :
  exists w' n',
    update 8 2%positive None scene_nested = Ok (tt, w') /\
    heap w' !! 2%positive = Some n' /\
    recalculationType n' = 0 /\ updateMask n' = 0 /\ hasUpdates n' = false /\
    parentNode n' = Some 1%positive /\
    parentId n' = parentId (node_at scene_nested 2%positive) /\
    childrenIds n' = childrenIds (node_at scene_nested 2%positive) /\
    _tree w' = _tree scene_nested /\ _dirtyNodes w' = _dirtyNodes scene_nested.
Proof.
  apply (update_resets_flags 8 scene_nested 2%positive None
           (node_at scene_nested 2%positive) (Some 1%positive)).
  exact scene_nested_updatable.
Defined.

Lemma update_leaves_other_nodes_witness :
  exists w' n0',
    update 8 2%positive None scene_nested = Ok (tt, w') /\
    heap w' !! 1%positive = Some n0' /\
    with_parentNode None n0' = with_parentNode None (node_at scene_nested 1%positive).
Proof.
  apply (update_leaves_other_nodes 8 scene_nested 2%positive 1%positive None
           (node_at scene_nested 2%positive) (node_at scene_nested 1%positive)
           (Some 1%positive)).
  - exact scene_nested_updatable.
  - discriminate.
  - find_node.
Defined.

Lemma update_resolves_children_witness :
  exists w' n' cs,
    update 8 1%positive None scene_orphaned = Ok (tt, w') /\
    heap w' !! 1%positive = Some n' /\
    Permutation (children n') cs /\
    (has_bit (recalculationType (node_at scene_orphaned 1%positive)) 8 = false ->
     children n' = cs) /\
    (has_bit (updateMask (node_at scene_orphaned 1%positive)) 1 = false ->
     cs = children (node_at scene_orphaned 1%positive)) /\
    (has_bit (updateMask (node_at scene_orphaned 1%positive)) 1 = true ->
     ~ (childrenIds (node_at scene_orphaned 1%positive) = []) ->
     Forall2 (fun i c => map_get i (_tree scene_orphaned) = Some c)
             (childrenIds (node_at scene_orphaned 1%positive)) cs) /\
    (has_bit (updateMask (node_at scene_orphaned 1%positive)) 1 = true ->
     childrenIds (node_at scene_orphaned 1%positive) = [] ->
     cs = map_values (_tree scene_orphaned)).
Proof.
  apply (update_resolves_children 8 scene_orphaned 1%positive None
           (node_at scene_orphaned 1%positive) None).
  exact scene_orphaned_updatable.
Defined.

Lemma update_faults_on_unregistered_child_witness :
  update 8 1%positive None scene_removed = Fault (NodeNotFound 2).
Proof.
  apply (update_faults_on_unregistered_child 8 scene_removed 1%positive None
           (node_at scene_removed 1%positive) [] [] 2 []).
  - find_node.
  - scene_some.
  - run_scene.
  - run_scene.
  - constructor.
  - run_scene.
Defined.

Lemma update_keeps_cached_clipping_rect_witness :
  exists w' n',
    update 8 2%positive None scene_clipped = Ok (tt, w') /\
    heap w' !! 2%positive = Some n' /\
    clippingRect n' = clippingRect (node_at scene_clipped 2%positive) /\
    parentClippingRect n' = parentClippingRect (node_at scene_clipped 2%positive).
Proof.
  apply (update_keeps_cached_clipping_rect 8 scene_clipped 2%positive None
           (node_at scene_clipped 2%positive) (Some 1%positive)).
  - exact scene_clipped_updatable.
  - scene_some.
  - run_scene.
  - left. run_scene.
Defined.

Lemma calculateClippingRect_idempotent_witness :
  exists w1,
    calculateClippingRect 2%positive (Some parent_rect) scene_clipping = Ok (tt, w1) /\
    calculateClippingRect 2%positive (Some parent_rect) w1 = Ok (tt, w1).
Proof.
  apply (calculateClippingRect_idempotent scene_clipping 2%positive
           (node_at scene_clipping 2%positive) (Some parent_rect)).
  find_node.
Defined.

Lemma calculateClippingRect_of_clipping_node_witness :
  exists w1 n1,
    calculateClippingRect 2%positive None scene_clipping = Ok (tt, w1) /\
    heap w1 !! 2%positive = Some n1 /\
    parentClippingRect n1 = None /\
    exists r, clippingRect n1 = Some r /\ rect_fields r = (0%Q, 0%Q, 30%Q, 20%Q).
Proof.
  apply (calculateClippingRect_of_clipping_node scene_clipping 2%positive
           (node_at scene_clipping 2%positive) (affine_translate 0 0) None).
  - find_node.
  - run_scene.
  - run_scene.
  - run_scene.
Defined.

Lemma calculateClippingRect_of_plain_node_witness :
  exists w1 n1,
    calculateClippingRect 2%positive (Some parent_rect) scene_parent_child = Ok (tt, w1) /\
    heap w1 !! 2%positive = Some n1 /\
    clippingRect n1 = Some parent_rect /\ next_loc w1 = next_loc scene_parent_child.
Proof.
  apply (calculateClippingRect_of_plain_node scene_parent_child 2%positive
           (node_at scene_parent_child 2%positive) (Some parent_rect)).
  - find_node.
  - scene_some.
  - run_scene.
  - left. run_scene.
Defined.

Lemma scene_siblings_rooted (c : loc) :
  In c (children (node_at scene_siblings 1%positive)) ->
  exists d, (d < 8)%nat /\ rooted scene_siblings c d.
Proof.
  assert (C : children (node_at scene_siblings 1%positive) = [2%positive; 3%positive])
    by run_scene.
  intros Hc. rewrite C in Hc.
  assert (R1 : rooted scene_siblings 1%positive 0).
  { apply (rooted_top _ _ (node_at scene_siblings 1%positive)); [find_node|run_scene]. }
  exists 1%nat. split; [lia|].
  destruct Hc as [<-|[<-|[]]].
  - apply (rooted_step _ _ (node_at scene_siblings 2%positive) 1%positive);
      [find_node|run_scene|exact R1].
  - apply (rooted_step _ _ (node_at scene_siblings 3%positive) 1%positive);
      [find_node|run_scene|exact R1].
Qed.

Lemma scene_stacked_rooted (c : loc) :
  In c (children (node_at scene_stacked 1%positive)) ->
  exists d, (d < 8)%nat /\ rooted scene_stacked c d.
Proof.
  assert (C : children (node_at scene_stacked 1%positive) = [2%positive; 3%positive])
    by run_scene.
  intros Hc. rewrite C in Hc.
  assert (R1 : rooted scene_stacked 1%positive 0).
  { apply (rooted_top _ _ (node_at scene_stacked 1%positive)); [find_node|run_scene]. }
  exists 1%nat. split; [lia|].
  destruct Hc as [<-|[<-|[]]].
  - apply (rooted_step _ _ (node_at scene_stacked 2%positive) 1%positive);
      [find_node|run_scene|exact R1].
  - apply (rooted_step _ _ (node_at scene_stacked 3%positive) 1%positive);
      [find_node|run_scene|exact R1].
Qed.

(** On rationals, of two values at most one is smaller than the other. *)
Lemma Q_smaller_asym (z z' : Q) :
  nlt (nsub z z') zero = true -> nlt (nsub z' z) zero = false.
Proof.
  cbn. intros H.
  apply negb_true_iff in H. apply negb_false_iff. apply Qle_bool_iff.
  rewrite Qred_correct.
  destruct (Qlt_le_dec (z - z') 0) as [Hlt|Hle].
  - assert (Heq : (z' - z == - (z - z'))%Q) by ring. rewrite Heq.
    apply Qlt_le_weak in Hlt. apply Qopp_le_compat in Hlt. exact Hlt.
  - exfalso. apply (proj2 (Qle_bool_iff _ _)) in Hle.
    assert (X : Qle_bool 0 (Qred (z - z')) = true).
    { apply Qle_bool_iff. rewrite Qred_correct. now apply Qle_bool_iff. }
    congruence.
Qed.

(** In the scene of the two siblings both children of node 1 have zIndex 0. *)
Lemma scene_siblings_ascending :
  zIndex_ascending scene_siblings (children (node_at scene_siblings 1%positive)).
Proof.
  assert (C : children (node_at scene_siblings 1%positive)
              = [2%positive; 3%positive]) by run_scene.
  assert (Z2 : value_of (get_zIndex 8 2%positive) scene_siblings = Some 0%Q)
    by run_scene.
  assert (Z3 : value_of (get_zIndex 8 3%positive) scene_siblings = Some 0%Q)
    by run_scene.
  rewrite C. intros i c c' z z' Hc Hc' Hz Hz'.
  destruct i as [|[|i]]; [|discriminate Hc'|discriminate Hc'].
  injection Hc as <-. injection Hc' as <-.
  destruct (scene_siblings_rooted 2%positive) as (d & Hd & R);
    [rewrite C; now left|].
  destruct (scene_siblings_rooted 3%positive) as (d' & Hd' & R');
    [rewrite C; right; now left|].
  pose proof (eq_trans (eq_sym (value_of_zIndex 8 _ _ _ _ R Hd Hz)) Z2) as X.
  pose proof (eq_trans (eq_sym (value_of_zIndex 8 _ _ _ _ R' Hd' Hz')) Z3) as X'.
  injection X as ->. injection X' as ->. reflexivity.
Qed.

Lemma sortChildren_keeps_ordered_children_witness :
  (exists w' n',
      sortChildren 8 1%positive scene_siblings = Ok (tt, w') /\
      heap w' !! 1%positive = Some n' /\
      children n' = children (node_at scene_siblings 1%positive) /\
      hasUpdates n' = hasUpdates (node_at scene_siblings 1%positive) /\
      recalculationType n' = recalculationType (node_at scene_siblings 1%positive)) /\
  (exists w' n',
      sortChildren 8 1%positive scene_stacked = Ok (tt, w') /\
      heap w' !! 1%positive = Some n' /\
      Permutation (children n') (children (node_at scene_stacked 1%positive)) /\
      zIndex_ascending scene_stacked (children n') /\
      props n' = props (node_at scene_stacked 1%positive) /\
      hasUpdates n' = hasUpdates (node_at scene_stacked 1%positive) /\
      recalculationType n' = recalculationType (node_at scene_stacked 1%positive) /\
      others_kept 1%positive scene_stacked w' /\
      _tree w' = _tree scene_stacked /\
      _dirtyNodes w' = _dirtyNodes scene_stacked) /\
  children (node_at scene_stacked 1%positive) = [2%positive; 3%positive] /\
  value_of (get_zIndex 8 2%positive) scene_stacked = Some 5%Q /\
  value_of (get_zIndex 8 3%positive) scene_stacked = Some 0%Q /\
  children (node_at (run (sortChildren 8 1%positive) scene_stacked) 1%positive)
    = [3%positive; 2%positive].
Proof.
  split; [|split; [|repeat split; run_scene]].
  - destruct (sortChildren_keeps_ordered_children 8 scene_siblings 1%positive
                (node_at scene_siblings 1%positive))
      as (w' & n' & R & L & _ & _ & O & _ & _ & T & U & _).
    + find_node.
    + exact scene_siblings_rooted.
    + exists w', n'.
      exact (conj R (conj L (conj (O scene_siblings_ascending) (conj U T)))).
  - destruct (sortChildren_keeps_ordered_children 8 scene_stacked 1%positive
                (node_at scene_stacked 1%positive))
      as (w' & n' & R & L & P & A & _ & Pr & _ & T & U & F).
    + find_node.
    + exact scene_stacked_rooted.
    + do 9 apply proj2 in F. destruct F as (K & Tr & D & _).
      exists w', n'.
      exact (conj R (conj L (conj P (conj
               (A (fun c c' z z' _ _ _ _ => Q_smaller_asym z z'))
               (conj Pr (conj U (conj T (conj K (conj Tr D))))))))).
Defined.

Lemma scene_alpha_rooted : rooted scene_alpha 2%positive 1.
Proof.
  apply (rooted_step _ _ (node_at scene_alpha 2%positive) 1%positive);
    [find_node|run_scene|].
  apply (rooted_top _ _ (node_at scene_alpha 1%positive)); [find_node|run_scene].
Qed.

Lemma worldAlpha_of_node_witness :
  exists v w1,
    get_worldAlpha 8 2%positive scene_alpha = Ok (v, w1) /\
    (parent_in (_tree scene_alpha) (node_at scene_alpha 2%positive) = Some None ->
     v = nmul (nprop (props (node_at scene_alpha 2%positive)) P_alpha) one) /\
    (forall lp,
        parent_in (_tree scene_alpha) (node_at scene_alpha 2%positive) = Some (Some lp) ->
        exists pa w2,
          get_worldAlpha 8 lp w1 = Ok (pa, w2) /\
          v = nmul (nprop (props (node_at scene_alpha 2%positive)) P_alpha)
                   (num_or pa one)).
Proof.
  apply (worldAlpha_of_node scene_alpha 2%positive (node_at scene_alpha 2%positive) 1 8).
  - find_node.
  - exact scene_alpha_rooted.
  - lia.
Defined.

Lemma scene_parent_child_rooted : rooted scene_parent_child 2%positive 1.
Proof.
  apply (rooted_step _ _ (node_at scene_parent_child 2%positive) 1%positive);
    [find_node|run_scene|].
  apply (rooted_top _ _ (node_at scene_parent_child 1%positive)); [find_node|run_scene].
Qed.

Lemma renderQuads_reads_node_witness :
  match globalTransform (node_at scene_parent_child 2%positive) with
  | None => renderQuads 8 2%positive scene_parent_child = Fault AssertionFailed
  | Some gt =>
      exists q w' wz wa,
        renderQuads 8 2%positive scene_parent_child = Ok (q, w') /\
        get_zIndex 8 2%positive scene_parent_child = Ok (q_zIndex q, wz) /\
        get_worldAlpha 8 2%positive scene_parent_child = Ok (q_alpha q, wa) /\
        (q_tx q, q_ty q, q_ta q, q_tb q, q_tc q, q_td q)
        = (tx gt, ty gt, ta gt, tb gt, tc gt, td gt) /\
        q_clippingRect q = clippingRect (node_at scene_parent_child 2%positive) /\
        (q_width q, q_height q)
        = (nprop (props (node_at scene_parent_child 2%positive)) P_width,
           nprop (props (node_at scene_parent_child 2%positive)) P_height) /\
        (q_colorTl q, q_colorTr q, q_colorBl q, q_colorBr q)
        = (nprop (props (node_at scene_parent_child 2%positive)) P_colorTl,
           nprop (props (node_at scene_parent_child 2%positive)) P_colorTr,
           nprop (props (node_at scene_parent_child 2%positive)) P_colorBl,
           nprop (props (node_at scene_parent_child 2%positive)) P_colorBr)
  end.
Proof.
  apply (renderQuads_reads_node scene_parent_child 2%positive
           (node_at scene_parent_child 2%positive) 1 8).
  - find_node.
  - exact scene_parent_child_rooted.
  - lia.
Defined.

Lemma tree_add_then_get_witness :
  exists w',
    tree_add 2%positive scene_parent_child = Ok (tt, w') /\
    tree_get (Some (id (props (node_at scene_parent_child 2%positive)))) w'
    = Ok (Some 2%positive, w') /\
    (forall k, k <> id (props (node_at scene_parent_child 2%positive)) ->
               map_get k (_tree w') = map_get k (_tree scene_parent_child)) /\
    heap w' = heap scene_parent_child /\
    (is_Some (map_get (id (props (node_at scene_parent_child 2%positive)))
                      (_tree scene_parent_child)) ->
     length (_tree w') = length (_tree scene_parent_child)).
Proof.
  apply (tree_add_then_get scene_parent_child 2%positive
           (node_at scene_parent_child 2%positive)).
  find_node.
Defined.

Lemma dirty_set_cycle_witness :
  exists w1 w2 ds,
    tree_markDirty 2%positive scene_parent_child = Ok (tt, w1) /\
    tree_markDirty 2%positive w1 = Ok (tt, w1) /\
    tree_hasDirtyNodes w1 = Ok (true, w1) /\
    tree_getDirtyNodes w1 = Ok (ds, w1) /\ In 2%positive ds /\
    tree_clearDirtyNodes w1 = Ok (tt, w2) /\
    tree_hasDirtyNodes w2 = Ok (false, w2) /\
    tree_getDirtyNodes w2 = Ok ([], w2) /\
    heap w2 = heap scene_parent_child /\ _tree w2 = _tree scene_parent_child.
Proof.
  apply (dirty_set_cycle scene_parent_child 2%positive
           (node_at scene_parent_child 2%positive)).
  find_node.
Defined.

Lemma scene_unsorted_registry : registry_ok scene_unsorted.
Proof.
  assert (T : _tree scene_unsorted
              = [(1, 1%positive); (2, 2%positive); (7, 3%positive); (4, 4%positive)])
    by run_scene.
  unfold registry_ok. rewrite T. split.
  - repeat constructor; cbn [fst snd].
    + exists (node_at scene_unsorted 1%positive). split; [find_node|run_scene].
    + exists (node_at scene_unsorted 2%positive). split; [find_node|run_scene].
    + exists (node_at scene_unsorted 3%positive). split; [find_node|run_scene].
    + exists (node_at scene_unsorted 4%positive). split; [find_node|run_scene].
  - cbn. apply (bool_decide_unpack _). exact I.
Qed.

Lemma tree_sort_orders_registry_witness :
  exists w',
    tree_sort scene_unsorted = Ok (tt, w') /\ heap w' = heap scene_unsorted /\
    Permutation (_tree w') (_tree scene_unsorted) /\ ascending (_tree w') /\
    (forall k, map_get k (_tree w') = map_get k (_tree scene_unsorted)).
Proof.
  apply (tree_sort_orders_registry scene_unsorted). exact scene_unsorted_registry.
Defined.

Lemma find_against_get_witness :
  (forall k, parentId (node_at scene_parent_child 2%positive) = Some k -> k <> 0 ->
             tree_findParent 2%positive scene_parent_child
             = Ok (map_get k (_tree scene_parent_child), scene_parent_child) /\
             (forall r, tree_get (Some k) scene_parent_child = Ok (r, scene_parent_child) ->
                        r = map_get k (_tree scene_parent_child)) /\
             (map_get k (_tree scene_parent_child) = None ->
              tree_get (Some k) scene_parent_child = Fault (NodeNotFound k))) /\
  (id_truthy (parentId (node_at scene_parent_child 2%positive)) = false ->
   tree_findParent 2%positive scene_parent_child = Fault AssertionFailed) /\
  (~ (childrenIds (node_at scene_parent_child 2%positive) = []) ->
   tree_findChildren 2%positive scene_parent_child
   = tree_getNodes (Some (childrenIds (node_at scene_parent_child 2%positive)))
                   scene_parent_child) /\
  (childrenIds (node_at scene_parent_child 2%positive) = [] ->
   tree_findChildren 2%positive scene_parent_child = Ok ([], scene_parent_child) /\
   tree_getNodes (Some (childrenIds (node_at scene_parent_child 2%positive)))
                 scene_parent_child
   = Ok (map_values (_tree scene_parent_child), scene_parent_child)).
Proof.
  apply (find_against_get scene_parent_child 2%positive
           (node_at scene_parent_child 2%positive)).
  find_node.
Defined.

Lemma setRecalculationType_accumulates_witness :
  exists w' n',
    setRecalculationType 1%positive 5 scene_parent_child = Ok (tt, w') /\
    heap w' !! 1%positive = Some n' /\
    (forall b, has_bit (recalculationType n') b
               = has_bit (recalculationType (node_at scene_parent_child 1%positive)) b
                 || has_bit 5 b) /\
    hasUpdates n' = true /\
    map_get (id (props (node_at scene_parent_child 1%positive))) (_dirtyNodes w')
    = Some 1%positive /\
    has_bit (updateMask n') 2
    = has_bit (updateMask (node_at scene_parent_child 1%positive)) 2
      || (has_bit 5 1 && id_truthy (parentId (node_at scene_parent_child 1%positive))) /\
    has_bit (updateMask n') 1
    = has_bit (updateMask (node_at scene_parent_child 1%positive)) 1
      || (has_bit 5 4
          && negb (Nat.eqb (length (childrenIds (node_at scene_parent_child 1%positive))) 0)) /\
    props n' = props (node_at scene_parent_child 1%positive) /\
    _tree w' = _tree scene_parent_child.
Proof.
  apply (setRecalculationType_accumulates scene_parent_child 1%positive
           (node_at scene_parent_child 1%positive) 5).
  find_node.
Defined.

Lemma set_parent_early_return_witness :
  (forall ln np,
      heap scene_parent_child !! ln = Some np ->
      parentId (node_at scene_parent_child 2%positive) = Some (id (props np)) ->
      set_parent 2%positive (Some ln) scene_parent_child = Ok (tt, scene_parent_child)) /\
  (parentId (node_at scene_parent_child 2%positive) = None ->
   exists w' n',
     set_parent 2%positive None scene_parent_child = Ok (tt, w') /\
     heap w' !! 2%positive = Some n' /\
     parentId n' = None /\ hasUpdates n' = true /\
     has_bit (recalculationType n') 8 = true /\
     map_get (id (props (node_at scene_parent_child 2%positive))) (_dirtyNodes w')
     = Some 2%positive).
Proof.
  apply (set_parent_early_return scene_parent_child 2%positive
           (node_at scene_parent_child 2%positive)).
  find_node.
Defined.

Lemma set_parent_null_detaches_witness :
  exists w' n' o',
    set_parent 2%positive None scene_parent_child = Ok (tt, w') /\
    heap w' !! 2%positive = Some n' /\ heap w' !! 1%positive = Some o' /\
    parentId n' = None /\ parentNode n' = None /\
    ~ In (id (props (node_at scene_parent_child 2%positive))) (childrenIds o') /\
    hasUpdates n' = true /\ hasUpdates o' = true /\
    has_bit (recalculationType n') 8 = true /\
    map_get (id (props (node_at scene_parent_child 2%positive))) (_dirtyNodes w')
    = Some 2%positive /\
    map_get (id (props (node_at scene_parent_child 1%positive))) (_dirtyNodes w')
    = Some 1%positive.
Proof.
  apply (set_parent_null_detaches scene_parent_child 2%positive 1%positive
           (node_at scene_parent_child 2%positive)
           (node_at scene_parent_child 1%positive) 1).
  - find_node.
  - run_scene.
  - lia.
  - run_scene.
  - find_node.
  - discriminate.
  - intros H.
    assert (E1 : id (props (node_at scene_parent_child 1%positive)) = 1) by run_scene.
    assert (E2 : id (props (node_at scene_parent_child 2%positive)) = 2) by run_scene.
    pose proof (eq_trans (eq_sym E1) (eq_trans H E2)) as X. discriminate X.
Defined.

Lemma set_color_sets_corners_witness :
  exists w' n',
    set_color 2%positive 7%Q scene_parent_child = Ok (tt, w') /\
    heap w' !! 2%positive = Some n' /\
    nprop (props n') P_color = 7%Q /\
    (forall c, In c [P_colorTl; P_colorTr; P_colorBl; P_colorBr] ->
               nprop (props n') c = 7%Q \/
               (nprop (props n') c = nprop (props (node_at scene_parent_child 2%positive)) c /\
                strict_eq (nprop (props (node_at scene_parent_child 2%positive)) c) 7%Q
                = true)) /\
    hasUpdates n' = true /\ has_bit (recalculationType n') 2 = true /\
    map_get (id (props (node_at scene_parent_child 2%positive))) (_dirtyNodes w')
    = Some 2%positive.
Proof.
  apply (set_color_sets_corners scene_parent_child 2%positive
           (node_at scene_parent_child 2%positive) 7%Q).
  find_node.
Defined.

Lemma node_set_then_get_witness :
  exists w' v',
    node_set 2%positive A_pivot (1 # 2)%Q scene_parent_child = Ok (tt, w') /\
    node_get 2%positive A_pivot w' = Ok (v', w') /\
    v' = nprop (props (node_at scene_parent_child 2%positive)) P_pivot.
Proof.
  apply (node_set_then_get scene_parent_child 2%positive
           (node_at scene_parent_child 2%positive) A_pivot (1 # 2)%Q).
  find_node.
Defined.

Lemma anim_reverse_twice_witness :
  exists a1 a2,
    anim_reverse (animation_x (Some 4%Q)) scene_parent_child = Ok (a1, scene_parent_child) /\
    anim_reverse a1 scene_parent_child = Ok (a2, scene_parent_child) /\
    (forall k, In k (obj_keys (a_props (animation_x (Some 4%Q)))) ->
               obj_get k (a_props a1)
               = obj_get k (propStartValues (animation_x (Some 4%Q))) /\
               obj_get k (propStartValues a1)
               = obj_get k (a_props (animation_x (Some 4%Q)))) /\
    (forall k, obj_get k (a_props a2) = obj_get k (a_props (animation_x (Some 4%Q)))) /\
    (forall k, obj_get k (propStartValues a2)
               = obj_get k (propStartValues (animation_x (Some 4%Q)))) /\
    obj_keys (a_props a2) = obj_keys (a_props (animation_x (Some 4%Q))) /\
    progress a1 = zero /\ progress a2 = zero /\
    (loop_truthy (settings (animation_x (Some 4%Q))) = false ->
     stopMethod (settings a1) = Some SM_false).
Proof.
  apply (anim_reverse_twice (animation_x (Some 4%Q)) scene_parent_child).
  - apply NoDup_singleton.
  - intros k [<-|[]]. eexists. reflexivity.
Defined.

Lemma new_CoreAnimation_captures_witness :
  exists a,
    new_CoreAnimation 2%positive [(A_x, 100%Q)] (settings_of (Some 4%Q)) scene_parent_child
    = Ok (a, scene_parent_child) /\
    a_node a = 2%positive /\ a_props a = [(A_x, 100%Q)] /\
    propsList a = obj_keys [(A_x, 100%Q)] /\
    progress a = zero /\ emitted a = [] /\ settings a = settings_of (Some 4%Q) /\
    (forall k, In k (obj_keys [(A_x, 100%Q)]) ->
               node_get 2%positive k scene_parent_child
               = Ok (nprop (props (node_at scene_parent_child 2%positive)) (prop_of k),
                     scene_parent_child) /\
               obj_get k (propStartValues a)
               = Some (nprop (props (node_at scene_parent_child 2%positive)) (prop_of k))) /\
    values_defined a.
Proof.
  apply (new_CoreAnimation_captures scene_parent_child 2%positive
           (node_at scene_parent_child 2%positive) [(A_x, 100%Q)] (settings_of (Some 4%Q))).
  find_node.
Defined.

(** ** The claims on transforms, locked zIndex and stale children *)

Lemma zIndex_of_locked_child_at_most_parent_witness :
  (exists w0 vN vP w1 w2,
      set_zIndex 2%positive 100%Q scene_locked = Ok (tt, w0) /\
      get_zIndex 8 2%positive w0 = Ok (vN, w1) /\
      get_zIndex 8 1%positive w1 = Ok (vP, w2) /\
      nle vN vP = true /\
      vN = (if nlt (num_or 100%Q zero) vP then num_or 100%Q zero else vP)) /\
  value_of (set_zIndex 2%positive 100%Q ;; get_zIndex 8 2%positive) scene_locked
    = Some 5%Q /\
  value_of (set_zIndex 2%positive 3%Q ;; get_zIndex 8 2%positive) scene_locked
    = Some 3%Q /\
  value_of (get_zIndex 8 1%positive) scene_locked = Some 5%Q.
Proof.
  split; [|repeat split; run_scene].
  apply (zIndex_of_locked_child_at_most_parent scene_locked 2%positive 1%positive
           (node_at scene_locked 2%positive) (node_at scene_locked 1%positive) 0 8).
  - find_node.
  - run_scene.
  - find_node.
  - run_scene.
  - apply (rooted_top _ _ (node_at scene_locked 1%positive)); [find_node|run_scene].
  - lia.
Defined.

Lemma update_adopts_every_registered_node_witness :
  (tree_getNodes (Some []) scene_unsorted
   = Ok (map_values (_tree scene_unsorted), scene_unsorted) /\
   tree_getNodes None scene_unsorted
   = Ok (map_values (_tree scene_unsorted), scene_unsorted) /\
   exists w1 w2 w3 na2 na3,
     set_parent 3%positive (Some 2%positive) scene_unsorted = Ok (tt, w1) /\
     set_parent 3%positive (Some 1%positive) w1 = Ok (tt, w2) /\
     heap w2 !! 2%positive = Some na2 /\
     childrenIds na2 = [] /\ has_bit (updateMask na2) 1 = true /\
     update 8 2%positive None w2 = Ok (tt, w3) /\
     heap w3 !! 2%positive = Some na3 /\
     children na3 = map_values (_tree scene_unsorted) /\
     _tree w3 = _tree scene_unsorted) /\
  map_values (_tree scene_unsorted)
    = [1%positive; 2%positive; 3%positive; 4%positive] /\
  children (node_at scene_unsorted 2%positive) = [] /\
  children
    (node_at (run (set_parent 3%positive (Some 2%positive) ;;
                   set_parent 3%positive (Some 1%positive) ;;
                   update 8 2%positive None) scene_unsorted) 2%positive)
    = [1%positive; 2%positive; 3%positive; 4%positive].
Proof.
  assert (I1 : id (props (node_at scene_unsorted 1%positive)) = 1) by run_scene.
  assert (I2 : id (props (node_at scene_unsorted 2%positive)) = 2) by run_scene.
  split; [|repeat split; run_scene].
  apply (update_adopts_every_registered_node 8 scene_unsorted 2%positive 3%positive
           (node_at scene_unsorted 2%positive) (node_at scene_unsorted 3%positive)
           (Some 1%positive) (Some 1%positive) None).
  - find_node.
  - find_node.
  - discriminate.
  - run_scene.
  - run_scene.
  - intros H. pose proof (eq_trans (eq_sym I2) H) as X. discriminate X.
  - run_scene.
  - intros b [= <-]. split; [discriminate|]. split; [discriminate|].
    exists (node_at scene_unsorted 1%positive). split; [find_node|].
    intros H. pose proof (eq_trans (eq_sym I1) (eq_trans H I2)) as X. discriminate X.
  - scene_some.
  - intros _. scene_some.
  - run_scene.
  - run_scene.
  - intros lp [= <-]. apply is_Some_lookup. run_scene.
Defined.




End Instances.
